(** * build_health.py: a shallow embedding and its verified properties

    The development follows the script top to bottom: the Python
    primitives it relies on (exceptions, insertion-ordered dictionaries,
    [sorted], [str.startswith], true division), then [get_package], the
    package forest, [compute_counts], [print_forest],
    [read_build_event_protocol] and the body of [__main__] from the point
    where the event file is read (argument parsing, the build invocation
    and the delay that precede it are not modelled).  Theorems come
    last. *)

From Stdlib Require Import List String Ascii Bool Arith Lia ZArith QArith.
From Stdlib Require Import Sorting.Sorted Sorting.Permutation DecimalString.
From Stdlib Require Import DecimalNat Qabs Qpower Lqa.
From Equations Require Import Equations.
From Equations.Prop Require Import Logic.
Import ListNotations.
Local Open Scope string_scope.
Local Open Scope list_scope.
Local Open Scope nat_scope.

(** ** Python primitives *)

Module Py.

(** The exceptions the script can raise. *)
Inductive exn : Type :=
| RuntimeError (msg : string)
| KeyError (key : string)
| ZeroDivisionError.

(** A computation that returns or raises. *)
Inductive result (A : Type) : Type :=
| Ok (a : A)
| Error (e : exn).
Arguments Ok {A} a.
Arguments Error {A} e.

Definition bind {A B} (m : result A) (k : A -> result B) : result B :=
  match m with
  | Ok a => k a
  | Error e => Error e
  end.

(** [for x in xs: acc = f(acc, x)] where the body may raise. *)
Fixpoint foldM {A S} (f : S -> A -> result S) (xs : list A) (s : S)
  : result S :=
  match xs with
  | [] => Ok s
  | x :: rest => bind (f s x) (foldM f rest)
  end.

(** [[f(x) for x in xs]] where [f] may raise. *)
Fixpoint mapM {A B} (f : A -> result B) (xs : list A) : result (list B) :=
  match xs with
  | [] => Ok []
  | x :: rest =>
      bind (f x) (fun y => bind (mapM f rest) (fun ys => Ok (y :: ys)))
  end.

(** A [dict] with string keys: an association list in insertion order
    whose keys are pairwise distinct. *)
Definition dict (V : Type) : Type := list (string * V).

Fixpoint get {V} (d : dict V) (k : string) : option V :=
  match d with
  | [] => None
  | (k', v) :: rest => if String.eqb k' k then Some v else get rest k
  end.

(** [k in d] *)
Definition contains {V} (d : dict V) (k : string) : bool :=
  match get d k with Some _ => true | None => false end.

(** [d[k]], raising [KeyError] on a missing key. *)
Definition getitem {V} (d : dict V) (k : string) : result V :=
  match get d k with
  | Some v => Ok v
  | None => Error (KeyError k)
  end.

(** [d[k] = v]: an existing key keeps its position, a new key goes last. *)
Fixpoint setitem {V} (d : dict V) (k : string) (v : V) : dict V :=
  match d with
  | [] => [(k, v)]
  | (k', v') :: rest =>
      if String.eqb k' k then (k', v) :: rest
      else (k', v') :: setitem rest k v
  end.

Definition keys {V} (d : dict V) : list string := map fst d.
Definition values {V} (d : dict V) : list V := map snd d.

(** [defaultdict(list)[k]] read without a stored default: the list
    found, or the empty list. *)
Definition getdefault {V} (d : dict (list V)) (k : string) : list V :=
  match get d k with Some l => l | None => [] end.

(** [s.startswith(p)] *)
Definition startswith (s p : string) : bool := String.prefix p s.

(** [sorted(xs, key=key)]: the stable sort by ascending key; strings
    compare lexicographically by character code. *)
Fixpoint insert_sorted {A} (key : A -> string) (x : A) (l : list A)
  : list A :=
  match l with
  | [] => [x]
  | y :: rest =>
      if String.ltb (key x) (key y) then x :: y :: rest
      else y :: insert_sorted key x rest
  end.

Definition sorted {A} (key : A -> string) (xs : list A) : list A :=
  fold_left (fun acc x => insert_sorted key x acc) xs [].

(** [a / b] on non-negative ints.  Python yields the binary64 float
    nearest to the quotient; the embedding keeps the exact quotient,
    which compares with 1 the same way whenever the divisor is below
    2^53 (lemma [binary64_lt_one]), and rounds it to that float where the
    value is formatted (see [binary64] below). *)
Definition truediv (a b : nat) : result Q :=
  match b with
  | 0 => Error ZeroDivisionError
  | S _ => Ok (Z.of_nat a # Pos.of_nat b)
  end.

(** [q < 1] *)
Definition lt_one (q : Q) : bool := negb (Qle_bool 1 q).

(** [sum(p(x) for x in xs)] *)
Definition count {A} (p : A -> bool) (xs : list A) : nat :=
  List.length (filter p xs).

End Py.
Import Py.

Notation "x <- m ;; k" := (bind m (fun x => k))
  (at level 61, m at next level, right associativity).

(** ** get_package *)

Definition colon : ascii := ":"%char.
Definition newline : ascii := "010"%char.

(** The lazy group of [re.search(r"^(.*?):", target)]: the anchor pins the
    match to the first character, [.] accepts every character but the
    line feed, and the lazy star stops at the first colon. *)
Fixpoint re_search_package (target : string) : option string :=
  match target with
  | EmptyString => None
  | String c rest =>
      if Ascii.eqb c colon then Some EmptyString
      else if Ascii.eqb c newline then None
      else option_map (String c) (re_search_package rest)
  end.

Definition get_package (target : string) : result string :=
  match re_search_package target with
  | Some group1 => Ok group1
  | None =>
      Error (RuntimeError ("Error parsing package for: " ++ target ++ "."))
  end.

(** [c in s] for a character. *)
Fixpoint occurs (c : ascii) (s : string) : bool :=
  match s with
  | EmptyString => false
  | String c' rest => Ascii.eqb c' c || occurs c rest
  end.

(** The characters of [s] that precede its first colon (all of [s] when
    it has none). *)
Fixpoint before_first_colon (s : string) : string :=
  match s with
  | EmptyString => EmptyString
  | String c rest =>
      if Ascii.eqb c colon then EmptyString
      else String c (before_first_colon rest)
  end.

(** ** The package forest *)

Unset Elimination Schemes.
Inductive PackageTreeNode : Type := mkNode {
  package : string;
  depth : nat;
  children : list PackageTreeNode;
  package_num_successes : nat;
  package_num_targets : nat;
  subtree_num_successes : nat;
  subtree_num_targets : nat
}.
Set Elimination Schemes.

(** [PackageTreeNode(package, depth)] *)
Definition new_node (package : string) (depth : nat) : PackageTreeNode :=
  mkNode package depth [] 0 0 0 0.

Definition set_depth (n : PackageTreeNode) (d : nat) : PackageTreeNode :=
  mkNode (package n) d (children n) (package_num_successes n)
    (package_num_targets n) (subtree_num_successes n) (subtree_num_targets n).

Definition set_children (n : PackageTreeNode) (cs : list PackageTreeNode)
  : PackageTreeNode :=
  mkNode (package n) (depth n) cs (package_num_successes n)
    (package_num_targets n) (subtree_num_successes n) (subtree_num_targets n).

(** The [for ... if ...: ...; break] scan shared by both insertion
    functions: the first element accepted by [hit] is replaced by [enter]
    applied to it; [None] when the loop ends without a [break]. *)
Fixpoint first_match {A} (hit : A -> bool) (enter : A -> A) (l : list A)
  : option (list A) :=
  match l with
  | [] => None
  | x :: rest =>
      if hit x then Some (enter x :: rest)
      else option_map (cons x) (first_match hit enter rest)
  end.

Fixpoint insert_node_into_tree (root node : PackageTreeNode)
  : PackageTreeNode :=
  match first_match
          (fun child => startswith (package node) (package child))
          (fun child => insert_node_into_tree child node)
          (children root) with
  | Some children' => set_children root children'
  | None =>
      set_children root (children root ++ [set_depth node (depth root + 1)])
  end.

Definition insert_node_into_forest (roots : list PackageTreeNode)
  (node : PackageTreeNode) : list PackageTreeNode :=
  match first_match
          (fun root => startswith (package node) (package root))
          (fun root => insert_node_into_tree root node)
          roots with
  | Some roots' => roots'
  | None => roots ++ [set_depth node 0]
  end.

Definition build_package_forest (package_lst : list string)
  : list PackageTreeNode :=
  fold_left
    (fun result package => insert_node_into_forest result (new_node package 0))
    package_lst [].

(** Every node of a tree, parents before their children. *)
Fixpoint nodes (n : PackageTreeNode) : list PackageTreeNode :=
  n :: flat_map nodes (children n).

Definition forest_nodes (roots : list PackageTreeNode)
  : list PackageTreeNode :=
  flat_map nodes roots.

(** Every node of a tree paired with its chain of ancestors, the nearest
    one first; [above] is the chain of the tree's root. *)
Fixpoint with_ancestors (above : list PackageTreeNode) (n : PackageTreeNode)
  : list (list PackageTreeNode * PackageTreeNode) :=
  (above, n) :: flat_map (with_ancestors (n :: above)) (children n).

Definition forest_with_ancestors (roots : list PackageTreeNode)
  : list (list PackageTreeNode * PackageTreeNode) :=
  flat_map (with_ancestors []) roots.

(** Neither key is a string prefix of the other. *)
Definition unrelated (a b : string) : Prop :=
  startswith a b = false /\ startswith b a = false.

(** No two nodes of the list have keys in a prefix relation. *)
Definition siblings_unrelated (siblings : list PackageTreeNode) : Prop :=
  ForallOrdPairs unrelated (map package siblings).

(** [valid_tree above n]: the tree [n], hanging below the chain of keys
    [above] (nearest ancestor first), has the depth of its place, a key
    that extends every key above it and differs from all of them,
    unrelated children, and valid subtrees. *)
#[warnings="-register-all"]
Inductive valid_tree : list string -> PackageTreeNode -> Prop :=
| valid_node (above : list string) (n : PackageTreeNode) :
    depth n = List.length above ->
    Forall (fun a => startswith (package n) a = true) above ->
    ~ In (package n) above ->
    siblings_unrelated (children n) ->
    Forall (valid_tree (package n :: above)) (children n) ->
    valid_tree above n.

(** The roots are valid trees with nothing above them, and unrelated. *)
Definition valid_forest (roots : list PackageTreeNode) : Prop :=
  Forall (valid_tree []) roots /\ siblings_unrelated roots.

(** No node of the list has a key that starts with the key of a node at
    another position of the list. *)
Definition no_prefix_pair (siblings : list PackageTreeNode) : Prop :=
  forall i j a b,
    i <> j ->
    nth_error siblings i = Some a ->
    nth_error siblings j = Some b ->
    startswith (package a) (package b) = false.

(** Ascending order without repetition. *)
Definition ascending (package_lst : list string) : Prop :=
  Sorted (fun a b => String.ltb a b = true) package_lst.

(** ** compute_counts *)

(** An outcome is [None] while the target is only configured, and a
    string once it has completed. *)
Definition outcome : Type := option string.

(** [o == "success"] *)
Definition is_success (o : outcome) : bool :=
  match o with
  | Some s => String.eqb s "success"
  | None => false
  end.

Definition sum (l : list nat) : nat := fold_right Nat.add 0 l.

Fixpoint compute_counts (node : PackageTreeNode)
  (targets_from_package : dict (list string)) (outcomes : dict outcome)
  : result PackageTreeNode :=
  children' <- mapM
    (fun n => compute_counts n targets_from_package outcomes)
    (children node) ;;
  let subtree_number_of_targets := sum (map subtree_num_targets children') in
  let subtree_number_of_successes :=
    sum (map subtree_num_successes children') in
  let targets := getdefault targets_from_package (package node) in
  flags <- mapM (fun t => o <- getitem outcomes t ;; Ok (is_success o))
             targets ;;
  let num_targets := List.length targets in
  let num_successes := count (fun b : bool => b) flags in
  Ok (mkNode (package node) (depth node) children'
        num_successes num_targets
        (subtree_number_of_successes + num_successes)
        (subtree_number_of_targets + num_targets)).

(** [outcomes[t] == "success"] for a target known to be in [outcomes]. *)
Definition success_of (outcomes : dict outcome) (t : string) : bool :=
  match get outcomes t with
  | Some o => is_success o
  | None => false
  end.

(** The counters of [n] are what [compute_counts] assigns: the direct
    counts come from the targets of the package, the subtree counts add
    the subtree counts of the children. *)
Definition node_counted (targets_from_package : dict (list string))
  (outcomes : dict outcome) (n : PackageTreeNode) : Prop :=
  package_num_targets n
  = List.length (getdefault targets_from_package (package n)) /\
  package_num_successes n
  = count (success_of outcomes) (getdefault targets_from_package (package n))
  /\
  subtree_num_targets n
  = sum (map subtree_num_targets (children n)) + package_num_targets n /\
  subtree_num_successes n
  = sum (map subtree_num_successes (children n)) + package_num_successes n.

(** The aggregation identities and the bound between the subtree counts. *)
Definition counts_consistent (n : PackageTreeNode) : Prop :=
  subtree_num_targets n
  = package_num_targets n + sum (map subtree_num_targets (children n)) /\
  subtree_num_successes n
  = package_num_successes n + sum (map subtree_num_successes (children n)) /\
  subtree_num_successes n <= subtree_num_targets n.

(** Both divisions made for [n] by [print_forest] have a non-zero
    divisor. *)
Definition has_targets (n : PackageTreeNode) : Prop :=
  package_num_targets n <> 0 /\ subtree_num_targets n <> 0.

(** The targets of the package of [n] all have an outcome. *)
Definition targets_known (package_to_target : dict (list string))
  (outcome_of : dict outcome) (n : PackageTreeNode) : Prop :=
  Forall (fun t => contains outcome_of t = true)
    (getdefault package_to_target (package n)).

(** ** Printed output *)

(** One call of [print].  A line keeps the values interpolated into the
    f-string, the fractions as exact quotients; [render] turns it into
    the text. *)
Inductive line : Type :=
| Blank
| PackageLine (indentation package : string)
    (package_success_fraction : Q) (num_successes num_targets : nat)
| TargetLine (indentation t : string) (o : outcome)
| OverallLine (overall_percentage : Q).

(** A printing computation: the lines printed so far, then the value
    returned or the exception raised. *)
Definition io (A : Type) : Type := (list line * result A)%type.

Definition io_ret {A} (a : A) : io A := ([], Ok a).

Definition io_bind {A B} (m : io A) (k : A -> io B) : io B :=
  match m with
  | (out, Ok a) => let (out', r) := k a in (out ++ out', r)
  | (out, Error e) => (out, Error e)
  end.

Definition print (l : line) : io unit := ([l], Ok tt).

Definition lift {A} (r : result A) : io A := ([], r).

Notation "x <~ m ;; k" := (io_bind m (fun x => k))
  (at level 61, m at next level, right associativity).
Notation "m ;;; k" := (io_bind m (fun _ => k))
  (at level 61, right associativity).

Fixpoint for_each {A} (body : A -> io unit) (xs : list A) : io unit :=
  match xs with
  | [] => io_ret tt
  | x :: rest => body x ;;; for_each body rest
  end.

(** *** Rendering numbers *)

Definition str_nat (n : nat) : string :=
  NilEmpty.string_of_uint (Nat.to_uint n).

(** [str(o)] for an outcome. *)
Definition str_outcome (o : outcome) : string :=
  match o with
  | Some s => s
  | None => "None"
  end.

(** The integer nearest to [q], ties going to the even one. *)
Definition round_half_even (q : Q) : Z :=
  let n := Qnum q in
  let d := Zpos (Qden q) in
  let fl := (n / d)%Z in
  let r2 := (2 * (n mod d))%Z in
  if (r2 <? d)%Z then fl
  else if (d <? r2)%Z then (fl + 1)%Z
  else if Z.even fl then fl else (fl + 1)%Z.

Definition digit (d : Z) : ascii := ascii_of_nat (48 + Z.to_nat d).

(** The [prec] lowest decimal digits of [m], most significant first. *)
Fixpoint low_digits (prec : nat) (m : Z) : string :=
  match prec with
  | 0 => EmptyString
  | S p => low_digits p (m / 10) ++ String (digit (m mod 10)) EmptyString
  end.

(** *** Floats *)

(** A Python float is a binary64 number, written here as the rational it
    denotes.  [floor_log2 q] is the exponent of [q > 0]: the [e] with
    [2^e <= q < 2^(e+1)]. *)
Definition floor_log2 (q : Q) : Z :=
  let l := (Z.log2 (Qnum q) - Z.log2 (Zpos (Qden q)))%Z in
  if Qle_bool (2 ^ l) q then l else (l - 1)%Z.

(** The binary64 number nearest to [q >= 0], ties going to the even
    significand: [q] is rounded to a multiple of [2^(e-52)], which leaves
    a significand of 53 bits.  This is the float Python holds for an
    [int / int] quotient whose exact value is [q], and for a float
    product whose exact value is [q].  The quotient is reduced first, so
    that equal rationals give the same float; the exponent range of
    binary64 is not modelled (a count would have to exceed 2^1000 to
    leave it). *)
Definition binary64 (q : Q) : Q :=
  let r := Qred q in
  if Qle_bool r 0 then 0
  else
    let ulp := (2 ^ (floor_log2 r - 52))%Q in
    inject_Z (round_half_even (r / ulp)) * ulp.

(** [x * 100] on the float [x] held for the exact quotient [q]. *)
Definition times_100 (q : Q) : Q := binary64 (binary64 q * 100).

(** [format(x, ".<prec>f")] for a float [x >= 0] and [prec >= 1]: the
    decimal numeral with [prec] digits after the point nearest to the
    value of [x], ties going to the even last digit. *)
Definition format_f (prec : nat) (x : Q) : string :=
  let scaled := round_half_even (x * inject_Z (10 ^ Z.of_nat prec)) in
  str_nat (Z.to_nat (scaled / 10 ^ Z.of_nat prec))
  ++ "." ++ low_digits prec scaled.

(** [format(x, ".<prec>%")] for the float [x] held for the exact quotient
    [q]: the float is multiplied by 100 and formatted with [f]. *)
Definition format_percent (prec : nat) (q : Q) : string :=
  format_f prec (times_100 q) ++ "%".

(** The text of a line.  The fractions kept in the lines are exact; the
    text shows the floats Python holds for them.  For the summary line
    the exact value is [fraction * 100], where [fraction] is the quotient
    of line 202, and the float is that of [fraction] multiplied by
    100. *)
Definition render (l : line) : string :=
  match l with
  | Blank => ""
  | PackageLine indentation package fraction num_successes num_targets =>
      indentation ++ "Package " ++ package ++ ":all build percentage: "
      ++ format_percent 1 fraction
      ++ " (" ++ str_nat num_successes ++ "/" ++ str_nat num_targets ++ ")"
  | TargetLine indentation t o =>
      " " ++ indentation ++ "Target " ++ t ++ " : " ++ str_outcome o
  | OverallLine overall_percentage =>
      let fraction := (overall_percentage / 100)%Q in
      "Overall build percent: " ++ format_f 2 (times_100 fraction) ++ "%"
  end.

(** [c] is one of the characters [0] to [9]; [s] is made of such
    characters only. *)
Definition is_digit (c : ascii) : bool :=
  (48 <=? nat_of_ascii c) && (nat_of_ascii c <=? 57).

Fixpoint all_digits (s : string) : bool :=
  match s with
  | EmptyString => true
  | String c rest => is_digit c && all_digits rest
  end.

(** The number written by the decimal digits [s], read after digits that
    wrote [acc]; the number written by the numeral [whole.frac]. *)
Fixpoint digits_value (s : string) (acc : nat) : nat :=
  match s with
  | EmptyString => acc
  | String c rest => digits_value rest (10 * acc + (nat_of_ascii c - 48))
  end.

Definition decimal_value (whole frac : string) : Q :=
  inject_Z (Z.of_nat (digits_value (whole ++ frac) 0))
  / inject_Z (10 ^ Z.of_nat (String.length frac)).

(** ["|" * n] *)
Fixpoint bars (n : nat) : string :=
  match n with
  | 0 => EmptyString
  | S k => String "|"%char (bars k)
  end.

Definition tee : string := "├".

(** ** print_forest *)

(** The body of [for t in package_to_target[node.package]]. *)
Definition print_target (indentation : string) (outcome_of : dict outcome)
  (expand : bool) (t : string) : io unit :=
  o <~ lift (getitem outcome_of t) ;;
  if (is_success o && expand) || negb (is_success o)
  then print (TargetLine indentation t o)
  else io_ret tt.

(** One turn of the [while queue] loop, after [node] has been taken off
    the front of the queue: what is printed, and the queue left for the
    next turn. *)
Definition visit (node : PackageTreeNode)
  (package_to_target : dict (list string)) (outcome_of : dict outcome)
  (print_individual_targets expand : bool) (queue : list PackageTreeNode)
  : io (list PackageTreeNode) :=
  subtree_success_fraction <~
    lift (truediv (subtree_num_successes node) (subtree_num_targets node)) ;;
  let indentation := (bars (depth node) ++ tee)%string in
  if lt_one subtree_success_fraction || expand then
    package_success_fraction <~
      lift (truediv (package_num_successes node) (package_num_targets node)) ;;
    print (PackageLine indentation (package node) package_success_fraction
             (package_num_successes node) (package_num_targets node)) ;;;
    (if expand && print_individual_targets
     then for_each (print_target indentation outcome_of expand)
            (getdefault package_to_target (package node))
     else io_ret tt) ;;;
    io_ret (sorted package (children node) ++ queue)
  else io_ret queue.

(** The number of nodes of a tree, and of the trees waiting in a queue:
    the measure that makes the loop terminate. *)
Fixpoint size (n : PackageTreeNode) : nat :=
  S (sum (map size (children n))).

Definition queue_size (queue : list PackageTreeNode) : nat :=
  sum (map size queue).

Lemma sum_app (l1 l2 : list nat) : sum (l1 ++ l2) = sum l1 + sum l2.
Proof.
  induction l1 as [|x l1 IH]; simpl; [reflexivity | rewrite IH; lia].
Qed.

Lemma queue_size_insert_sorted (key : PackageTreeNode -> string) x l :
  queue_size (insert_sorted key x l) = size x + queue_size l.
Proof.
  unfold queue_size.
  induction l as [|y l IH]; simpl; [reflexivity |].
  destruct (String.ltb (key x) (key y)); simpl; [reflexivity |].
  rewrite IH. lia.
Qed.

Lemma queue_size_sorted (key : PackageTreeNode -> string) l :
  queue_size (sorted key l) = queue_size l.
Proof.
  unfold sorted.
  assert (G : forall acc,
             queue_size (fold_left (fun a x => insert_sorted key x a) l acc)
             = queue_size acc + queue_size l).
  { induction l as [|x l IH]; intros acc; simpl.
    - unfold queue_size at 3. simpl. lia.
    - rewrite IH, queue_size_insert_sorted.
      unfold queue_size. simpl. lia. }
  rewrite G. reflexivity.
Qed.

Lemma visit_queue node ptt oo pit e queue out queue' :
  visit node ptt oo pit e queue = (out, Ok queue') ->
  queue' = queue \/ queue' = sorted package (children node) ++ queue.
Proof.
  unfold visit, io_bind, lift, print, io_ret.
  destruct (truediv (subtree_num_successes node) (subtree_num_targets node))
    as [f|]; [|discriminate].
  destruct (lt_one f || e).
  - destruct (truediv (package_num_successes node) (package_num_targets node));
      [|discriminate].
    destruct (if e && pit then _ else _) as [o [[]|]]; [|discriminate].
    intros H. injection H as _ <-. right. reflexivity.
  - intros H. injection H as _ <-. left. reflexivity.
Qed.

Lemma queue_size_cons n queue :
  queue_size (n :: queue) = S (queue_size (children n)) + queue_size queue.
Proof. destruct n. reflexivity. Qed.

Lemma queue_size_app q1 q2 :
  queue_size (q1 ++ q2) = queue_size q1 + queue_size q2.
Proof. unfold queue_size. rewrite map_app. apply sum_app. Qed.

Lemma visit_decreases node ptt oo pit e queue out queue' :
  visit node ptt oo pit e queue = (out, Ok queue') ->
  queue_size queue' < queue_size (node :: queue).
Proof.
  intros H. apply visit_queue in H.
  rewrite queue_size_cons.
  destruct H as [-> | ->]; [lia |].
  rewrite queue_size_app, queue_size_sorted. lia.
Qed.

(** The [while queue] loop. *)
Equations? print_queue (package_to_target : dict (list string))
  (outcome_of : dict outcome) (print_individual_targets expand : bool)
  (queue : list PackageTreeNode) : io unit by wf (queue_size queue) lt :=
  print_queue ptt oo pit e [] := io_ret tt;
  print_queue ptt oo pit e (node :: queue)
    with inspect (visit node ptt oo pit e queue) := {
    | exist _ (out, Ok queue') Heq =>
        let (out', r) := print_queue ptt oo pit e queue' in (out ++ out', r);
    | exist _ (out, Error err) _ => (out, Error err) }.
Proof.
  eapply visit_decreases. exact Heq.
Qed.

Definition print_forest (r : PackageTreeNode)
  (package_to_target : dict (list string)) (outcome_of : dict outcome)
  (print_individual_targets expand : bool) : io unit :=
  print_queue package_to_target outcome_of print_individual_targets expand [r].

(** ** read_build_event_protocol *)

(** The [failureDetail] object of a [completed] object: its [message]
    when that key is present. *)
Record failure_detail : Type := mkFailureDetail {
  message : option string
}.

(** The [completed] object of a record: its [success] flag when the key is
    present, its [failureDetail] object when that key is present, and the
    text [str] gives for the object. *)
Record completed_result : Type := mkCompleted {
  success : option bool;
  failureDetail : option failure_detail;
  completed_str : string
}.

(** One decoded line of the event file: the keys of its [id] object in
    order, each with the [label] its value carries (if any); whether the
    key [aborted] is present; the [completed] object if present; and the
    text [str] gives for the whole record. *)
Record build_event : Type := mkEvent {
  bep_id : dict (option string);
  bep_aborted : bool;
  bep_completed : option completed_result;
  bep_str : string
}.

(** [bep_contents["id"][kind]["label"]] *)
Definition id_label (bep_contents : build_event) (kind : string)
  : result string :=
  payload <- getitem (bep_id bep_contents) kind ;;
  match payload with
  | Some label => Ok label
  | None => Error (KeyError "label")
  end.

(** The outcome stored for a completed target (lines 136 to 151); reading
    the [message] of a [failureDetail] object that has none raises
    [KeyError]. *)
Definition completed_outcome (bep_contents : build_event) : result outcome :=
  if bep_aborted bep_contents then Ok (Some "aborted")
  else
    match bep_completed bep_contents with
    | Some c =>
        match success c with
        | Some true => Ok (Some "success")
        | _ =>
            match failureDetail c with
            | Some detail =>
                match message detail with
                | Some text => Ok (Some text)
                | None => Error (KeyError "message")
                end
            | None => Ok (Some (completed_str c))
            end
        end
    | None => Ok (Some (bep_str bep_contents))
    end.

(** The body of [for k in bep_contents["id"].keys()]. *)
Definition handle_key (bep_contents : build_event) (outcomes : dict outcome)
  (k : string) : result (dict outcome) :=
  if String.eqb k "targetConfigured" then
    label <- id_label bep_contents "targetConfigured" ;;
    Ok (setitem outcomes label None)
  else if String.eqb k "targetCompleted" then
    label <- id_label bep_contents "targetCompleted" ;;
    if negb (contains outcomes label) then
      Error (RuntimeError ("Haven't seen this target before: " ++ label))
    else
      o <- completed_outcome bep_contents ;;
      Ok (setitem outcomes label o)
  else Ok outcomes.

(** The body of [for line in f], on the decoded line. *)
Definition handle_event (outcomes : dict outcome) (bep_contents : build_event)
  : result (dict outcome) :=
  foldM (handle_key bep_contents) (keys (bep_id bep_contents)) outcomes.

(** The loop of [read_build_event_protocol] started from given outcomes. *)
Definition read_from (outcomes : dict outcome) (events : list build_event)
  : result (dict outcome) :=
  foldM handle_event events outcomes.

Definition read_build_event_protocol (events : list build_event)
  : result (dict outcome) :=
  read_from [] events.

(** The event file as the sequence of loop turns it causes: every record
    paired with each key of its [id] object, in order. *)
Definition steps (events : list build_event) : list (build_event * string) :=
  flat_map (fun bep_contents =>
              map (pair bep_contents) (keys (bep_id bep_contents)))
    events.

Definition handle_step (outcomes : dict outcome) (s : build_event * string)
  : result (dict outcome) :=
  handle_key (fst s) outcomes (snd s).

(** The turn [s] is a "target configured" (resp. "target completed")
    turn for [label]. *)
Definition configures (label : string) (s : build_event * string) : Prop :=
  snd s = "targetConfigured" /\
  id_label (fst s) "targetConfigured" = Ok label.

Definition completes (label : string) (s : build_event * string) : Prop :=
  snd s = "targetCompleted" /\
  id_label (fst s) "targetCompleted" = Ok label.

Definition unseen_target (label : string) : exn :=
  RuntimeError ("Haven't seen this target before: " ++ label).

(** ** The main program *)

(** [package_to_targets[package].append(target)] on a [defaultdict(list)]. *)
Definition append_target (package_to_targets : dict (list string))
  (package target : string) : dict (list string) :=
  setitem package_to_targets package
    (getdefault package_to_targets package ++ [target]).

(** The grouping loop [for target in outcome_of]. *)
Definition group_targets (outcome_of : dict outcome)
  : result (dict (list string)) :=
  foldM (fun package_to_targets target =>
           package <- get_package target ;;
           Ok (append_target package_to_targets package target))
    (keys outcome_of) [].

(** [sum(o == "success" for o in outcome_of.values())
     / len(outcome_of) * 100], as the exact value of the expression; the
    float Python holds for it is [times_100] of the quotient, which is
    what [render] formats. *)
Definition overall_percentage (outcome_of : dict outcome) : result Q :=
  fraction <- truediv (count is_success (values outcome_of))
                (List.length outcome_of) ;;
  Ok (fraction * 100)%Q.

(** The main program once the outcomes have been read: grouping, forest,
    counts, report and summary. *)
Definition report (outcome_of : dict outcome) (expand : bool) : io unit :=
  package_to_targets <~ lift (group_targets outcome_of) ;;
  let print_individual_targets :=
    List.length (keys package_to_targets) <=? 1 in
  let all_roots :=
    build_package_forest (sorted (fun k => k) (keys package_to_targets)) in
  all_roots <~ lift (mapM (fun r => compute_counts r package_to_targets
                                      outcome_of) all_roots) ;;
  print Blank ;;;
  for_each (fun r => print_forest r package_to_targets outcome_of
                       print_individual_targets expand)
    (sorted package all_roots) ;;;
  percentage <~ lift (overall_percentage outcome_of) ;;
  print Blank ;;;
  print (OverallLine percentage).

(** The main program from the point where the event file is read. *)
Definition main (events : list build_event) (expand : bool) : io unit :=
  outcome_of <~ lift (read_build_event_protocol events) ;;
  report outcome_of expand.

(** ** Sample records *)

(** The records of a configuration, of a successful completion, of a
    failed completion with a message and of a failed completion whose
    [failureDetail] object has no message, used in the examples. *)
Definition configured_event (label : string) : build_event :=
  mkEvent [("targetConfigured", Some label)] false None "{configured}".

Definition succeeded_event (label : string) : build_event :=
  mkEvent [("targetCompleted", Some label)] false
    (Some (mkCompleted (Some true) None "{'success': True}")) "{completed}".

Definition failed_event (label message : string) : build_event :=
  mkEvent [("targetCompleted", Some label)] false
    (Some (mkCompleted None (Some (mkFailureDetail (Some message)))
             "{'failureDetail': ...}"))
    "{completed}".

Definition failed_without_message_event (label : string) : build_event :=
  mkEvent [("targetCompleted", Some label)] false
    (Some (mkCompleted None (Some (mkFailureDetail None))
             "{'failureDetail': {}}"))
    "{completed}".

(** An outcome map with [n] targets of the package [//a], of which the
    first [k] have succeeded and the others have failed. *)
Definition sample_outcomes (k n : nat) : dict outcome :=
  map (fun i => (("//a:t" ++ str_nat i)%string,
                 Some (if i <? k then "success" else "boom")))
    (seq 0 n).

(** ** Vocabulary for the further properties *)

(** The turn [s] registers or completes [label]. *)
Definition touches (label : string) (s : build_event * string) : Prop :=
  configures label s \/ completes label s.

(** [k] is one of the two kinds of key the reader acts on; the record
    has such a key in its [id] object. *)
Definition target_kind (k : string) : bool :=
  String.eqb k "targetConfigured" || String.eqb k "targetCompleted".

Definition target_event (bep_contents : build_event) : bool :=
  existsb target_kind (keys (bep_id bep_contents)).

(** [nested_tree above n]: the tree [n], hanging below the chain of keys
    [above], has the depth of its place and a key that extends every key
    above it, and so have its subtrees. *)
#[warnings="-register-all"]
Inductive nested_tree : list string -> PackageTreeNode -> Prop :=
| nested_node (above : list string) (n : PackageTreeNode) :
    depth n = List.length above ->
    Forall (fun a => startswith (package n) a = true) above ->
    Forall (nested_tree (package n :: above)) (children n) ->
    nested_tree above n.

(** The four counters of [n] are zero, as in a node just created. *)
Definition counters_zero (n : PackageTreeNode) : Prop :=
  package_num_successes n = 0 /\ package_num_targets n = 0 /\
  subtree_num_successes n = 0 /\ subtree_num_targets n = 0.

(** The packages of the package lines of an output, in order. *)
Definition printed_packages (out : list line) : list string :=
  flat_map (fun l => match l with
                     | PackageLine _ package _ _ _ => [package]
                     | _ => []
                     end) out.

(** The printing rule: the line of [n] is printed when its subtree is not
    fully successful, or when [expand] is set. *)
Definition shown (expand : bool) (n : PackageTreeNode) : bool :=
  (subtree_num_successes n <? subtree_num_targets n) || expand.

(** [outcome_of[t]] for a target known to be in [outcome_of]. *)
Definition outcome_at (outcome_of : dict outcome) (t : string) : outcome :=
  match get outcome_of t with
  | Some o => o
  | None => None
  end.

(** * Properties *)

(** ** Induction over trees *)

Section PackageTreeNode_induction.
Variable P : PackageTreeNode -> Prop.
Hypothesis step : forall n, Forall P (children n) -> P n.

Fixpoint PackageTreeNode_ind (n : PackageTreeNode) : P n :=
  step n
    ((fix all (cs : list PackageTreeNode) : Forall P cs :=
        match cs with
        | [] => Forall_nil P
        | c :: rest => Forall_cons c (PackageTreeNode_ind c) (all rest)
        end) (children n)).
End PackageTreeNode_induction.

(** ** Lists, sums and counts *)

Lemma sum_map_le {A} (f g : A -> nat) l :
  Forall (fun x => f x <= g x) l -> sum (map f l) <= sum (map g l).
Proof. induction 1; simpl; lia. Qed.

Lemma sum_map_eq {A} (f g : A -> nat) l :
  Forall (fun x => f x <= g x) l ->
  sum (map f l) = sum (map g l) ->
  Forall (fun x => f x = g x) l.
Proof.
  induction 1 as [|x l Hx Hl IH]; simpl; intros H; [constructor |].
  pose proof (sum_map_le f g l Hl).
  constructor; [lia | apply IH; lia].
Qed.

Lemma sum_map_perm {A} (f : A -> nat) l1 l2 :
  Permutation l1 l2 -> sum (map f l1) = sum (map f l2).
Proof. induction 1; simpl; lia. Qed.

Lemma sum_length_concat {A} (ls : list (list A)) :
  sum (map (@List.length A) ls) = List.length (List.concat ls).
Proof.
  induction ls as [|l ls IH]; simpl; [reflexivity |].
  rewrite length_app, IH. reflexivity.
Qed.

Lemma count_le {A} (p : A -> bool) xs : count p xs <= List.length xs.
Proof. unfold count. apply filter_length_le. Qed.

Lemma count_map {A B} (f : A -> B) (p : B -> bool) xs :
  count p (map f xs) = count (fun x => p (f x)) xs.
Proof.
  unfold count. induction xs as [|x xs IH]; simpl; [reflexivity |].
  destruct (p (f x)); simpl; rewrite IH; reflexivity.
Qed.

Lemma count_app {A} (p : A -> bool) l1 l2 :
  count p (l1 ++ l2) = count p l1 + count p l2.
Proof. unfold count. rewrite filter_app, length_app. reflexivity. Qed.

Lemma sum_count_concat {A} (p : A -> bool) (ls : list (list A)) :
  sum (map (count p) ls) = count p (List.concat ls).
Proof.
  induction ls as [|l ls IH]; simpl; [reflexivity |].
  rewrite count_app, IH. reflexivity.
Qed.

Lemma count_perm {A} (p : A -> bool) l1 l2 :
  Permutation l1 l2 -> count p l1 = count p l2.
Proof.
  unfold count. induction 1; simpl.
  - reflexivity.
  - destruct (p x); simpl; lia.
  - destruct (p x), (p y); simpl; lia.
  - lia.
Qed.

Lemma Forall_flat_map {A B} (P : B -> Prop) (f : A -> list B) l :
  Forall P (flat_map f l) <-> Forall (fun x => Forall P (f x)) l.
Proof.
  induction l as [|x l IH]; simpl.
  - split; constructor.
  - rewrite Forall_app, IH. split.
    + intros [? ?]. constructor; assumption.
    + intros H. inversion H. split; assumption.
Qed.

Lemma ForallOrdPairs_snoc {A} (R : A -> A -> Prop) l x :
  ForallOrdPairs R l -> Forall (fun a => R a x) l ->
  ForallOrdPairs R (l ++ [x]).
Proof.
  induction 1 as [|a l Ha _ IH]; intros Hx; simpl.
  - repeat constructor.
  - inversion Hx; subst. constructor; [| auto].
    apply Forall_app. split; [assumption | repeat constructor; assumption].
Qed.

(** The scan either stops at the first element it accepts, or accepts
    none. *)
Lemma first_match_cases {A} (hit : A -> bool) (enter : A -> A) l :
  (exists pre x post,
      l = pre ++ x :: post /\
      Forall (fun y => hit y = false) pre /\ hit x = true /\
      first_match hit enter l = Some (pre ++ enter x :: post))
  \/
  (Forall (fun y => hit y = false) l /\ first_match hit enter l = None).
Proof.
  induction l as [|y l IH]; simpl.
  - right. split; [constructor | reflexivity].
  - destruct (hit y) eqn:Hy.
    + left. exists [], y, l. repeat split; auto.
    + destruct IH as [(pre & x & post & -> & Hpre & Hx & ->) | [Hall ->]].
      * left. exists (y :: pre), x, post. repeat split; auto.
      * right. split; [constructor; assumption | reflexivity].
Qed.

Lemma string_append_assoc (a b c : string) :
  ((a ++ b) ++ c = a ++ b ++ c)%string.
Proof.
  induction a as [|x a IH]; simpl; [reflexivity | rewrite IH; reflexivity].
Qed.

(** ** The result and printing monads *)

Lemma bind_Ok {A B} (m : result A) (k : A -> result B) b :
  bind m k = Ok b -> exists a, m = Ok a /\ k a = Ok b.
Proof. destruct m; simpl; [eauto | discriminate]. Qed.

Lemma foldM_app {A S} (f : S -> A -> result S) xs ys s :
  foldM f (xs ++ ys) s = bind (foldM f xs s) (foldM f ys).
Proof.
  revert s. induction xs as [|x xs IH]; intros s; simpl; [reflexivity |].
  destruct (f s x); simpl; [apply IH | reflexivity].
Qed.

Lemma mapM_length {A B} (f : A -> result B) xs ys :
  mapM f xs = Ok ys -> List.length ys = List.length xs.
Proof.
  revert ys. induction xs as [|x xs IH]; intros ys; simpl.
  - intros H. injection H as <-. reflexivity.
  - intros H. apply bind_Ok in H. destruct H as (y & _ & H).
    apply bind_Ok in H. destruct H as (ys' & Hys & H).
    injection H as <-. simpl. f_equal. apply IH. exact Hys.
Qed.

Lemma mapM_Forall2 {A B} (f : A -> result B) xs ys :
  mapM f xs = Ok ys -> Forall2 (fun x y => f x = Ok y) xs ys.
Proof.
  revert ys. induction xs as [|x xs IH]; intros ys; simpl.
  - intros H. injection H as <-. constructor.
  - intros H. apply bind_Ok in H. destruct H as (y & Hy & H).
    apply bind_Ok in H. destruct H as (ys' & Hys & H).
    injection H as <-. constructor; auto.
Qed.

Lemma mapM_total {A B} (f : A -> result B) xs :
  Forall (fun x => exists y, f x = Ok y) xs -> exists ys, mapM f xs = Ok ys.
Proof.
  induction 1 as [|x xs [y Hy] _ [ys Hys]]; simpl.
  - eauto.
  - rewrite Hy, Hys. simpl. eauto.
Qed.

Lemma io_bind_Error {A B} (m : io A) (k : A -> io B) out err :
  io_bind m k = (out, Error err) ->
  (exists o, m = (o, Error err)) \/
  (exists o a o', m = (o, Ok a) /\ k a = (o', Error err)).
Proof.
  unfold io_bind. destruct m as [o [a|e]].
  - destruct (k a) as [o' r] eqn:E. intros H. injection H as _ H.
    subst r. right. eauto.
  - intros H. injection H as _ H. subst e. left. eauto.
Qed.

Lemma io_bind_Ok {A B} (m : io A) (k : A -> io B) out b :
  io_bind m k = (out, Ok b) ->
  exists o a o', m = (o, Ok a) /\ k a = (o', Ok b) /\ out = o ++ o'.
Proof.
  unfold io_bind. destruct m as [o [a|e]]; [| discriminate].
  destruct (k a) as [o' r] eqn:E. intros H. injection H as H1 H2.
  subst. eauto 6.
Qed.

Lemma for_each_completes {A} (body : A -> io unit) xs :
  Forall (fun x => exists out, body x = (out, Ok tt)) xs ->
  exists out, for_each body xs = (out, Ok tt).
Proof.
  induction 1 as [|x xs [o Hx] _ [os Hxs]]; simpl.
  - eexists. reflexivity.
  - unfold io_bind. rewrite Hx, Hxs. eexists. reflexivity.
Qed.

(** ** Dictionaries *)

Lemma get_setitem_same {V} (d : dict V) k v : get (setitem d k v) k = Some v.
Proof.
  induction d as [|[k' v'] d IH]; simpl.
  - rewrite String.eqb_refl. reflexivity.
  - destruct (String.eqb k' k) eqn:E; simpl; rewrite E; auto.
Qed.

Lemma get_setitem_other {V} (d : dict V) k k' v :
  k' <> k -> get (setitem d k v) k' = get d k'.
Proof.
  intros Hne. induction d as [|[k0 v0] d IH]; simpl.
  - destruct (String.eqb_spec k k'); [congruence | reflexivity].
  - destruct (String.eqb_spec k0 k) as [-> |]; simpl.
    + destruct (String.eqb_spec k k'); [congruence | reflexivity].
    + destruct (String.eqb k0 k'); auto.
Qed.

Lemma keys_setitem {V} (d : dict V) k v :
  keys (setitem d k v) = if contains d k then keys d else keys d ++ [k].
Proof.
  unfold contains, keys.
  induction d as [|[k' v'] d IH]; simpl; [reflexivity |].
  destruct (String.eqb_spec k' k) as [-> |]; simpl; [reflexivity |].
  rewrite IH. destruct (get d k); reflexivity.
Qed.

Lemma contains_In {V} (d : dict V) k : contains d k = true <-> In k (keys d).
Proof.
  unfold contains, keys.
  induction d as [|[k' v'] d IH]; simpl.
  - split; [discriminate | tauto].
  - destruct (String.eqb_spec k' k) as [-> |].
    + split; auto.
    + rewrite IH. split; [auto | intros [? | ?]; [congruence | auto]].
Qed.

Lemma contains_setitem {V} (d : dict V) k v l :
  contains (setitem d k v) l = true -> l = k \/ contains d l = true.
Proof.
  destruct (string_dec l k) as [-> | Hne]; [auto |].
  unfold contains. rewrite get_setitem_other by exact Hne. auto.
Qed.

Lemma NoDup_keys_setitem {V} (d : dict V) k v :
  NoDup (keys d) -> NoDup (keys (setitem d k v)).
Proof.
  intros H. rewrite keys_setitem.
  destruct (contains d k) eqn:E; [exact H |].
  apply NoDup_app; [exact H | repeat constructor; intros [] |].
  intros x Hx [<- | []]. apply contains_In in Hx. congruence.
Qed.

Lemma values_setitem {V} (P : V -> Prop) (d : dict V) k v :
  Forall P (values d) -> P v -> Forall P (values (setitem d k v)).
Proof.
  intros Hd Hv. unfold values in *.
  induction d as [|[k' v'] d IH]; simpl.
  - repeat constructor. exact Hv.
  - inversion Hd; subst.
    destruct (String.eqb k' k); simpl; constructor; auto.
Qed.

Lemma getdefault_cons_other {V} k k' (v : list V) d :
  k <> k' -> getdefault ((k, v) :: d) k' = getdefault d k'.
Proof.
  intros Hne. unfold getdefault. simpl.
  destruct (String.eqb_spec k k'); [congruence | reflexivity].
Qed.

Lemma getdefault_cons_same {V} k (v : list V) d :
  getdefault ((k, v) :: d) k = v.
Proof. unfold getdefault. simpl. rewrite String.eqb_refl. reflexivity. Qed.

Lemma values_by_key {V} (d : dict (list V)) :
  NoDup (keys d) -> map (getdefault d) (keys d) = values d.
Proof.
  induction d as [|[k v] d IH]; simpl; [reflexivity |].
  intros H. inversion H as [|? ? Hk Hd]; subst.
  rewrite getdefault_cons_same. f_equal.
  rewrite <- (IH Hd). apply map_ext_in.
  intros k' Hk'. apply getdefault_cons_other. intros ->. contradiction.
Qed.

Lemma getdefault_in_values {V} (d : dict (list V)) k x :
  In x (getdefault d k) -> In x (List.concat (values d)).
Proof.
  unfold getdefault.
  induction d as [|[k' v] d IH]; simpl; [tauto |].
  destruct (String.eqb k' k); intros H; apply in_or_app; auto.
Qed.

Lemma getdefault_key {V} (d : dict (list V)) k :
  In k (keys d) -> In (getdefault d k) (values d).
Proof.
  unfold getdefault, keys, values.
  induction d as [|[k' v] d IH]; simpl; [tauto |].
  destruct (String.eqb_spec k' k) as [-> | Hne]; [auto |].
  intros [H | H]; [congruence | right; auto].
Qed.

(** ** The order on keys and sorted *)

Lemma ascii_compare_refl c : Ascii.compare c c = Eq.
Proof. unfold Ascii.compare. apply N.compare_refl. Qed.

Lemma string_compare_refl s : String.compare s s = Eq.
Proof.
  induction s as [|c s IH]; simpl; [reflexivity |].
  rewrite ascii_compare_refl. exact IH.
Qed.

Lemma ltb_irrefl s : String.ltb s s = false.
Proof. unfold String.ltb. rewrite string_compare_refl. reflexivity. Qed.

Lemma ascii_compare_lt_trans x y z :
  Ascii.compare x y = Lt -> Ascii.compare y z = Lt -> Ascii.compare x z = Lt.
Proof.
  unfold Ascii.compare. rewrite !N.compare_lt_iff. apply N.lt_trans.
Qed.

Lemma string_compare_lt_trans a :
  forall b c,
    String.compare a b = Lt -> String.compare b c = Lt ->
    String.compare a c = Lt.
Proof.
  induction a as [|x a IH]; intros [|y b] [|z c]; simpl; try discriminate;
    try reflexivity.
  destruct (Ascii.compare x y) eqn:Exy; try discriminate;
    destruct (Ascii.compare y z) eqn:Eyz; try discriminate; intros H1 H2.
  - apply Ascii.compare_eq_iff in Exy, Eyz. subst.
    rewrite ascii_compare_refl. eapply IH; eassumption.
  - apply Ascii.compare_eq_iff in Exy. subst. rewrite Eyz. reflexivity.
  - apply Ascii.compare_eq_iff in Eyz. subst. rewrite Exy. reflexivity.
  - rewrite (ascii_compare_lt_trans _ _ _ Exy Eyz). reflexivity.
Qed.

Lemma ltb_trans a b c :
  String.ltb a b = true -> String.ltb b c = true -> String.ltb a c = true.
Proof.
  unfold String.ltb.
  destruct (String.compare a b) eqn:E1; try discriminate.
  destruct (String.compare b c) eqn:E2; try discriminate.
  rewrite (string_compare_lt_trans _ _ _ E1 E2). reflexivity.
Qed.

Lemma not_ltb_neq_ltb a b :
  String.ltb b a = false -> a <> b -> String.ltb a b = true.
Proof.
  unfold String.ltb. rewrite (String.compare_antisym a b).
  destruct (String.compare b a) eqn:E; simpl; try reflexivity.
  - apply String.compare_eq_iff in E. congruence.
  - discriminate.
Qed.

(** A key is never below one of its prefixes. *)
Lemma startswith_not_ltb s :
  forall p, startswith s p = true -> String.ltb s p = false.
Proof.
  unfold startswith, String.ltb.
  induction s as [|c s IH]; intros [|d p]; simpl; try reflexivity;
    try discriminate.
  destruct (ascii_dec d c) as [-> | _]; [| discriminate].
  rewrite ascii_compare_refl. apply IH.
Qed.

Lemma ascending_strongly package_lst :
  ascending package_lst ->
  StronglySorted (fun a b => String.ltb a b = true) package_lst.
Proof.
  apply Sorted_StronglySorted. intros a b c. apply ltb_trans.
Qed.

Lemma insert_sorted_perm {A} (key : A -> string) x l :
  Permutation (insert_sorted key x l) (x :: l).
Proof.
  induction l as [|y l IH]; simpl; [reflexivity |].
  destruct (String.ltb (key x) (key y)); [reflexivity |].
  rewrite IH. apply perm_swap.
Qed.

Lemma sorted_perm {A} (key : A -> string) l : Permutation (sorted key l) l.
Proof.
  unfold sorted.
  assert (G : forall acc,
             Permutation (fold_left (fun a x => insert_sorted key x a) l acc)
               (acc ++ l)).
  { induction l as [|x l IH]; intros acc; simpl.
    - rewrite app_nil_r. reflexivity.
    - rewrite IH, insert_sorted_perm. apply Permutation_middle. }
  apply (G []).
Qed.

Lemma insert_sorted_ascending x l :
  ascending l -> ~ In x l -> ascending (insert_sorted (fun k => k) x l).
Proof.
  unfold ascending.
  induction l as [|y l IH]; intros Hs Hx; simpl.
  - repeat constructor.
  - destruct (String.ltb x y) eqn:E.
    + constructor; [exact Hs | constructor; exact E].
    + inversion Hs as [|? ? Hs' Hhd]; subst.
      assert (Hyx : String.ltb y x = true).
      { apply not_ltb_neq_ltb; [exact E |]. intros ->. apply Hx. left.
        reflexivity. }
      constructor.
      * apply IH; [exact Hs' | intros H; apply Hx; right; exact H].
      * destruct l as [|z l]; simpl.
        -- constructor. exact Hyx.
        -- inversion Hhd; subst.
           destruct (String.ltb x z); constructor; assumption.
Qed.

(** Sorting distinct keys gives them in ascending order. *)
Lemma sorted_ascending l :
  NoDup l -> ascending (sorted (fun k => k) l).
Proof.
  unfold sorted.
  assert (G : forall acc,
             ascending acc -> NoDup (acc ++ l) ->
             ascending (fold_left
                          (fun a x => insert_sorted (fun k => k) x a) l acc)).
  { induction l as [|x l IH]; intros acc Ha Hnd; simpl; [exact Ha |].
    apply IH.
    - apply insert_sorted_ascending; [exact Ha |].
      apply NoDup_remove_2 in Hnd. intros H. apply Hnd.
      apply in_or_app. left. exact H.
    - eapply Permutation_NoDup; [| exact Hnd].
      rewrite insert_sorted_perm. symmetry. apply Permutation_middle. }
  intros H. apply G; [constructor | exact H].
Qed.

(** ** Division and the rendering of numbers *)

Lemma truediv_defined a b : b <> 0 -> exists q, truediv a b = Ok q.
Proof. destruct b; [congruence | simpl; eauto]. Qed.

Lemma truediv_value a b :
  b <> 0 ->
  exists q, truediv a b = Ok q /\
            (q == inject_Z (Z.of_nat a) / inject_Z (Z.of_nat b))%Q.
Proof.
  destruct b as [|b]; [congruence |]. intros _.
  exists (Z.of_nat a # Pos.of_nat (S b)). split; [reflexivity |].
  rewrite Qmake_Qdiv. rewrite <- Pos.of_nat_succ, Zpos_P_of_succ_nat.
  rewrite <- Nat2Z.inj_succ. reflexivity.
Qed.

Lemma lt_one_false f : (f == 1)%Q -> lt_one f = false.
Proof.
  intros H. unfold lt_one.
  assert (G : Qle_bool 1 f = true)
    by (apply Qle_bool_iff; rewrite H; apply Qle_refl).
  rewrite G. reflexivity.
Qed.

Lemma digit_is_digit d : (0 <= d < 10)%Z -> is_digit (digit d) = true.
Proof.
  intros H.
  assert (G : exists n, n < 10 /\ Z.to_nat d = n)
    by (exists (Z.to_nat d); split; [lia | reflexivity]).
  destruct G as (n & Hn & E). unfold digit. rewrite E.
  do 10 (destruct n as [|n]; [reflexivity |]). lia.
Qed.

Lemma str_nat_digits n : all_digits (str_nat n) = true.
Proof.
  unfold str_nat. generalize (Nat.to_uint n).
  induction u; simpl; auto.
Qed.

(** *** Rounding *)

Lemma round_half_even_Z q :
  let m := round_half_even q in
  let d := Zpos (Qden q) in
  (2 * m * d - d <= 2 * Qnum q <= 2 * m * d + d)%Z.
Proof.
  cbv zeta. unfold round_half_even.
  pose proof (Z.div_mod (Qnum q) (Zpos (Qden q)) ltac:(lia)) as E.
  pose proof (Z.mod_pos_bound (Qnum q) (Zpos (Qden q)) ltac:(lia)) as B.
  set (d := Zpos (Qden q)) in *. set (fl := (Qnum q / d)%Z) in *.
  set (r := (Qnum q mod d)%Z) in *.
  destruct (Z.ltb_spec (2 * r) d); [nia |].
  destruct (Z.ltb_spec d (2 * r)); [nia |].
  destruct (Z.even fl); nia.
Qed.

Lemma round_half_even_error q :
  (Qabs (inject_Z (round_half_even q) - q) <= 1 # 2)%Q.
Proof.
  pose proof (round_half_even_Z q) as H. cbv zeta in H.
  apply Qabs_Qle_condition.
  destruct q as [n d]. cbn [Qnum Qden] in H.
  unfold Qle, Qminus, Qplus, Qopp, inject_Z. cbn [Qnum Qden].
  split; lia.
Qed.

Lemma round_half_even_nonneg q : (0 <= q)%Q -> (0 <= round_half_even q)%Z.
Proof.
  intros Hq. pose proof (round_half_even_Z q) as H. cbv zeta in H.
  assert (Hn : (0 <= Qnum q)%Z).
  { destruct q as [n d]. unfold Qle in Hq. cbn [Qnum Qden] in *. lia. }
  nia.
Qed.

(** *** Floats *)

Lemma pow2_inject k : (0 <= k)%Z -> (2 ^ k == inject_Z (2 ^ k)%Z)%Q.
Proof. intros H. symmetry. apply (Zpower_Qpower 2 k H). Qed.

Lemma Qdiv_le_cross (x y z w : Z) :
  (0 < y)%Z -> (0 < w)%Z -> (x * w <= z * y)%Z ->
  (inject_Z x / inject_Z y <= inject_Z z / inject_Z w)%Q.
Proof.
  intros Hy Hw H.
  destruct y as [|y|y]; try lia. destruct w as [|w|w]; try lia.
  rewrite <- !Qmake_Qdiv. unfold Qle. cbn [Qnum Qden]. exact H.
Qed.

Lemma Qdiv_lt_cross (x y z w : Z) :
  (0 < y)%Z -> (0 < w)%Z -> (x * w < z * y)%Z ->
  (inject_Z x / inject_Z y < inject_Z z / inject_Z w)%Q.
Proof.
  intros Hy Hw H.
  destruct y as [|y|y]; try lia. destruct w as [|w|w]; try lia.
  rewrite <- !Qmake_Qdiv. unfold Qlt. cbn [Qnum Qden]. exact H.
Qed.

Lemma two_nonzero : ~ (2 == 0)%Q.
Proof. discriminate. Qed.

Lemma floor_log2_spec q :
  (0 < q)%Q ->
  (2 ^ floor_log2 q <= q)%Q /\ (q < 2 ^ (floor_log2 q + 1))%Q.
Proof.
  intros Hq. unfold floor_log2.
  destruct q as [n d]. cbn [Qnum Qden].
  assert (Hn : (0 < n)%Z) by (unfold Qlt in Hq; cbn [Qnum Qden] in Hq; lia).
  pose proof (Z.log2_spec n Hn) as [Ha1 Ha2].
  pose proof (Z.log2_spec (Zpos d) ltac:(lia)) as [Hb1 Hb2].
  pose proof (Z.log2_nonneg n) as Ha.
  pose proof (Z.log2_nonneg (Zpos d)) as Hb.
  set (a := Z.log2 n) in *. set (b := Z.log2 (Zpos d)) in *.
  assert (HA : (0 < 2 ^ a)%Z) by (apply Z.pow_pos_nonneg; lia).
  assert (HB : (0 < 2 ^ b)%Z) by (apply Z.pow_pos_nonneg; lia).
  assert (Eq : (n # d == inject_Z n / inject_Z (Zpos d))%Q)
    by apply Qmake_Qdiv.
  destruct (Qle_bool (2 ^ (a - b)) (n # d)) eqn:T.
  - split; [apply Qle_bool_iff; exact T |].
    replace (a - b + 1)%Z with (Z.succ a - b)%Z by lia.
    rewrite (Qpower_minus 2 _ _ two_nonzero).
    rewrite (pow2_inject (Z.succ a)), (pow2_inject b) by lia.
    rewrite Eq. apply Qdiv_lt_cross; nia.
  - split.
    + replace (a - b - 1)%Z with (a - Z.succ b)%Z by lia.
      rewrite (Qpower_minus 2 _ _ two_nonzero).
      rewrite (pow2_inject a), (pow2_inject (Z.succ b)) by lia.
      rewrite Eq. apply Qdiv_le_cross; nia.
    + replace (a - b - 1 + 1)%Z with (a - b)%Z by lia.
      apply Qnot_le_lt. intros H. apply Qle_bool_iff in H. congruence.
Qed.

Lemma binary64_comp p q : (p == q)%Q -> binary64 p = binary64 q.
Proof.
  intros H. unfold binary64. rewrite (Qred_complete p q H). reflexivity.
Qed.

Lemma binary64_nonpos q : (q <= 0)%Q -> binary64 q = 0%Q.
Proof.
  intros H. unfold binary64.
  assert (G : Qle_bool (Qred q) 0 = true)
    by (apply Qle_bool_iff; rewrite Qred_correct; exact H).
  rewrite G. reflexivity.
Qed.

(** The float of [q > 0] is a multiple [m * ulp] of a power of two with a
    significand [m] of 53 bits, at most half of [ulp] away from [q]. *)
Lemma binary64_spec q :
  (0 < q)%Q ->
  exists (m e : Z),
    let ulp := (2 ^ (e - 52))%Q in
    binary64 q = (inject_Z m * ulp)%Q /\
    (2 ^ e <= q)%Q /\ (q < 2 ^ (e + 1))%Q /\
    (2 ^ 52 <= m <= 2 ^ 53)%Z /\
    (inject_Z m * ulp - ulp * (1 # 2) <= q)%Q /\
    (q <= inject_Z m * ulp + ulp * (1 # 2))%Q.
Proof.
  intros Hq. unfold binary64.
  assert (Hr : (0 < Qred q)%Q) by (rewrite Qred_correct; exact Hq).
  assert (G : Qle_bool (Qred q) 0 = false).
  { destruct (Qle_bool (Qred q) 0) eqn:E; [| reflexivity].
    apply Qle_bool_iff in E. exfalso. apply (Qlt_not_le _ _ Hr E). }
  rewrite G.
  destruct (floor_log2_spec _ Hr) as [Hlo Hhi].
  pose proof (Qred_correct q) as Eqr.
  set (r := Qred q) in *. set (e := floor_log2 r) in *.
  exists (round_half_even (r / 2 ^ (e - 52))), e. cbv zeta.
  rewrite <- !Eqr.
  assert (Hu : (0 < 2 ^ (e - 52))%Q) by (apply Qpower_0_lt; reflexivity).
  set (ulp := (2 ^ (e - 52))%Q) in *.
  assert (He : (2 ^ e == inject_Z (2 ^ 52) * ulp)%Q).
  { unfold ulp. rewrite <- (pow2_inject 52) by lia.
    rewrite <- (Qpower_plus 2 _ _ two_nonzero). f_equiv. lia. }
  assert (He1 : (2 ^ (e + 1) == inject_Z (2 ^ 53) * ulp)%Q).
  { unfold ulp. rewrite <- (pow2_inject 53) by lia.
    rewrite <- (Qpower_plus 2 _ _ two_nonzero). f_equiv. lia. }
  assert (Hs : (r / ulp * ulp == r)%Q).
  { field. intros H. rewrite H in Hu. apply (Qlt_irrefl _ Hu). }
  pose proof (round_half_even_error (r / ulp)) as Herr.
  apply Qabs_Qle_condition in Herr. destruct Herr as [E1 E2].
  set (s := (r / ulp)%Q) in *. set (m := round_half_even s) in *.
  assert (Hs1 : (inject_Z (2 ^ 52) <= s)%Q).
  { apply Qle_shift_div_l; [exact Hu |]. rewrite <- He. exact Hlo. }
  assert (Hs2 : (s < inject_Z (2 ^ 53))%Q).
  { apply Qlt_shift_div_r; [exact Hu |]. rewrite <- He1. exact Hhi. }
  split; [reflexivity |]. split; [exact Hlo |]. split; [exact Hhi |].
  split.
  - assert (B1 : (inject_Z (2 ^ 52) - (1 # 2) <= inject_Z m)%Q) by lra.
    assert (B2 : (inject_Z m < inject_Z (2 ^ 53) + (1 # 2))%Q) by lra.
    unfold Qle, Qminus, Qplus, Qopp, inject_Z in B1. cbn [Qnum Qden] in B1.
    unfold Qlt, Qminus, Qplus, Qopp, inject_Z in B2. cbn [Qnum Qden] in B2.
    lia.
  - rewrite <- Hs.
    assert (M1 : ((inject_Z m - (1 # 2)) * ulp <= s * ulp)%Q)
      by (apply Qmult_le_compat_r; [lra | apply Qlt_le_weak; exact Hu]).
    assert (M2 : (s * ulp <= (inject_Z m + (1 # 2)) * ulp)%Q)
      by (apply Qmult_le_compat_r; [lra | apply Qlt_le_weak; exact Hu]).
    split; [| ].
    + setoid_replace (inject_Z m * ulp - ulp * (1 # 2))%Q
        with ((inject_Z m - (1 # 2)) * ulp)%Q by ring. exact M1.
    + setoid_replace (inject_Z m * ulp + ulp * (1 # 2))%Q
        with ((inject_Z m + (1 # 2)) * ulp)%Q by ring. exact M2.
Qed.

Lemma binary64_nonneg q : (0 <= binary64 q)%Q.
Proof.
  destruct (Qlt_le_dec 0 q) as [Hq | Hq].
  - destruct (binary64_spec q Hq) as (m & e & -> & _ & _ & Hm & _).
    apply Qmult_le_0_compat.
    + unfold Qle, inject_Z. cbn [Qnum Qden]. lia.
    + apply Qpower_0_le. discriminate.
  - rewrite (binary64_nonpos q Hq). apply Qle_refl.
Qed.

(** A float is zero or has a significand of 53 bits. *)
Lemma binary64_representable q :
  binary64 q = 0%Q \/
  exists m e : Z,
    (2 ^ 52 <= m <= 2 ^ 53)%Z /\ binary64 q = (inject_Z m * 2 ^ (e - 52))%Q.
Proof.
  destruct (Qlt_le_dec 0 q) as [Hq | Hq].
  - right. destruct (binary64_spec q Hq) as (m & e & E & _ & _ & Hm & _).
    exists m, e. split; assumption.
  - left. apply binary64_nonpos. exact Hq.
Qed.

(** Rounding to binary64 changes a value by at most 2^-53 of it. *)
Lemma binary64_error q :
  (0 <= q)%Q -> (Qabs (binary64 q - q) <= q * (1 # 2 ^ 53))%Q.
Proof.
  intros H0. apply Qabs_Qle_condition.
  change (1 # 2 ^ 53)%Q with (1 # 9007199254740992)%Q.
  destruct (Qlt_le_dec 0 q) as [Hq | Hq].
  - destruct (binary64_spec q Hq) as (m & e & -> & Hlo & _ & _ & E1 & E2).
    cbv zeta in *.
    assert (He : (2 ^ e == inject_Z (2 ^ 52) * 2 ^ (e - 52))%Q).
    { rewrite <- (pow2_inject 52) by lia.
      rewrite <- (Qpower_plus 2 _ _ two_nonzero). f_equiv. lia. }
    rewrite He in Hlo.
    change (inject_Z (2 ^ 52)) with (4503599627370496 # 1)%Q in Hlo.
    set (ulp := (2 ^ (e - 52))%Q) in *.
    set (b := (inject_Z m * ulp)%Q) in *.
    split; lra.
  - rewrite (binary64_nonpos q Hq). split; lra.
Qed.

(** The float of [fraction * 100] differs from the exact value by at most
    2^-51 of it. *)
Lemma times_100_error q :
  (0 <= q)%Q -> (Qabs (times_100 q - q * 100) <= q * 100 * (1 # 2 ^ 51))%Q.
Proof.
  intros H0. unfold times_100.
  pose proof (binary64_error q H0) as E1.
  pose proof (binary64_nonneg q) as Hb.
  assert (Hb100 : (0 <= binary64 q * 100)%Q) by lra.
  pose proof (binary64_error _ Hb100) as E2.
  apply Qabs_Qle_condition in E1. apply Qabs_Qle_condition in E2.
  apply Qabs_Qle_condition.
  change (1 # 2 ^ 53)%Q with (1 # 9007199254740992)%Q in *.
  change (1 # 2 ^ 51)%Q with (1 # 2251799813685248)%Q.
  set (b := binary64 q) in *. set (v := binary64 (b * 100)) in *.
  split; lra.
Qed.

(** *** Decimal numerals *)

Lemma digits_value_app s1 s2 acc :
  digits_value (s1 ++ s2) acc = digits_value s2 (digits_value s1 acc).
Proof.
  revert acc. induction s1 as [|c s1 IH]; intros acc; simpl; auto.
Qed.

Lemma digits_value_uint d acc :
  digits_value (NilEmpty.string_of_uint d) acc = Nat.of_uint_acc d acc.
Proof.
  revert acc.
  induction d; intros acc; cbn [NilEmpty.string_of_uint Nat.of_uint_acc
                                 digits_value];
    try reflexivity; rewrite IHd, Nat.tail_mul_spec; f_equal;
    cbn [nat_of_ascii]; simpl; lia.
Qed.

Lemma digits_value_str_nat n : digits_value (str_nat n) 0 = n.
Proof.
  unfold str_nat. rewrite digits_value_uint. apply Unsigned.of_to.
Qed.

Lemma digit_value d :
  (0 <= d < 10)%Z -> nat_of_ascii (digit d) - 48 = Z.to_nat d.
Proof.
  intros H.
  assert (G : exists n, n < 10 /\ Z.to_nat d = n)
    by (exists (Z.to_nat d); split; [lia | reflexivity]).
  destruct G as (n & Hn & E). unfold digit. rewrite E.
  do 10 (destruct n as [|n]; [reflexivity |]). lia.
Qed.

(** [format_f 2] writes the hundredth nearest to the value, ties going
    to the even hundredth. *)
Lemma format_f_two_decimals_value x :
  (0 <= x)%Q ->
  exists whole d1 d2,
    format_f 2 x = (whole ++ "." ++ String d1 (String d2 ""))%string /\
    all_digits whole = true /\ is_digit d1 = true /\ is_digit d2 = true /\
    (decimal_value whole (String d1 (String d2 ""))
     == inject_Z (round_half_even (x * 100)) / 100)%Q.
Proof.
  intros Hx. unfold format_f.
  change (inject_Z (10 ^ Z.of_nat 2)) with 100%Q.
  change (10 ^ Z.of_nat 2)%Z with 100%Z.
  pose proof (round_half_even_nonneg (x * 100) ltac:(lra)) as Hs.
  set (scaled := round_half_even (x * 100)) in *.
  exists (str_nat (Z.to_nat (scaled / 100))),
    (digit ((scaled / 10) mod 10)), (digit (scaled mod 10)).
  split; [reflexivity |].
  split; [apply str_nat_digits |].
  split; [apply digit_is_digit; apply Z.mod_pos_bound; lia |].
  split; [apply digit_is_digit; apply Z.mod_pos_bound; lia |].
  unfold decimal_value. rewrite digits_value_app, digits_value_str_nat.
  cbn [digits_value String.length].
  rewrite !digit_value by (apply Z.mod_pos_bound; lia).
  change (inject_Z (10 ^ Z.of_nat 2)) with 100%Q.
  assert (E : Z.of_nat
                (10 * (10 * Z.to_nat (scaled / 100)
                       + Z.to_nat ((scaled / 10) mod 10))
                 + Z.to_nat (scaled mod 10)) = scaled).
  { pose proof (Z.div_pos scaled 100 Hs ltac:(lia)).
    pose proof (Z.mod_pos_bound (scaled / 10) 10 ltac:(lia)).
    pose proof (Z.mod_pos_bound scaled 10 ltac:(lia)).
    Z.div_mod_to_equations. lia. }
  rewrite E. reflexivity.
Qed.

Lemma times_100_comp p q : (p == q)%Q -> times_100 p = times_100 q.
Proof.
  intros H. unfold times_100. rewrite (binary64_comp p q H). reflexivity.
Qed.

(** Two quotients whose exact percentages are ties between two numerals:
    the floats held for them lie below the ties. *)
Example render_overall_tie :
  render (OverallLine ((23 # 160) * 100)) = "Overall build percent: 14.37%".
Proof. reflexivity. Qed.

Example render_package_tie :
  render (PackageLine tee "//a" (23 # 80) 23 80)
  = "├Package //a:all build percentage: 28.7% (23/80)".
Proof. reflexivity. Qed.

(** ** get_package *)

Lemma re_search_package_no_colon target :
  occurs colon target = false -> re_search_package target = None.
Proof.
  induction target as [|c rest IH]; simpl; [reflexivity |].
  destruct (Ascii.eqb c colon); simpl; [discriminate |].
  intros H. rewrite (IH H). destruct (Ascii.eqb c newline); reflexivity.
Qed.

Lemma re_search_package_first_colon target :
  occurs colon target = true ->
  occurs newline (before_first_colon target) = false ->
  re_search_package target = Some (before_first_colon target).
Proof.
  induction target as [|c rest IH]; simpl; [discriminate |].
  destruct (Ascii.eqb c colon); simpl; [reflexivity |].
  destruct (Ascii.eqb c newline); simpl; [discriminate |].
  intros Hc Hn. rewrite (IH Hc Hn). reflexivity.
Qed.

Lemma before_first_colon_split s :
  occurs colon s = true ->
  exists rest,
    s = (before_first_colon s ++ String colon rest)%string /\
    occurs colon (before_first_colon s) = false.
Proof.
  induction s as [|c s IH]; simpl; [discriminate |].
  destruct (Ascii.eqb_spec c colon) as [-> | Hne]; simpl.
  - intros _. exists s. split; reflexivity.
  - intros H. destruct (IH H) as (rest & E & Hno).
    exists rest. split.
    + rewrite <- E. reflexivity.
    + apply Ascii.eqb_neq in Hne. rewrite Hne. exact Hno.
Qed.

(** C8 (amended).  For a label with no line feed ahead of its first colon,
    [get_package] returns the characters that precede the first colon,
    and it raises its parse error exactly when the label has no colon.
    A label without any colon raises the error whatever it contains. *)
Theorem get_package_first_colon (label : string) :
  (occurs colon label = false ->
   get_package label =
   Error (RuntimeError ("Error parsing package for: " ++ label ++ ".")))
  /\
  (occurs newline (before_first_colon label) = false ->
   (occurs colon label = true ->
    exists rest,
      label = (before_first_colon label ++ String colon rest)%string /\
      occurs colon (before_first_colon label) = false /\
      get_package label = Ok (before_first_colon label))
   /\
   (forall e, get_package label = Error e -> occurs colon label = false)).
Proof.
  split; [| intros Hnl; split].
  - intros H. unfold get_package.
    rewrite (re_search_package_no_colon _ H). reflexivity.
  - intros Hc. destruct (before_first_colon_split _ Hc) as (rest & E & Hno).
    exists rest. repeat split; auto.
    unfold get_package.
    rewrite (re_search_package_first_colon _ Hc Hnl). reflexivity.
  - intros e He. destruct (occurs colon label) eqn:Hc; [| reflexivity].
    unfold get_package in He.
    rewrite (re_search_package_first_colon _ Hc Hnl) in He. discriminate.
Qed.

Lemma get_package_first_colon_witness :
  get_package "//a/b:z:w" = Ok "//a/b" /\
  get_package "foo" = Error (RuntimeError "Error parsing package for: foo.").
Proof.
  split.
  - destruct (get_package_first_colon "//a/b:z:w") as [_ H].
    destruct (H eq_refl) as [H1 _].
    destruct (H1 eq_refl) as (rest & _ & _ & E). exact E.
  - destruct (get_package_first_colon "foo") as [H _].
    exact (H eq_refl).
Defined.

(** C8 (as stated) fails: the label made of [a], a line feed and [b:c]
    contains a colon, yet [get_package] raises. *)
Lemma get_package_line_feed_before_colon :
  let label := String "a" (String newline "b:c") in
  occurs colon label = true /\
  get_package label =
  Error (RuntimeError ("Error parsing package for: " ++ label ++ ".")).
Proof. split; reflexivity. Qed.

(** ** read_build_event_protocol *)

Lemma read_from_steps events outcomes :
  read_from outcomes events = foldM handle_step (steps events) outcomes.
Proof.
  unfold read_from, steps.
  revert outcomes. induction events as [|bep events IH]; intros o; simpl.
  - reflexivity.
  - rewrite foldM_app. unfold handle_event at 1.
    assert (E : forall ks o0,
               foldM (handle_key bep) ks o0
               = foldM handle_step (map (pair bep) ks) o0).
    { induction ks as [|k ks IHk]; intros o0; simpl; [reflexivity |].
      unfold handle_step at 1. simpl.
      destruct (handle_key bep o0 k); simpl; auto. }
    rewrite E.
    destruct (foldM handle_step (map (pair bep) (keys (bep_id bep))) o);
      simpl; auto.
Qed.

Lemma handle_key_configured bep outcomes label :
  id_label bep "targetConfigured" = Ok label ->
  handle_key bep outcomes "targetConfigured"
  = Ok (setitem outcomes label None).
Proof. intros H. unfold handle_key. simpl. rewrite H. reflexivity. Qed.

Lemma handle_key_completed bep outcomes label :
  id_label bep "targetCompleted" = Ok label ->
  handle_key bep outcomes "targetCompleted"
  = if contains outcomes label
    then o <- completed_outcome bep ;; Ok (setitem outcomes label o)
    else Error (unseen_target label).
Proof.
  intros H. unfold handle_key. simpl. rewrite H. simpl.
  destruct (contains outcomes label); reflexivity.
Qed.

(** A label found in the outcomes was there at the start or has been
    registered by a "target configured" turn. *)
Lemma registered_by_configured label pre :
  forall outcomes outcomes',
    foldM handle_step pre outcomes = Ok outcomes' ->
    contains outcomes' label = true ->
    contains outcomes label = true \/ Exists (configures label) pre.
Proof.
  induction pre as [|[bep k] pre IH]; intros o o' H Hin; simpl in H.
  - injection H as <-. auto.
  - apply bind_Ok in H. destruct H as (o1 & H1 & H).
    destruct (IH _ _ H Hin) as [Hc | Hex]; [| right; constructor 2; exact Hex].
    unfold handle_step, handle_key in H1. simpl in H1.
    destruct (String.eqb_spec k "targetConfigured") as [-> | _].
    + apply bind_Ok in H1. destruct H1 as (l & Hl & H1). injection H1 as <-.
      apply contains_setitem in Hc. destruct Hc as [-> | Hc]; [| auto].
      right. constructor 1. split; [reflexivity | exact Hl].
    + destruct (String.eqb k "targetCompleted").
      * apply bind_Ok in H1. destruct H1 as (l & Hl & H1).
        destruct (contains o l) eqn:Hol; simpl in H1; [| discriminate].
        apply bind_Ok in H1. destruct H1 as (o2 & _ & H1).
        injection H1 as <-.
        apply contains_setitem in Hc. destruct Hc as [-> | Hc]; auto.
      * injection H1 as <-. auto.
Qed.

(** C3 (amended).  A "target configured" turn for [label] stores the
    pending outcome for [label] whether or not the label is already
    present: a new label is appended as pending, a registered label is
    reset to pending in place, and no other label is touched. *)
Theorem configured_sets_pending (bep_contents : build_event)
  (outcomes : dict outcome) (label : string) :
  id_label bep_contents "targetConfigured" = Ok label ->
  exists outcomes',
    handle_key bep_contents outcomes "targetConfigured" = Ok outcomes' /\
    get outcomes' label = Some None /\
    (forall other, other <> label -> get outcomes' other = get outcomes other)
    /\
    keys outcomes' =
    if contains outcomes label then keys outcomes else keys outcomes ++ [label].
Proof.
  intros H. exists (setitem outcomes label None).
  split; [apply handle_key_configured; exact H |].
  split; [apply get_setitem_same |].
  split; [intros other Hne; apply get_setitem_other; exact Hne |].
  apply keys_setitem.
Qed.

Lemma configured_sets_pending_witness :
  exists outcomes',
    handle_key (configured_event "//a:x") [("//a:x", Some "success")]
      "targetConfigured" = Ok outcomes' /\
    get outcomes' "//a:x" = Some None.
Proof.
  destruct (configured_sets_pending (configured_event "//a:x")
              [("//a:x", Some "success")] "//a:x" eq_refl)
    as (o & H1 & H2 & _).
  exists o. split; assumption.
Defined.

(** C3 (as stated) fails: a target that is configured, completes with
    success and is configured again ends up pending, not successful. *)
Lemma configured_again_resets_outcome :
  read_build_event_protocol
    [configured_event "//a:x"; succeeded_event "//a:x"]
  = Ok [("//a:x", Some "success")] /\
  read_build_event_protocol
    [configured_event "//a:x"; succeeded_event "//a:x";
     configured_event "//a:x"]
  = Ok [("//a:x", None)].
Proof. split; reflexivity. Qed.

(** The three ways a turn can go through. *)
Lemma handle_step_cases outcomes bep k outcomes' :
  handle_step outcomes (bep, k) = Ok outcomes' ->
  (k = "targetConfigured" /\
   exists label, id_label bep "targetConfigured" = Ok label /\
                 outcomes' = setitem outcomes label None) \/
  (k = "targetCompleted" /\
   exists label o, id_label bep "targetCompleted" = Ok label /\
                   contains outcomes label = true /\
                   completed_outcome bep = Ok o /\
                   outcomes' = setitem outcomes label o) \/
  (target_kind k = false /\ outcomes' = outcomes).
Proof.
  unfold handle_step, handle_key, target_kind. simpl.
  destruct (String.eqb_spec k "targetConfigured") as [-> | _].
  - intros H. apply bind_Ok in H. destruct H as (l & Hl & H).
    injection H as <-. left. eauto.
  - destruct (String.eqb_spec k "targetCompleted") as [-> | _].
    + intros H. apply bind_Ok in H. destruct H as (l & Hl & H).
      destruct (contains outcomes l) eqn:E; simpl in H; [| discriminate].
      apply bind_Ok in H. destruct H as (o & Ho & H).
      injection H as <-. right. left. eauto 8.
    + intros H. injection H as <-. right. right. auto.
Qed.

Lemma contains_setitem_same {V} (d : dict V) k v :
  contains (setitem d k v) k = true.
Proof. unfold contains. rewrite get_setitem_same. reflexivity. Qed.

Lemma contains_setitem_keeps {V} (d : dict V) k v l :
  contains d l = true -> contains (setitem d k v) l = true.
Proof.
  intros H. destruct (string_dec l k) as [-> | Hne].
  - apply contains_setitem_same.
  - unfold contains in *. rewrite get_setitem_other by exact Hne. exact H.
Qed.

(** A label stays in the outcomes once it is there. *)
Lemma handle_steps_keep label l :
  forall outcomes outcomes',
    foldM handle_step l outcomes = Ok outcomes' ->
    contains outcomes label = true -> contains outcomes' label = true.
Proof.
  induction l as [|[bep k] l IH]; intros o o' H Hc; simpl in H.
  - injection H as <-. exact Hc.
  - apply bind_Ok in H. destruct H as (o1 & H1 & H).
    apply (IH _ _ H).
    destruct (handle_step_cases _ _ _ _ H1)
      as [(_ & lb & _ & ->) | [(_ & lb & ob & _ & _ & _ & ->) | (_ & ->)]];
      try apply contains_setitem_keeps; exact Hc.
Qed.

Lemma configured_registers label l :
  forall outcomes outcomes',
    foldM handle_step l outcomes = Ok outcomes' ->
    Exists (configures label) l -> contains outcomes' label = true.
Proof.
  induction l as [|[bep k] l IH]; intros o o' H Hex; simpl in H.
  - inversion Hex.
  - apply bind_Ok in H. destruct H as (o1 & H1 & H).
    inversion Hex as [? ? [Hk Hl] | ? ? Hex']; subst.
    + simpl in Hk, Hl. subst k.
      apply (handle_steps_keep _ _ _ _ H).
      unfold handle_step in H1. simpl in H1.
      rewrite (handle_key_configured _ _ _ Hl) in H1. injection H1 as <-.
      apply contains_setitem_same.
    + apply (IH _ _ H Hex').
Qed.

(** The exceptions of a "target completed" turn other than the "haven't
    seen this target" error are [KeyError]s. *)
Lemma id_label_error bep kind e :
  id_label bep kind = Error e -> exists k, e = KeyError k.
Proof.
  unfold id_label, getitem.
  destruct (get (bep_id bep) kind) as [[label|]|]; simpl; intros H;
    try discriminate H; injection H as <-; eauto.
Qed.

Lemma completed_outcome_error bep e :
  completed_outcome bep = Error e -> e = KeyError "message".
Proof.
  unfold completed_outcome.
  destruct (bep_aborted bep); [discriminate |].
  destruct (bep_completed bep) as [c|]; [| discriminate].
  destruct (success c) as [[|]|];
    try discriminate;
    (destruct (failureDetail c) as [detail|]; [| discriminate];
     destruct (message detail); [discriminate |];
     intros H; injection H as <-; reflexivity).
Qed.

(** When the turns raise the "haven't seen this target" error for
    [label], they do so at a "target completed" turn for [label] reached
    with [label] absent from the outcomes. *)
Lemma unseen_target_raised label l :
  forall outcomes,
    foldM handle_step l outcomes = Error (unseen_target label) ->
    exists pre s post outcomes',
      l = pre ++ s :: post /\
      foldM handle_step pre outcomes = Ok outcomes' /\
      completes label s /\ contains outcomes' label = false.
Proof.
  induction l as [|[bep k] l IH]; intros o H; simpl in H; [discriminate |].
  destruct (handle_step o (bep, k)) as [o1|e] eqn:E; simpl in H.
  - destruct (IH _ H) as (pre & s & post & o' & -> & Hpre & Hs & Hc).
    exists ((bep, k) :: pre), s, post, o'. simpl. rewrite E. simpl. auto.
  - injection H as ->. exists [], (bep, k), l, o. simpl.
    split; [reflexivity |]. split; [reflexivity |].
    unfold handle_step, handle_key in E. simpl in E.
    destruct (String.eqb_spec k "targetConfigured") as [-> | _].
    + destruct (id_label bep "targetConfigured") as [lb|e] eqn:El;
        simpl in E; [discriminate |].
      destruct (id_label_error _ _ _ El) as [key ->]. discriminate.
    + destruct (String.eqb_spec k "targetCompleted") as [-> | _];
        [| discriminate].
      destruct (id_label bep "targetCompleted") as [lb|e] eqn:El; simpl in E.
      * destruct (contains o lb) eqn:Hc; simpl in E.
        -- destruct (completed_outcome bep) as [ob|e] eqn:Eo; simpl in E;
             [discriminate |].
           rewrite (completed_outcome_error _ _ Eo) in E. discriminate.
        -- injection E as ->. repeat split; assumption.
      * destruct (id_label_error _ _ _ El) as [key ->]. discriminate.
Qed.

(** C7.  A "target completed" turn for a label that is not in the
    outcomes raises the "haven't seen this target" error.  One for a
    label that is there never raises that error: it stores the outcome
    resolved from the record, or raises [KeyError] when the record has a
    [failureDetail] object without [message].  Over a whole event file:
    when a "target completed" turn for [label] is reached with no earlier
    "target configured" turn for it, reading fails, and it fails with
    that error as soon as the turns before it went through; and reading
    fails with that error for [label] only at such a turn. *)
Theorem completed_before_configured_raises :
  (forall bep_contents outcomes label,
      id_label bep_contents "targetCompleted" = Ok label ->
      (contains outcomes label = false ->
       handle_key bep_contents outcomes "targetCompleted"
       = Error (unseen_target label)) /\
      (contains outcomes label = true ->
       (forall other,
           handle_key bep_contents outcomes "targetCompleted"
           <> Error (unseen_target other)) /\
       (forall o,
           completed_outcome bep_contents = Ok o ->
           handle_key bep_contents outcomes "targetCompleted"
           = Ok (setitem outcomes label o)) /\
       (forall e,
           completed_outcome bep_contents = Error e ->
           e = KeyError "message" /\
           handle_key bep_contents outcomes "targetCompleted"
           = Error (KeyError "message"))))
  /\
  (forall events pre s post label,
      steps events = pre ++ s :: post ->
      completes label s ->
      ~ Exists (configures label) pre ->
      (exists e, read_build_event_protocol events = Error e) /\
      (forall outcomes,
          foldM handle_step pre [] = Ok outcomes ->
          read_build_event_protocol events = Error (unseen_target label)))
  /\
  (forall events label,
      read_build_event_protocol events = Error (unseen_target label) ->
      exists pre s post,
        steps events = pre ++ s :: post /\
        completes label s /\
        ~ Exists (configures label) pre).
Proof.
  split; [| split].
  - intros bep o label H.
    rewrite (handle_key_completed _ _ _ H).
    split; [intros ->; reflexivity |].
    intros ->. split; [| split].
    + intros other. destruct (completed_outcome bep) as [ob|e] eqn:Eo; simpl.
      * discriminate.
      * rewrite (completed_outcome_error _ _ Eo). discriminate.
    + intros ob ->. reflexivity.
    + intros e He. pose proof (completed_outcome_error _ _ He) as ->.
      rewrite He. split; reflexivity.
  - intros events pre [bep k] post label Hsteps [Hk Hl] Hnot.
    simpl in Hk, Hl. subst k.
    assert (G : forall o, foldM handle_step pre [] = Ok o ->
                          read_build_event_protocol events
                          = Error (unseen_target label)).
    { intros o Ho. unfold read_build_event_protocol.
      rewrite read_from_steps, Hsteps, foldM_app, Ho. simpl.
      unfold handle_step at 1. simpl.
      rewrite (handle_key_completed _ _ _ Hl).
      destruct (contains o label) eqn:Hc; [| reflexivity].
      destruct (registered_by_configured _ _ _ _ Ho Hc) as [Habs | Habs].
      - discriminate.
      - contradiction. }
    split; [| exact G].
    destruct (foldM handle_step pre []) as [o|e] eqn:Ho.
    + eexists. apply (G o). reflexivity.
    + exists e. unfold read_build_event_protocol.
      rewrite read_from_steps, Hsteps, foldM_app, Ho. reflexivity.
  - intros events label H. unfold read_build_event_protocol in H.
    rewrite read_from_steps in H.
    destruct (unseen_target_raised _ _ _ H)
      as (pre & s & post & o' & Hl & Hpre & Hs & Hc).
    exists pre, s, post. split; [exact Hl |]. split; [exact Hs |].
    intros Hex. rewrite (configured_registers _ _ _ _ Hpre Hex) in Hc.
    discriminate Hc.
Qed.

Lemma completed_before_configured_raises_witness :
  read_build_event_protocol
    [configured_event "//a:x"; succeeded_event "//b:y"]
  = Error (unseen_target "//b:y") /\
  handle_key (failed_event "//a:x" "boom") [("//a:x", None)] "targetCompleted"
  = Ok [("//a:x", Some "boom")] /\
  handle_key (failed_without_message_event "//a:x") [("//a:x", None)]
    "targetCompleted"
  = Error (KeyError "message").
Proof.
  destruct completed_before_configured_raises as (H1 & H2 & _).
  split; [| split].
  - destruct (H2 [configured_event "//a:x"; succeeded_event "//b:y"]
                [(configured_event "//a:x", "targetConfigured")]
                (succeeded_event "//b:y", "targetCompleted") [] "//b:y"
                eq_refl (conj eq_refl eq_refl)) as [_ G].
    + intros Hex. inversion Hex as [? ? [_ Hl] | ? ? Hex']; subst.
      * discriminate Hl.
      * inversion Hex'.
    + apply (G [("//a:x", None)]). reflexivity.
  - destruct (H1 (failed_event "//a:x" "boom") [("//a:x", None)] "//a:x"
                eq_refl) as [_ G].
    destruct (G eq_refl) as (_ & G2 & _).
    apply (G2 (Some "boom")). reflexivity.
  - destruct (H1 (failed_without_message_event "//a:x") [("//a:x", None)]
                "//a:x" eq_refl) as [_ G].
    destruct (G eq_refl) as (_ & _ & G3).
    apply (G3 (KeyError "message")). reflexivity.
Defined.

(** A completed record whose [failureDetail] object has no [message]
    makes reading fail with the [KeyError] of line 147. *)
Example read_failure_without_message :
  read_build_event_protocol
    [configured_event "//a:x"; failed_without_message_event "//a:x"]
  = Error (KeyError "message").
Proof. reflexivity. Qed.

Lemma no_configured_no_outcomes events outcomes :
  (forall s, In s (steps events) -> snd s <> "targetConfigured") ->
  read_build_event_protocol events = Ok outcomes ->
  outcomes = [].
Proof.
  intros Hno H. unfold read_build_event_protocol in H.
  rewrite read_from_steps in H.
  destruct outcomes as [|[label o] rest]; [reflexivity | exfalso].
  destruct (registered_by_configured label _ _ _ H) as [Hc | Hex].
  - unfold contains. simpl. rewrite String.eqb_refl. reflexivity.
  - discriminate Hc.
  - apply Exists_exists in Hex. destruct Hex as (s & Hs & Hk & _).
    exact (Hno s Hs Hk).
Qed.

(** ** The package forest *)

Lemma nodes_eq n : nodes n = n :: flat_map nodes (children n).
Proof. destruct n. reflexivity. Qed.

Lemma forest_nodes_cons n queue :
  forest_nodes (n :: queue)
  = n :: forest_nodes (children n) ++ forest_nodes queue.
Proof. unfold forest_nodes. simpl. rewrite nodes_eq. reflexivity. Qed.

Lemma forest_nodes_app q1 q2 :
  forest_nodes (q1 ++ q2) = forest_nodes q1 ++ forest_nodes q2.
Proof. unfold forest_nodes. apply flat_map_app. Qed.

Lemma forest_nodes_perm q1 q2 :
  Permutation q1 q2 -> Permutation (forest_nodes q1) (forest_nodes q2).
Proof.
  unfold forest_nodes. induction 1; simpl.
  - reflexivity.
  - apply Permutation_app_head. assumption.
  - rewrite !app_assoc. apply Permutation_app_tail, Permutation_app_comm.
  - etransitivity; eassumption.
Qed.

Lemma insert_node_into_tree_eq root node :
  insert_node_into_tree root node =
  match first_match
          (fun child => startswith (package node) (package child))
          (fun child => insert_node_into_tree child node)
          (children root) with
  | Some children' => set_children root children'
  | None =>
      set_children root (children root ++ [set_depth node (depth root + 1)])
  end.
Proof. destruct root. reflexivity. Qed.

Lemma insert_node_into_tree_package root node :
  package (insert_node_into_tree root node) = package root.
Proof.
  rewrite insert_node_into_tree_eq.
  destruct (first_match _ _ _); reflexivity.
Qed.

Lemma insert_node_into_tree_depth root node :
  depth (insert_node_into_tree root node) = depth root.
Proof.
  rewrite insert_node_into_tree_eq.
  destruct (first_match _ _ _); reflexivity.
Qed.

(** A new key that no sibling accepts, and that is above every sibling
    key, is unrelated to all of them. *)
Lemma new_sibling_unrelated k d siblings :
  Forall (fun c => startswith k (package c) = false) siblings ->
  Forall (fun c => String.ltb (package c) k = true) siblings ->
  siblings_unrelated siblings ->
  siblings_unrelated (siblings ++ [set_depth (new_node k 0) d]).
Proof.
  intros Hhit Hlt Hun.
  unfold siblings_unrelated in *. rewrite map_app. simpl.
  apply ForallOrdPairs_snoc; [exact Hun |].
  apply Forall_map, Forall_forall. rewrite Forall_forall in Hhit, Hlt.
  intros c Hc. split.
  - destruct (startswith (package c) k) eqn:E; [| reflexivity].
    apply startswith_not_ltb in E. rewrite (Hlt c Hc) in E. discriminate.
  - apply (Hhit c Hc).
Qed.

Lemma below_not_in k above :
  Forall (fun a => String.ltb a k = true) above -> ~ In k above.
Proof.
  rewrite Forall_forall. intros H Hin. specialize (H k Hin).
  rewrite ltb_irrefl in H. discriminate.
Qed.

Lemma valid_new_node k d above :
  d = List.length above ->
  Forall (fun a => startswith k a = true) above ->
  Forall (fun a => String.ltb a k = true) above ->
  valid_tree above (set_depth (new_node k 0) d).
Proof.
  intros Hd Hpre Hlt. constructor; simpl.
  - exact Hd.
  - exact Hpre.
  - apply below_not_in. exact Hlt.
  - constructor.
  - constructor.
Qed.

Lemma keys_below_children k n :
  Forall (fun key => String.ltb key k = true) (map package (nodes n)) ->
  String.ltb (package n) k = true /\
  Forall (fun c => Forall (fun key => String.ltb key k = true)
                     (map package (nodes c))) (children n).
Proof.
  rewrite nodes_eq. simpl. intros H. inversion H as [|? ? H1 H2]; subst.
  split; [exact H1 |].
  apply Forall_map in H2. apply Forall_flat_map in H2.
  eapply Forall_impl; [| exact H2]. intros c Hc. apply Forall_map. exact Hc.
Qed.

Lemma keys_below_head k n :
  Forall (fun key => String.ltb key k = true) (map package (nodes n)) ->
  String.ltb (package n) k = true.
Proof. intros H. apply (keys_below_children k n H). Qed.

(** Inserting a key that extends the key of [root] and every key above
    it, and that is above every key present, keeps the tree valid. *)
Lemma insert_node_into_tree_valid k root :
  forall above,
    valid_tree above root ->
    startswith k (package root) = true ->
    Forall (fun a => startswith k a = true) above ->
    Forall (fun a => String.ltb a k = true) above ->
    Forall (fun key => String.ltb key k = true) (map package (nodes root)) ->
    valid_tree above (insert_node_into_tree root (new_node k 0)).
Proof.
  induction root as [root IH] using PackageTreeNode_ind.
  intros above Hv Hs Hpre Hlt Hkeys.
  inversion Hv as [? ? Hd Hp Hni Hun Hcs]; subst.
  destruct (keys_below_children _ _ Hkeys) as [Hroot Hsub].
  rewrite insert_node_into_tree_eq. simpl (package (new_node k 0)).
  destruct (first_match_cases
              (fun child => startswith k (package child))
              (fun child => insert_node_into_tree child (new_node k 0))
              (children root))
    as [(pre & x & post & Hch & _ & Hx & ->) | [Hall ->]].
  - constructor; simpl; try assumption.
    + unfold siblings_unrelated in *. rewrite Hch in Hun.
      rewrite map_app in *. simpl in *.
      rewrite insert_node_into_tree_package. exact Hun.
    + rewrite Hch in Hcs, IH, Hsub.
      apply Forall_app in Hcs. destruct Hcs as [Hcs1 Hcs2].
      apply Forall_app in IH. destruct IH as [_ IH2].
      apply Forall_app in Hsub. destruct Hsub as [_ Hsub2].
      inversion Hcs2; inversion IH2; inversion Hsub2; subst.
      apply Forall_app. split; [assumption |].
      constructor; [| assumption].
      match goal with H : forall above, _ |- _ => apply H end;
        try assumption; constructor; assumption.
  - constructor; simpl; try assumption.
    + apply new_sibling_unrelated; try assumption.
      eapply Forall_impl; [| exact Hsub]. intros c. apply keys_below_head.
    + apply Forall_app. split; [assumption |].
      constructor; [| constructor].
      apply valid_new_node; [simpl; lia | |]; constructor; assumption.
Qed.

Lemma insert_node_into_forest_valid k roots :
  valid_forest roots ->
  Forall (fun key => String.ltb key k = true)
    (map package (forest_nodes roots)) ->
  valid_forest (insert_node_into_forest roots (new_node k 0)).
Proof.
  intros [Hv Hun] Hkeys. unfold insert_node_into_forest.
  simpl (package (new_node k 0)).
  assert (Hsub : Forall (fun r => Forall (fun key => String.ltb key k = true)
                                    (map package (nodes r))) roots).
  { unfold forest_nodes in Hkeys. apply Forall_map in Hkeys.
    apply Forall_flat_map in Hkeys.
    eapply Forall_impl; [| exact Hkeys]. intros r Hr. apply Forall_map.
    exact Hr. }
  destruct (first_match_cases
              (fun root => startswith k (package root))
              (fun root => insert_node_into_tree root (new_node k 0))
              roots)
    as [(pre & x & post & -> & _ & Hx & ->) | [Hall ->]].
  - split.
    + apply Forall_app in Hv. destruct Hv as [Hv1 Hv2].
      apply Forall_app in Hsub. destruct Hsub as [_ Hsub2].
      inversion Hv2; inversion Hsub2; subst.
      apply Forall_app. split; [assumption |].
      constructor; [| assumption].
      apply insert_node_into_tree_valid; try assumption; constructor.
    + unfold siblings_unrelated in *. rewrite map_app in *. simpl in *.
      rewrite insert_node_into_tree_package. exact Hun.
  - split.
    + apply Forall_app. split; [assumption |].
      constructor; [| constructor].
      apply valid_new_node; [reflexivity | |]; constructor.
    + apply new_sibling_unrelated; try assumption.
      eapply Forall_impl; [| exact Hsub]. intros c. apply keys_below_head.
Qed.

(** Insertion adds the new key to the keys of the tree. *)
Lemma insert_node_into_tree_keys k root :
  Permutation
    (map package (nodes (insert_node_into_tree root (new_node k 0))))
    (k :: map package (nodes root)).
Proof.
  induction root as [root IH] using PackageTreeNode_ind.
  rewrite insert_node_into_tree_eq. simpl (package (new_node k 0)).
  rewrite (nodes_eq root).
  destruct (first_match_cases
              (fun child => startswith k (package child))
              (fun child => insert_node_into_tree child (new_node k 0))
              (children root))
    as [(pre & x & post & Hch & _ & _ & ->) | [_ ->]].
  - rewrite nodes_eq, Hch in *. simpl.
    apply Forall_app in IH. destruct IH as [_ IH]. inversion IH; subst.
    rewrite !flat_map_app. simpl. rewrite !map_app.
    match goal with H : Permutation _ _ |- _ => rewrite H end.
    rewrite perm_swap. apply perm_skip.
    simpl. symmetry. apply Permutation_middle.
  - rewrite nodes_eq. simpl. rewrite flat_map_app, map_app. simpl.
    rewrite perm_swap. apply perm_skip.
    symmetry. apply Permutation_cons_append.
Qed.

Lemma insert_node_into_forest_keys k roots :
  Permutation
    (map package (forest_nodes (insert_node_into_forest roots (new_node k 0))))
    (k :: map package (forest_nodes roots)).
Proof.
  unfold insert_node_into_forest, forest_nodes.
  simpl (package (new_node k 0)).
  destruct (first_match_cases
              (fun root => startswith k (package root))
              (fun root => insert_node_into_tree root (new_node k 0))
              roots)
    as [(pre & x & post & -> & _ & _ & ->) | [_ ->]].
  - rewrite !flat_map_app. simpl. rewrite !map_app.
    rewrite insert_node_into_tree_keys. simpl.
    symmetry. apply Permutation_middle.
  - rewrite flat_map_app, map_app. simpl.
    symmetry. apply Permutation_cons_append.
Qed.

(** The forest has one node per key, whatever the order of the keys. *)
Lemma build_package_forest_keys package_lst :
  Permutation (map package (forest_nodes (build_package_forest package_lst)))
    package_lst.
Proof.
  unfold build_package_forest.
  assert (G : forall roots,
             Permutation
               (map package
                  (forest_nodes
                     (fold_left
                        (fun result package =>
                           insert_node_into_forest result (new_node package 0))
                        package_lst roots)))
               (map package (forest_nodes roots) ++ package_lst)).
  { induction package_lst as [|k l IH]; intros roots; simpl.
    - rewrite app_nil_r. reflexivity.
    - rewrite IH, insert_node_into_forest_keys. simpl.
      apply Permutation_middle. }
  apply (G []).
Qed.

(** The loop of [build_package_forest], from a valid forest whose keys are
    below all the keys still to come. *)
Lemma build_from_valid package_lst :
  forall roots,
    StronglySorted (fun a b => String.ltb a b = true) package_lst ->
    Forall (fun key => Forall (fun k => String.ltb key k = true) package_lst)
      (map package (forest_nodes roots)) ->
    valid_forest roots ->
    let forest :=
      fold_left
        (fun result package =>
           insert_node_into_forest result (new_node package 0))
        package_lst roots in
    valid_forest forest /\
    Permutation (map package (forest_nodes forest))
      (map package (forest_nodes roots) ++ package_lst).
Proof.
  induction package_lst as [|k l IH]; intros roots Hs Hkeys Hv; simpl.
  - rewrite app_nil_r. split; [exact Hv | reflexivity].
  - inversion Hs as [|? ? Hs' Hk]; subst.
    destruct (IH (insert_node_into_forest roots (new_node k 0)) Hs')
      as [G1 G2].
    + eapply Permutation_Forall;
        [symmetry; apply insert_node_into_forest_keys |].
      constructor; [exact Hk |].
      eapply Forall_impl; [| exact Hkeys].
      intros key H. inversion H; assumption.
    + apply insert_node_into_forest_valid; [exact Hv |].
      eapply Forall_impl; [| exact Hkeys].
      intros key H. inversion H; assumption.
    + split; [exact G1 |].
      rewrite G2, insert_node_into_forest_keys. simpl.
      apply Permutation_middle.
Qed.

Lemma with_ancestors_eq above n :
  with_ancestors above n
  = (above, n) :: flat_map (with_ancestors (n :: above)) (children n).
Proof. destruct n. reflexivity. Qed.

(** The enumeration with ancestors lists exactly the nodes. *)
Lemma with_ancestors_nodes n :
  forall above, map snd (with_ancestors above n) = nodes n.
Proof.
  induction n as [n IH] using PackageTreeNode_ind. intros above.
  rewrite with_ancestors_eq, nodes_eq. simpl. f_equal.
  induction (children n) as [|c cs IHcs]; simpl; [reflexivity |].
  inversion IH; subst. rewrite map_app. f_equal; auto.
Qed.

Lemma forest_with_ancestors_nodes roots :
  map snd (forest_with_ancestors roots) = forest_nodes roots.
Proof.
  unfold forest_with_ancestors, forest_nodes.
  induction roots as [|r rs IH]; simpl; [reflexivity |].
  rewrite map_app, with_ancestors_nodes, IH. reflexivity.
Qed.

Lemma siblings_no_prefix_pair siblings :
  siblings_unrelated siblings -> no_prefix_pair siblings.
Proof.
  unfold siblings_unrelated, no_prefix_pair.
  induction siblings as [|s siblings IH]; intros H i j a b Hij Ha Hb.
  - destruct i; discriminate Ha.
  - simpl in H. inversion H as [|? ? Hs Hrest]; subst.
    rewrite Forall_map, Forall_forall in Hs.
    destruct i as [|i], j as [|j]; simpl in Ha, Hb.
    + congruence.
    + injection Ha as <-. apply nth_error_In in Hb. apply (Hs b Hb).
    + injection Hb as <-. apply nth_error_In in Ha. apply (Hs a Ha).
    + apply (IH Hrest i j); auto.
Qed.

(** What validity says of every node, read off the enumeration. *)
Lemma valid_with_ancestors n :
  forall above,
    valid_tree (map package above) n ->
    forall ancestors m,
      In (ancestors, m) (with_ancestors above n) ->
      depth m = List.length ancestors /\
      Forall (fun a => startswith (package m) (package a) = true) ancestors /\
      ~ In (package m) (map package ancestors) /\
      siblings_unrelated (children m).
Proof.
  induction n as [n IH] using PackageTreeNode_ind.
  intros above Hv ancestors m Hin.
  inversion Hv as [? ? Hd Hp Hni Hun Hcs]; subst.
  rewrite with_ancestors_eq in Hin. destruct Hin as [Heq | Hin].
  - injection Heq as <- <-. rewrite length_map in Hd.
    rewrite Forall_map in Hp. auto.
  - apply in_flat_map in Hin. destruct Hin as (c & Hc & Hin).
    rewrite Forall_forall in IH, Hcs.
    apply (IH c Hc (n :: above)); [apply (Hcs c Hc) | exact Hin].
Qed.

(** C5.  For keys given in ascending order without repetition, the forest
    built has one node per key; no node has its own key among those of
    its ancestors; the depth of a node is the length of its chain of
    ancestors; the key of a node that has a parent starts with the key of
    the parent (and of every ancestor); and no two siblings, children of
    one node or roots, have keys in a prefix relation. *)
Theorem build_package_forest_valid (package_lst : list string) :
  ascending package_lst ->
  let forest := build_package_forest package_lst in
  Permutation (map package (forest_nodes forest)) package_lst /\
  map snd (forest_with_ancestors forest) = forest_nodes forest /\
  (forall ancestors n,
      In (ancestors, n) (forest_with_ancestors forest) ->
      ~ In (package n) (map package ancestors) /\
      depth n = List.length ancestors /\
      (forall parent rest,
          ancestors = parent :: rest ->
          startswith (package n) (package parent) = true) /\
      Forall (fun a => startswith (package n) (package a) = true) ancestors /\
      no_prefix_pair (children n)) /\
  no_prefix_pair forest.
Proof.
  intros Hasc forest.
  assert (G : valid_forest forest /\
              Permutation (map package (forest_nodes forest)) package_lst).
  { apply (build_from_valid package_lst []).
    - apply ascending_strongly. exact Hasc.
    - constructor.
    - split; constructor. }
  clearbody forest. destruct G as [[Hv Hun] Hperm].
  split; [exact Hperm |]. split; [| split].
  - apply forest_with_ancestors_nodes.
  - intros ancestors n Hin. unfold forest_with_ancestors in Hin.
    apply in_flat_map in Hin. destruct Hin as (r & Hr & Hin).
    rewrite Forall_forall in Hv.
    destruct (valid_with_ancestors r [] (Hv r Hr) _ _ Hin)
      as (Hd & Hp & Hni & Hsib).
    repeat split; try assumption.
    + intros parent rest ->. inversion Hp; assumption.
    + apply siblings_no_prefix_pair. exact Hsib.
  - apply siblings_no_prefix_pair. exact Hun.
Qed.

Lemma build_package_forest_valid_witness :
  no_prefix_pair (build_package_forest ["//a"; "//a/b"; "//ab"; "//b"]) /\
  Permutation
    (map package
       (forest_nodes (build_package_forest ["//a"; "//a/b"; "//ab"; "//b"])))
    ["//a"; "//a/b"; "//ab"; "//b"].
Proof.
  assert (H : ascending ["//a"; "//a/b"; "//ab"; "//b"]).
  { repeat constructor. }
  destruct (build_package_forest_valid _ H) as (H1 & _ & _ & H2).
  split; assumption.
Defined.

(** ** compute_counts *)

Lemma compute_counts_eq node ttp oo :
  compute_counts node ttp oo =
  (children' <- mapM (fun n => compute_counts n ttp oo) (children node) ;;
   flags <- mapM (fun t => o <- getitem oo t ;; Ok (is_success o))
              (getdefault ttp (package node)) ;;
   Ok (mkNode (package node) (depth node) children'
         (count (fun b : bool => b) flags)
         (List.length (getdefault ttp (package node)))
         (sum (map subtree_num_successes children')
          + count (fun b : bool => b) flags)
         (sum (map subtree_num_targets children')
          + List.length (getdefault ttp (package node))))).
Proof. destruct node. reflexivity. Qed.

Lemma success_flags oo targets flags :
  mapM (fun t => o <- getitem oo t ;; Ok (is_success o)) targets = Ok flags ->
  flags = map (success_of oo) targets /\
  Forall (fun t => contains oo t = true) targets.
Proof.
  intros H. apply mapM_Forall2 in H.
  induction H as [|t b targets flags Ht _ [IH1 IH2]]; [split; constructor |].
  unfold getitem in Ht.
  destruct (get oo t) as [o|] eqn:E; simpl in Ht; [| discriminate].
  injection Ht as <-. subst flags. split.
  - simpl. f_equal. unfold success_of. rewrite E. reflexivity.
  - constructor; [unfold contains; rewrite E; reflexivity | assumption].
Qed.

Lemma success_flags_total oo targets :
  Forall (fun t => contains oo t = true) targets ->
  exists flags,
    mapM (fun t => o <- getitem oo t ;; Ok (is_success o)) targets = Ok flags.
Proof.
  intros H. apply mapM_total.
  eapply Forall_impl; [| exact H]. simpl.
  intros t Ht. unfold contains, getitem in *.
  destruct (get oo t); [eexists; reflexivity | discriminate].
Qed.

(** What one call assigns to the node it is called on. *)
Lemma compute_counts_node node ttp oo node' :
  compute_counts node ttp oo = Ok node' ->
  package node' = package node /\
  depth node' = depth node /\
  mapM (fun n => compute_counts n ttp oo) (children node)
  = Ok (children node') /\
  Forall (fun t => contains oo t = true) (getdefault ttp (package node)) /\
  node_counted ttp oo node'.
Proof.
  rewrite compute_counts_eq. intros H.
  apply bind_Ok in H. destruct H as (cs & Hcs & H).
  apply bind_Ok in H. destruct H as (flags & Hflags & H).
  injection H as <-. apply success_flags in Hflags.
  destruct Hflags as [-> Hknown].
  unfold node_counted. simpl.
  rewrite count_map. repeat split; auto.
Qed.

(** Every node of the tree returned carries the assigned counters, and
    the tree has the packages of the tree given, in the same places. *)
Lemma compute_counts_nodes ttp oo node :
  forall node',
    compute_counts node ttp oo = Ok node' ->
    Forall (node_counted ttp oo) (nodes node') /\
    map package (nodes node') = map package (nodes node).
Proof.
  induction node as [node IH] using PackageTreeNode_ind.
  intros node' H. apply compute_counts_node in H.
  destruct H as (Hp & _ & Hcs & _ & Hn).
  rewrite (nodes_eq node'), (nodes_eq node). simpl.
  apply mapM_Forall2 in Hcs.
  assert (G : Forall (node_counted ttp oo) (flat_map nodes (children node'))
              /\ map package (flat_map nodes (children node'))
                 = map package (flat_map nodes (children node))).
  { induction Hcs as [|c c' cs cs' Hc _ IHcs]; [split; constructor |].
    inversion IH as [|? ? IHc IHrest]; subst.
    destruct (IHc _ Hc) as [G1 G2]. destruct (IHcs IHrest) as [G3 G4].
    simpl. rewrite !map_app, G2, G4.
    split; [apply Forall_app; split; assumption | reflexivity]. }
  destruct G as [G1 G2].
  split; [constructor; assumption | rewrite Hp, G2; reflexivity].
Qed.

Lemma counted_success_le ttp oo n :
  Forall (node_counted ttp oo) (nodes n) ->
  subtree_num_successes n <= subtree_num_targets n.
Proof.
  induction n as [n IH] using PackageTreeNode_ind.
  rewrite nodes_eq. intros H. inversion H as [|? ? Hn Hcs]; subst.
  destruct Hn as (Ht & Hs & Hst & Hss).
  rewrite Hst, Hss, Ht, Hs.
  apply Forall_flat_map in Hcs.
  assert (G : sum (map subtree_num_successes (children n))
              <= sum (map subtree_num_targets (children n))).
  { apply sum_map_le. rewrite Forall_forall in *.
    intros c Hc. apply (IH c Hc). apply (Hcs c Hc). }
  pose proof (count_le (success_of oo) (getdefault ttp (package n))). lia.
Qed.

Lemma counted_consistent ttp oo n :
  Forall (node_counted ttp oo) (nodes n) ->
  Forall counts_consistent (nodes n).
Proof.
  induction n as [n IH] using PackageTreeNode_ind.
  intros H. pose proof (counted_success_le _ _ _ H) as Hle.
  rewrite nodes_eq in *. inversion H as [|? ? Hn Hcs]; subst.
  constructor.
  - destruct Hn as (_ & _ & Hst & Hss). unfold counts_consistent. lia.
  - apply Forall_flat_map. apply Forall_flat_map in Hcs.
    rewrite Forall_forall in *. intros c Hc. apply (IH c Hc), (Hcs c Hc).
Qed.

(** [compute_counts] returns as soon as every target listed for a
    package of the tree has an outcome. *)
Lemma compute_counts_total ttp oo node :
  (forall n t, In n (nodes node) -> In t (getdefault ttp (package n)) ->
               contains oo t = true) ->
  exists node', compute_counts node ttp oo = Ok node'.
Proof.
  induction node as [node IH] using PackageTreeNode_ind.
  intros Hknown. rewrite compute_counts_eq.
  destruct (mapM_total (fun n => compute_counts n ttp oo) (children node))
    as [cs Hcs].
  { rewrite Forall_forall in *. intros c Hc. apply (IH c Hc).
    intros n t Hn Ht. apply (Hknown n t); [| exact Ht].
    rewrite nodes_eq. right. apply in_flat_map. eauto. }
  rewrite Hcs. simpl.
  destruct (success_flags_total oo (getdefault ttp (package node)))
    as [flags Hflags].
  { apply Forall_forall. intros t Ht. apply (Hknown node t); [| exact Ht].
    rewrite nodes_eq. left. reflexivity. }
  rewrite Hflags. simpl. eauto.
Qed.

Lemma forest_counted ttp oo roots roots' :
  mapM (fun r => compute_counts r ttp oo) roots = Ok roots' ->
  Forall (node_counted ttp oo) (forest_nodes roots') /\
  map package (forest_nodes roots') = map package (forest_nodes roots) /\
  map package roots' = map package roots.
Proof.
  intros H. apply mapM_Forall2 in H. unfold forest_nodes.
  induction H as [|r r' rs rs' Hr _ (IH1 & IH2 & IH3)].
  - repeat split; constructor.
  - destruct (compute_counts_nodes _ _ _ _ Hr) as [G1 G2].
    apply compute_counts_node in Hr. destruct Hr as (Hp & _).
    simpl. rewrite !map_app, G2, IH2, IH3, Hp.
    repeat split. apply Forall_app. split; assumption.
Qed.

Lemma forest_counts_total ttp oo roots :
  (forall n t, In n (forest_nodes roots) ->
               In t (getdefault ttp (package n)) ->
               contains oo t = true) ->
  exists roots', mapM (fun r => compute_counts r ttp oo) roots = Ok roots'.
Proof.
  intros Hknown. apply mapM_total. apply Forall_forall.
  intros r Hr. apply compute_counts_total.
  intros n t Hn Ht. apply (Hknown n t); [| exact Ht].
  unfold forest_nodes. apply in_flat_map. eauto.
Qed.

(** C6.  After aggregation every node of the forest carries the counts
    of its package: its direct target count is the number of targets
    listed for the package, and its direct success count the number of
    those whose outcome is [success].  It satisfies the two aggregation
    identities, and its subtree success count is at most its subtree
    target count.  The aggregated forest has the packages of the forest
    given, in the same places, and the aggregation returns whenever every
    target listed for a package of the forest has an outcome. *)
Theorem compute_counts_aggregates (roots : list PackageTreeNode)
  (targets_from_package : dict (list string)) (outcomes : dict outcome) :
  (forall roots',
      mapM (fun r => compute_counts r targets_from_package outcomes) roots
      = Ok roots' ->
      map package (forest_nodes roots') = map package (forest_nodes roots) /\
      Forall (fun n =>
                (package_num_targets n
                 = List.length
                     (getdefault targets_from_package (package n)) /\
                 package_num_successes n
                 = count (success_of outcomes)
                     (getdefault targets_from_package (package n))) /\
                counts_consistent n)
        (forest_nodes roots'))
  /\
  ((forall n t,
       In n (forest_nodes roots) ->
       In t (getdefault targets_from_package (package n)) ->
       contains outcomes t = true) ->
   exists roots',
     mapM (fun r => compute_counts r targets_from_package outcomes) roots
     = Ok roots').
Proof.
  split.
  - intros roots' H.
    destruct (forest_counted _ _ _ _ H) as (Hc & Hp & _).
    split; [exact Hp |].
    apply Forall_and.
    + eapply Forall_impl; [| exact Hc].
      intros n (Ht & Hs & _). split; assumption.
    + apply mapM_Forall2 in H. unfold forest_nodes.
      apply Forall_flat_map.
      induction H as [|r r' rs rs' Hr _ IH]; constructor.
      * apply (counted_consistent targets_from_package outcomes).
        apply (compute_counts_nodes _ _ _ _ Hr).
      * apply IH.
        -- unfold forest_nodes in Hc. simpl in Hc.
           apply Forall_app in Hc. apply Hc.
        -- unfold forest_nodes in Hp. simpl in Hp. rewrite !map_app in Hp.
           apply (compute_counts_nodes _ _ _ _) in Hr. destruct Hr as [_ Hr].
           rewrite Hr in Hp. apply app_inv_head in Hp. exact Hp.
  - apply forest_counts_total.
Qed.

Lemma compute_counts_aggregates_witness :
  let targets_from_package :=
    [("//a", ["//a:x"]); ("//a/b", ["//a/b:y"; "//a/b:z"]);
     ("//a/c", ["//a/c:w"])] in
  let outcomes :=
    [("//a:x", Some "success"); ("//a/b:y", Some "success");
     ("//a/b:z", Some "boom"); ("//a/c:w", None)] in
  exists roots',
    mapM (fun r => compute_counts r targets_from_package outcomes)
      (build_package_forest ["//a"; "//a/b"; "//a/c"])
    = Ok roots' /\
    roots' = [mkNode "//a" 0
                [mkNode "//a/b" 1 [] 1 2 1 2; mkNode "//a/c" 1 [] 0 1 0 1]
                1 1 2 4] /\
    Forall (fun n =>
              (package_num_targets n
               = List.length (getdefault targets_from_package (package n)) /\
               package_num_successes n
               = count (success_of outcomes)
                   (getdefault targets_from_package (package n))) /\
              counts_consistent n)
      (forest_nodes roots').
Proof.
  intros targets_from_package outcomes.
  destruct (compute_counts_aggregates
              (build_package_forest ["//a"; "//a/b"; "//a/c"])
              targets_from_package outcomes) as [H1 H2].
  destruct H2 as [roots' E].
  - intros n t Hn Ht. cbv in Hn.
    destruct Hn as [<- | [<- | [<- | []]]]; cbv in Ht;
      repeat (destruct Ht as [<- | Ht]; [reflexivity |]); destruct Ht.
  - exists roots'. split; [exact E |].
    split; [| exact (proj2 (H1 roots' E))].
    cbv in E. injection E as <-. reflexivity.
Defined.

(** When every package of the forest owns a target, the aggregated direct
    target counts are positive and the subtree counts dominate the direct
    ones. *)
Lemma counted_positive roots roots' ttp oo :
  (forall n, In n (forest_nodes roots) -> getdefault ttp (package n) <> []) ->
  mapM (fun r => compute_counts r ttp oo) roots = Ok roots' ->
  Forall (fun n =>
            1 <= package_num_targets n /\
            package_num_targets n <= subtree_num_targets n /\
            package_num_successes n <= subtree_num_successes n)
    (forest_nodes roots').
Proof.
  intros Hown H. apply forest_counted in H. destruct H as (Hc & Hp & _).
  apply Forall_forall. intros n Hn.
  assert (Hk : In (package n) (map package (forest_nodes roots)))
    by (rewrite <- Hp; apply in_map; exact Hn).
  apply in_map_iff in Hk. destruct Hk as (n0 & Hpk & Hn0).
  specialize (Hown n0 Hn0). rewrite Hpk in Hown.
  rewrite Forall_forall in Hc. destruct (Hc n Hn) as (Ht & Hs & Hst & Hss).
  destruct (getdefault ttp (package n)) eqn:E; [congruence |].
  simpl in Ht. lia.
Qed.

(** In an aggregated tree whose subtree success count equals its subtree
    target count, every node of the tree has equal subtree counts: below
    a node that the printing rule skips, the rule would skip every
    node. *)
Lemma fully_successful_subtree ttp oo n :
  Forall (node_counted ttp oo) (nodes n) ->
  subtree_num_successes n = subtree_num_targets n ->
  Forall (fun m => subtree_num_successes m = subtree_num_targets m)
    (nodes n).
Proof.
  induction n as [n IH] using PackageTreeNode_ind.
  intros Hc Heq. rewrite nodes_eq in *.
  inversion Hc as [|? ? Hn Hcs]; subst.
  constructor; [exact Heq |].
  apply Forall_flat_map in Hcs. apply Forall_flat_map.
  destruct Hn as (Ht & Hs & Hst & Hss).
  assert (Hle : Forall (fun c => subtree_num_successes c
                                 <= subtree_num_targets c) (children n)).
  { eapply Forall_impl; [| exact Hcs].
    intros c. apply counted_success_le. }
  pose proof (sum_map_le _ _ _ Hle) as Hsum.
  pose proof (count_le (success_of oo) (getdefault ttp (package n))) as Hcnt.
  assert (Hall : Forall (fun c => subtree_num_successes c
                                  = subtree_num_targets c) (children n)).
  { apply sum_map_eq; [exact Hle | lia]. }
  rewrite Forall_forall in *. intros c Hin.
  apply (IH c Hin); [apply (Hcs c Hin) | apply (Hall c Hin)].
Qed.

(** A subtree counter that adds a direct counter to the subtree counters
    of the children is the sum of the direct counter over the subtree. *)
Lemma subtree_sum (direct subtree : PackageTreeNode -> nat) n :
  Forall (fun m => subtree m = sum (map subtree (children m)) + direct m)
    (nodes n) ->
  subtree n = sum (map direct (nodes n)).
Proof.
  induction n as [n IH] using PackageTreeNode_ind.
  rewrite nodes_eq. intros H. inversion H as [|? ? Hn Hcs]; subst.
  rewrite Hn. simpl. apply Forall_flat_map in Hcs.
  assert (G : sum (map subtree (children n))
              = sum (map direct (flat_map nodes (children n)))).
  { revert IH Hcs. generalize (children n). intros cs IH Hcs.
    induction cs as [|c cs IHcs]; simpl; [reflexivity |].
    inversion IH; inversion Hcs; subst.
    rewrite map_app, sum_app. f_equal; auto. }
  lia.
Qed.

Lemma forest_sum (direct subtree : PackageTreeNode -> nat) roots :
  Forall (fun m => subtree m = sum (map subtree (children m)) + direct m)
    (forest_nodes roots) ->
  sum (map subtree roots) = sum (map direct (forest_nodes roots)).
Proof.
  unfold forest_nodes. intros H. apply Forall_flat_map in H.
  induction H as [|r rs Hr _ IH]; simpl; [reflexivity |].
  rewrite map_app, sum_app, <- IH, (subtree_sum direct subtree r Hr).
  reflexivity.
Qed.

(** ** print_forest *)

Lemma print_queue_cons ptt oo pit e node queue :
  print_queue ptt oo pit e (node :: queue) =
  match visit node ptt oo pit e queue with
  | (out, Ok queue') =>
      let (out', r) := print_queue ptt oo pit e queue' in (out ++ out', r)
  | (out, Error err) => (out, Error err)
  end.
Proof.
  simp print_queue.
  destruct (Logic.inspect (visit node ptt oo pit e queue))
    as [[out [q|err]] E]; simp print_queue; rewrite E; reflexivity.
Qed.

(** Induction along the turns of the loop. *)
Lemma print_queue_turns ptt oo pit e
  (P : list PackageTreeNode -> io unit -> Prop) :
  P [] (io_ret tt) ->
  (forall node queue out err,
      visit node ptt oo pit e queue = (out, Error err) ->
      P (node :: queue) (out, Error err)) ->
  (forall node queue out queue' out' r,
      visit node ptt oo pit e queue = (out, Ok queue') ->
      print_queue ptt oo pit e queue' = (out', r) ->
      P queue' (out', r) ->
      P (node :: queue) (out ++ out', r)) ->
  forall queue, P queue (print_queue ptt oo pit e queue).
Proof.
  intros Hnil Herr Hok queue.
  remember (queue_size queue) as m eqn:Hm.
  revert queue Hm. induction m as [m IH] using lt_wf_ind. intros queue Hm.
  destruct queue as [|node queue]; [simp print_queue; exact Hnil |].
  rewrite print_queue_cons.
  destruct (visit node ptt oo pit e queue) as [out [queue'|err]] eqn:E.
  - pose proof (visit_decreases _ _ _ _ _ _ _ _ E) as Hlt.
    specialize (IH (queue_size queue') ltac:(lia) queue' eq_refl).
    destruct (print_queue ptt oo pit e queue') as [out' r] eqn:E'.
    eapply Hok; eauto.
  - apply Herr. exact E.
Qed.

Lemma print_target_error indentation oo e t out err :
  print_target indentation oo e t = (out, Error err) ->
  exists k, err = KeyError k.
Proof.
  unfold print_target. intros H. apply io_bind_Error in H.
  destruct H as [(o & H) | (o & a & o' & _ & H)].
  - unfold lift, getitem in H. destruct (get oo t); [discriminate |].
    injection H as _ <-. eauto.
  - destruct (is_success a && e || negb (is_success a)); discriminate H.
Qed.

Lemma for_each_print_target_error indentation oo e ts out err :
  for_each (print_target indentation oo e) ts = (out, Error err) ->
  exists k, err = KeyError k.
Proof.
  revert out. induction ts as [|t ts IH]; intros out; simpl.
  - discriminate.
  - intros H. apply io_bind_Error in H.
    destruct H as [(o & H) | (o & a & o' & _ & H)].
    + eapply print_target_error. exact H.
    + eapply IH. exact H.
Qed.

(** A turn on a node whose divisors are non-zero can only raise a
    [KeyError]. *)
Lemma visit_error node ptt oo pit e queue out err :
  has_targets node ->
  visit node ptt oo pit e queue = (out, Error err) ->
  exists k, err = KeyError k.
Proof.
  intros [Hp Hs]. unfold visit.
  destruct (truediv_defined (subtree_num_successes node) _ Hs) as [f ->].
  destruct (truediv_defined (package_num_successes node) _ Hp) as [g ->].
  intros H. apply io_bind_Error in H.
  destruct H as [(o & H) | (o & a & o' & _ & H)]; [discriminate H |].
  destruct (lt_one a || e); [| discriminate H].
  apply io_bind_Error in H.
  destruct H as [(o1 & H) | (o1 & a1 & o1' & _ & H)]; [discriminate H |].
  apply io_bind_Error in H.
  destruct H as [(o2 & H) | (o2 & a2 & o2' & _ & H)]; [discriminate H |].
  apply io_bind_Error in H.
  destruct H as [(o3 & H) | (o3 & a3 & o3' & _ & H)]; [| discriminate H].
  destruct (e && pit); [| discriminate H].
  eapply for_each_print_target_error. exact H.
Qed.

(** The nodes waiting after a turn were waiting before it. *)
Lemma visit_keeps (P : PackageTreeNode -> Prop) node ptt oo pit e queue
  out queue' :
  visit node ptt oo pit e queue = (out, Ok queue') ->
  Forall P (forest_nodes (node :: queue)) ->
  Forall P (forest_nodes queue').
Proof.
  intros H HP. apply visit_queue in H.
  rewrite forest_nodes_cons in HP. inversion HP as [|? ? _ HP']; subst.
  apply Forall_app in HP'. destruct HP' as [Hc Hq].
  destruct H as [-> | ->]; [exact Hq |].
  rewrite forest_nodes_app. apply Forall_app. split; [| exact Hq].
  eapply Permutation_Forall; [| exact Hc].
  apply forest_nodes_perm. symmetry. apply sorted_perm.
Qed.

Lemma print_queue_no_zero_division ptt oo pit e queue :
  Forall has_targets (forest_nodes queue) ->
  snd (print_queue ptt oo pit e queue) <> Error ZeroDivisionError.
Proof.
  apply (print_queue_turns ptt oo pit e
           (fun queue res => Forall has_targets (forest_nodes queue) ->
                             snd res <> Error ZeroDivisionError)).
  - intros _. discriminate.
  - intros node q out err Hv Hall. simpl.
    rewrite forest_nodes_cons in Hall. inversion Hall; subst.
    destruct (visit_error _ _ _ _ _ _ _ _ ltac:(eassumption) Hv) as [k ->].
    discriminate.
  - intros node q out q' out' r Hv _ IH Hall. simpl in *.
    apply IH. eapply visit_keeps; eassumption.
Qed.

(** C9.  When every package of the forest owns at least one target, every
    aggregated node has a direct target count of at least 1 and subtree
    counts no smaller than its direct counts, both of its success
    fractions are defined, and [print_forest] never raises
    [ZeroDivisionError] on a root of the forest. *)
Theorem counts_positive_no_zero_division (roots roots' : list PackageTreeNode)
  (targets_from_package : dict (list string)) (outcomes : dict outcome) :
  (forall n, In n (forest_nodes roots) ->
             getdefault targets_from_package (package n) <> []) ->
  mapM (fun r => compute_counts r targets_from_package outcomes) roots
  = Ok roots' ->
  Forall (fun n =>
            1 <= package_num_targets n /\
            package_num_targets n <= subtree_num_targets n /\
            package_num_successes n <= subtree_num_successes n /\
            (exists f, truediv (package_num_successes n)
                         (package_num_targets n) = Ok f) /\
            (exists f, truediv (subtree_num_successes n)
                         (subtree_num_targets n) = Ok f))
    (forest_nodes roots')
  /\
  (forall r package_to_target outcome_of print_individual_targets expand,
      In r roots' ->
      snd (print_forest r package_to_target outcome_of
             print_individual_targets expand)
      <> Error ZeroDivisionError).
Proof.
  intros Hown H. pose proof (counted_positive _ _ _ _ Hown H) as G.
  split.
  - eapply Forall_impl; [| exact G]. simpl.
    intros n (H1 & H2 & H3). repeat split; try assumption.
    + apply truediv_defined. lia.
    + apply truediv_defined. lia.
  - intros r ptt oo pit e Hr. unfold print_forest.
    apply print_queue_no_zero_division.
    rewrite Forall_forall in *. intros n Hn.
    assert (Hn' : In n (forest_nodes roots')).
    { unfold forest_nodes in *. simpl in Hn. rewrite app_nil_r in Hn.
      apply in_flat_map. eauto. }
    destruct (G n Hn') as (H1 & H2 & _). unfold has_targets. lia.
Qed.

Lemma counts_positive_no_zero_division_witness :
  snd (print_forest (mkNode "//a" 0 [] 1 2 1 2)
         [("//a", ["//a:x"; "//a:y"])]
         [("//a:x", Some "success"); ("//a:y", None)] true false)
  <> Error ZeroDivisionError.
Proof.
  refine (proj2 (counts_positive_no_zero_division
                   [new_node "//a" 0] [mkNode "//a" 0 [] 1 2 1 2]
                   [("//a", ["//a:x"; "//a:y"])]
                   [("//a:x", Some "success"); ("//a:y", None)] _ _)
            _ _ _ _ _ _).
  - intros n [<- | []]. discriminate.
  - reflexivity.
  - left. reflexivity.
Defined.

Lemma print_target_completes indentation oo e t :
  contains oo t = true ->
  exists out, print_target indentation oo e t = (out, Ok tt).
Proof.
  unfold contains, print_target, getitem, lift, io_bind, print, io_ret.
  destruct (get oo t) as [o|]; [| discriminate]. intros _.
  destruct (is_success o && e || negb (is_success o));
    eexists; reflexivity.
Qed.

Lemma visit_completes node ptt oo pit e queue :
  has_targets node -> targets_known ptt oo node ->
  exists out queue', visit node ptt oo pit e queue = (out, Ok queue').
Proof.
  intros [Hp Hs] Hk. unfold visit.
  destruct (truediv_defined (subtree_num_successes node) _ Hs) as [f ->].
  destruct (truediv_defined (package_num_successes node) _ Hp) as [g ->].
  unfold lift, io_bind at 1.
  destruct (lt_one f || e); [| eexists; eexists; reflexivity].
  assert (G : exists out,
             (if e && pit
              then for_each (print_target (bars (depth node) ++ tee) oo e)
                     (getdefault ptt (package node))
              else io_ret tt) = (out, Ok tt)).
  { destruct (e && pit); [| eexists; reflexivity].
    apply for_each_completes.
    eapply Forall_impl; [| exact Hk].
    intros t Ht. apply print_target_completes. exact Ht. }
  destruct G as [o ->]. eexists. eexists. reflexivity.
Qed.

Lemma print_queue_completes ptt oo pit e queue :
  Forall (fun n => has_targets n /\ targets_known ptt oo n)
    (forest_nodes queue) ->
  exists out, print_queue ptt oo pit e queue = (out, Ok tt).
Proof.
  apply (print_queue_turns ptt oo pit e
           (fun queue res =>
              Forall (fun n => has_targets n /\ targets_known ptt oo n)
                (forest_nodes queue) ->
              exists out, res = (out, Ok tt))).
  - intros _. eexists. reflexivity.
  - intros node q out err Hv Hall.
    rewrite forest_nodes_cons in Hall. inversion Hall as [|? ? [H1 H2] _].
    destruct (visit_completes node ptt oo pit e q H1 H2) as (o & q' & E).
    congruence.
  - intros node q out q' out' r Hv _ IH Hall.
    destruct IH as [o E]; [eapply visit_keeps; eassumption |].
    injection E as -> ->. eexists. reflexivity.
Qed.

Lemma print_target_expand indentation oo t :
  contains oo t = true ->
  print_target indentation oo true t
  = ([TargetLine indentation t (outcome_at oo t)], Ok tt).
Proof.
  unfold contains, print_target, outcome_at, getitem, lift, io_bind, print.
  destruct (get oo t) as [o|]; [| discriminate]. intros _.
  rewrite andb_true_r, orb_negb_r. reflexivity.
Qed.

Lemma for_each_print_target_expand indentation oo ts :
  Forall (fun t => contains oo t = true) ts ->
  for_each (print_target indentation oo true) ts
  = (map (fun t => TargetLine indentation t (outcome_at oo t)) ts, Ok tt).
Proof.
  induction 1 as [|t ts Ht _ IH]; simpl; [reflexivity |].
  unfold io_bind. rewrite (print_target_expand _ _ _ Ht), IH. reflexivity.
Qed.

Lemma print_target_missing indentation oo e t :
  contains oo t = false ->
  print_target indentation oo e t = ([], Error (KeyError t)).
Proof.
  unfold contains, print_target, getitem, lift, io_bind.
  destruct (get oo t); [discriminate | reflexivity].
Qed.

(** C2 (amended).  On a node whose subtree success fraction equals 1:
    with [expand] false the turn prints nothing and leaves the queue as it
    was, so the children are not traversed and [print_forest] prints
    nothing for the whole subtree.  With [expand] true and a direct
    target count of zero the turn raises [ZeroDivisionError] before it
    prints anything.  With [expand] true and a non-zero direct target
    count the output of [print_forest] starts with the line of the node;
    outside single-package mode the turn prints nothing else and puts the
    sorted children at the front of the queue; in single-package mode it
    then prints one line for every target of the package and puts the
    sorted children at the front of the queue, unless a target has no
    outcome, in which case the lines of the targets before it are printed
    and its [KeyError] is raised. *)
Theorem fully_successful_node (node : PackageTreeNode)
  (package_to_target : dict (list string)) (outcome_of : dict outcome)
  (print_individual_targets : bool) (queue : list PackageTreeNode) (f : Q) :
  truediv (subtree_num_successes node) (subtree_num_targets node) = Ok f ->
  (f == 1)%Q ->
  let indentation := (bars (depth node) ++ tee)%string in
  let target_line t := TargetLine indentation t (outcome_at outcome_of t) in
  (visit node package_to_target outcome_of print_individual_targets false
     queue
   = ([], Ok queue) /\
   print_forest node package_to_target outcome_of print_individual_targets
     false
   = ([], Ok tt)) /\
  (package_num_targets node = 0 ->
   visit node package_to_target outcome_of print_individual_targets true queue
   = ([], Error ZeroDivisionError)) /\
  (package_num_targets node <> 0 ->
   exists g,
     truediv (package_num_successes node) (package_num_targets node) = Ok g /\
     let package_line :=
       PackageLine indentation (package node) g
         (package_num_successes node) (package_num_targets node) in
     (exists rest r,
         print_forest node package_to_target outcome_of
           print_individual_targets true
         = (package_line :: rest, r)) /\
     visit node package_to_target outcome_of false true queue
     = ([package_line], Ok (sorted package (children node) ++ queue)) /\
     (targets_known package_to_target outcome_of node ->
      visit node package_to_target outcome_of true true queue
      = (package_line
         :: map target_line (getdefault package_to_target (package node)),
         Ok (sorted package (children node) ++ queue))) /\
     (forall known t rest,
         getdefault package_to_target (package node) = known ++ t :: rest ->
         Forall (fun t => contains outcome_of t = true) known ->
         contains outcome_of t = false ->
         visit node package_to_target outcome_of true true queue
         = (package_line :: map target_line known, Error (KeyError t)))).
Proof.
  intros Hf H1 indentation target_line.
  assert (Hv : forall q,
             visit node package_to_target outcome_of print_individual_targets
               false q = ([], Ok q)).
  { intros q. unfold visit. rewrite Hf. simpl.
    rewrite (lt_one_false _ H1). reflexivity. }
  split; [split |]; [apply Hv | | split].
  - unfold print_forest. rewrite print_queue_cons, Hv.
    simp print_queue. reflexivity.
  - intros Hz. unfold visit. rewrite Hf, Hz. simpl.
    rewrite orb_true_r. reflexivity.
  - intros Hp.
    destruct (truediv_defined (package_num_successes node) _ Hp) as [g Hg].
    exists g. split; [exact Hg |]. simpl. split; [| split; [| split]].
    + unfold print_forest. rewrite print_queue_cons.
      unfold visit. rewrite Hf, Hg. simpl. rewrite orb_true_r.
      destruct (if print_individual_targets then _ else _) as [o [[]|e]];
        simpl; [| eexists; eexists; reflexivity].
      destruct (print_queue _ _ _ _ _) as [out' r'].
      eexists. eexists. reflexivity.
    + unfold visit. rewrite Hf, Hg. simpl. rewrite orb_true_r. reflexivity.
    + intros Hk. unfold visit. rewrite Hf, Hg.
      unfold lift, io_bind at 1. rewrite orb_true_r.
      fold indentation. simpl andb. cbv iota.
      rewrite (for_each_print_target_expand indentation _ _ Hk).
      unfold io_bind, print, io_ret. simpl. rewrite ?app_nil_r. reflexivity.
    + intros known t rest Hts Hknown Hmiss. unfold visit. rewrite Hf, Hg.
      unfold lift, io_bind at 1. rewrite orb_true_r.
      fold indentation. simpl andb. cbv iota. rewrite Hts.
      assert (G : for_each (print_target indentation outcome_of true)
                    (known ++ t :: rest)
                  = (map target_line known, Error (KeyError t))).
      { clear -Hknown Hmiss.
        induction Hknown as [|x l Hx _ IH]; simpl.
        - unfold io_bind. rewrite (print_target_missing _ _ _ _ Hmiss).
          reflexivity.
        - unfold io_bind. rewrite (print_target_expand _ _ _ Hx).
          unfold io_bind in IH. rewrite IH. reflexivity. }
      rewrite G. unfold io_bind, print, io_ret. simpl.
      rewrite ?app_nil_r. reflexivity.
Qed.

Lemma fully_successful_node_witness :
  let child := mkNode "//a/b" 1 [] 1 1 1 1 in
  let parent := mkNode "//a" 0 [child] 1 1 2 2 in
  let package_to_target := [("//a", ["//a:x"]); ("//a/b", ["//a/b:z"])] in
  let outcome_of :=
    [("//a:x", Some "success"); ("//a/b:z", Some "success")] in
  print_forest parent package_to_target outcome_of false false = ([], Ok tt) /\
  visit parent package_to_target outcome_of false true []
  = ([PackageLine tee "//a" (1 # 1) 1 1], Ok [child]) /\
  visit parent package_to_target outcome_of true true []
  = ([PackageLine tee "//a" (1 # 1) 1 1;
      TargetLine tee "//a:x" (Some "success")], Ok [child]).
Proof.
  intros child parent package_to_target outcome_of.
  destruct (fully_successful_node parent package_to_target outcome_of false
              [] (2 # 2) eq_refl eq_refl) as ((_ & H1) & _ & H2).
  destruct (H2 ltac:(discriminate)) as (g & Hg & _ & H3 & H4 & _).
  injection Hg as <-.
  split; [exact H1 |]. split; [exact H3 |].
  apply H4. repeat constructor.
Defined.

(** C2 (as stated) fails: the fully successful package [//a] has the child
    [//a/b], and with [expand] false the turn on [//a] leaves the queue
    empty, so the child is never taken off the queue. *)
Lemma fully_successful_children_not_traversed :
  let child := mkNode "//a/b" 1 [] 1 1 1 1 in
  let parent := mkNode "//a" 0 [child] 1 1 2 2 in
  let package_to_target := [("//a", ["//a:x"]); ("//a/b", ["//a/b:z"])] in
  let outcome_of :=
    [("//a:x", Some "success"); ("//a/b:z", Some "success")] in
  mapM (fun r => compute_counts r package_to_target outcome_of)
    (build_package_forest ["//a"; "//a/b"]) = Ok [parent] /\
  sorted package (children parent) ++ [] = [child] /\
  visit parent package_to_target outcome_of false false [] = ([], Ok []).
Proof. repeat split. Qed.

(** With [expand] false a turn prints no target line at all. *)
Lemma visit_no_target_line node ptt oo pit queue indentation t o :
  ~ In (TargetLine indentation t o) (fst (visit node ptt oo pit false queue)).
Proof.
  unfold visit.
  destruct (truediv (subtree_num_successes node) (subtree_num_targets node))
    as [f|]; simpl; [| tauto].
  rewrite orb_false_r. destruct (lt_one f); simpl; [| tauto].
  destruct (truediv (package_num_successes node) (package_num_targets node));
    simpl; [| tauto].
  intros [H | []]. discriminate H.
Qed.

(** C1 at the failing input: one package [//a] with [//a:x] successful and
    [//a:y] failed with message [boom].  With [expand] false the report
    has the package line and no line for [//a:y]; with [expand] true both
    targets are listed. *)
Theorem single_package_failure_not_listed :
  let events :=
    [configured_event "//a:x"; configured_event "//a:y";
     succeeded_event "//a:x"; failed_event "//a:y" "boom"] in
  read_build_event_protocol events
  = Ok [("//a:x", Some "success"); ("//a:y", Some "boom")] /\
  main events false
  = ([Blank; PackageLine tee "//a" (1 # 2) 1 2; Blank;
      OverallLine ((1 # 2) * 100)], Ok tt) /\
  map render (fst (main events false))
  = [""; "├Package //a:all build percentage: 50.0% (1/2)"; "";
     "Overall build percent: 50.00%"] /\
  map render (fst (main events true))
  = [""; "├Package //a:all build percentage: 50.0% (1/2)";
     " ├Target //a:x : success"; " ├Target //a:y : boom"; "";
     "Overall build percent: 50.00%"].
Proof. repeat split. Qed.

(** ** The main program *)

Lemma append_target_targets d package target :
  Permutation (List.concat (values (append_target d package target)))
    (target :: List.concat (values d)).
Proof.
  unfold append_target.
  induction d as [|[k v] d IH]; simpl; [reflexivity |].
  destruct (String.eqb_spec k package) as [-> | Hne].
  - rewrite getdefault_cons_same. simpl.
    rewrite <- app_assoc. simpl.
    symmetry. apply Permutation_middle.
  - rewrite (getdefault_cons_other _ _ _ _ Hne).
    destruct (String.eqb_spec k package); [congruence |].
    simpl. unfold values in IH. rewrite IH.
    symmetry. apply Permutation_middle.
Qed.

(** Grouping yields distinct packages whose target lists together hold
    every target once. *)
Lemma group_targets_partition outcome_of package_to_targets :
  group_targets outcome_of = Ok package_to_targets ->
  NoDup (keys package_to_targets) /\
  Permutation (List.concat (values package_to_targets)) (keys outcome_of).
Proof.
  unfold group_targets.
  assert (G : forall l d d',
             foldM (fun ptt target =>
                      package <- get_package target ;;
                      Ok (append_target ptt package target)) l d = Ok d' ->
             NoDup (keys d) ->
             NoDup (keys d') /\
             Permutation (List.concat (values d'))
               (List.concat (values d) ++ l)).
  { induction l as [|t l IH]; intros d d' H Hnd; simpl in H.
    - injection H as <-. rewrite app_nil_r. split; [exact Hnd | reflexivity].
    - apply bind_Ok in H. destruct H as (d1 & H1 & H).
      apply bind_Ok in H1. destruct H1 as (pkg & _ & H1). injection H1 as <-.
      destruct (IH _ _ H) as [G1 G2].
      + apply NoDup_keys_setitem. exact Hnd.
      + split; [exact G1 |].
        rewrite G2, append_target_targets. simpl.
        apply Permutation_middle. }
  intros H. apply (G _ _ _ H). constructor.
Qed.

(** Grouping never stores an empty list of targets. *)
Lemma group_targets_nonempty outcome_of package_to_targets :
  group_targets outcome_of = Ok package_to_targets ->
  Forall (fun targets => targets <> []) (values package_to_targets).
Proof.
  unfold group_targets.
  assert (G : forall l d d',
             foldM (fun ptt target =>
                      package <- get_package target ;;
                      Ok (append_target ptt package target)) l d = Ok d' ->
             Forall (fun targets : list string => targets <> []) (values d) ->
             Forall (fun targets : list string => targets <> []) (values d')).
  { induction l as [|t l IH]; intros d d' H Hd; simpl in H.
    - injection H as <-. exact Hd.
    - apply bind_Ok in H. destruct H as (d1 & H1 & H).
      apply bind_Ok in H1. destruct H1 as (pkg & _ & H1). injection H1 as <-.
      apply (IH _ _ H). unfold append_target.
      apply values_setitem; [exact Hd |].
      destruct (getdefault d pkg); discriminate. }
  intros H. apply (G _ _ _ H). constructor.
Qed.

Lemma count_success_by_key (outcome_of : dict outcome) :
  NoDup (keys outcome_of) ->
  count (success_of outcome_of) (keys outcome_of)
  = count is_success (values outcome_of).
Proof.
  induction outcome_of as [|[k o] d IH]; simpl; [reflexivity |].
  intros H. inversion H as [|? ? Hk Hd]; subst.
  change (count (success_of ((k, o) :: d)) (k :: keys d))
    with (count (success_of ((k, o) :: d)) ([k] ++ keys d)).
  change (count is_success (o :: values d))
    with (count is_success ([o] ++ values d)).
  rewrite !count_app, <- (IH Hd). f_equal.
  - unfold count, success_of. simpl. rewrite String.eqb_refl.
    destruct (is_success o); reflexivity.
  - unfold count. f_equal. apply filter_ext_in.
    intros k' Hk'. unfold success_of. simpl.
    destruct (String.eqb_spec k k'); [subst; contradiction | reflexivity].
Qed.

(** A sum over the packages of the aggregated forest is the sum over the
    keys of the grouping. *)
Lemma sum_over_packages (g : string -> nat) all_roots
  (package_to_targets : dict (list string)) :
  map package (forest_nodes all_roots)
  = map package
      (forest_nodes
         (build_package_forest (sorted (fun k => k) (keys package_to_targets))))
  ->
  sum (map (fun m => g (package m)) (forest_nodes all_roots))
  = sum (map g (keys package_to_targets)).
Proof.
  intros H. rewrite <- map_map, H. apply sum_map_perm.
  rewrite build_package_forest_keys. apply sorted_perm.
Qed.

(** The aggregation made by the report returns, and the subtree counts
    of the roots add up to the counts over the whole outcome map. *)
Lemma report_aggregation (outcome_of : dict outcome)
  (package_to_targets : dict (list string)) :
  NoDup (keys outcome_of) ->
  group_targets outcome_of = Ok package_to_targets ->
  exists all_roots,
    mapM (fun r => compute_counts r package_to_targets outcome_of)
      (build_package_forest (sorted (fun k => k) (keys package_to_targets)))
    = Ok all_roots /\
    sum (map subtree_num_successes all_roots)
    = count is_success (values outcome_of) /\
    sum (map subtree_num_targets all_roots) = List.length outcome_of.
Proof.
  intros Hnd Hg.
  destruct (group_targets_partition _ _ Hg) as [Hk Hperm].
  destruct (forest_counts_total package_to_targets outcome_of
              (build_package_forest
                 (sorted (fun k => k) (keys package_to_targets))))
    as [all_roots E].
  { intros n t _ Ht. apply contains_In.
    eapply Permutation_in; [exact Hperm |].
    eapply getdefault_in_values. exact Ht. }
  destruct (forest_counted _ _ _ _ E) as (Hc & Hp & _).
  exists all_roots. split; [exact E |]. split.
  - rewrite (forest_sum package_num_successes subtree_num_successes).
    + rewrite (map_ext_in _
                 (fun m => count (success_of outcome_of)
                             (getdefault package_to_targets (package m)))).
      * rewrite (sum_over_packages
                   (fun k => count (success_of outcome_of)
                               (getdefault package_to_targets k)) _ _ Hp).
        rewrite <- (map_map (getdefault package_to_targets)
                      (count (success_of outcome_of))).
        rewrite (values_by_key _ Hk), sum_count_concat.
        rewrite (count_perm _ _ _ Hperm).
        apply count_success_by_key. exact Hnd.
      * intros m Hm. rewrite Forall_forall in Hc. apply (Hc m Hm).
    + eapply Forall_impl; [| exact Hc]. intros m Hm. apply Hm.
  - rewrite (forest_sum package_num_targets subtree_num_targets).
    + rewrite (map_ext_in _
                 (fun m => List.length
                             (getdefault package_to_targets (package m)))).
      * rewrite (sum_over_packages
                   (fun k => List.length (getdefault package_to_targets k))
                   _ _ Hp).
        rewrite <- (map_map (getdefault package_to_targets)
                      (@List.length string)).
        rewrite (values_by_key _ Hk), sum_length_concat.
        rewrite (Permutation_length Hperm). unfold keys.
        apply length_map.
      * intros m Hm. rewrite Forall_forall in Hc. apply (Hc m Hm).
    + eapply Forall_impl; [| exact Hc]. intros m Hm. apply Hm.
Qed.

(** The forest of the report is built from keys in ascending order. *)
Lemma report_keys_ascending outcome_of package_to_targets :
  group_targets outcome_of = Ok package_to_targets ->
  ascending (sorted (fun k => k) (keys package_to_targets)).
Proof.
  intros H. apply sorted_ascending.
  apply (group_targets_partition _ _ H).
Qed.

(** Every package of the report's forest owns a target, and every target
    it owns has an outcome. *)
Lemma report_forest_targets outcome_of package_to_targets n :
  group_targets outcome_of = Ok package_to_targets ->
  In n (forest_nodes
          (build_package_forest
             (sorted (fun k => k) (keys package_to_targets)))) ->
  getdefault package_to_targets (package n) <> [] /\
  targets_known package_to_targets outcome_of n.
Proof.
  intros Hg Hn.
  destruct (group_targets_partition _ _ Hg) as [_ Hperm].
  pose proof (group_targets_nonempty _ _ Hg) as Hne.
  split.
  - assert (Hk : In (package n) (keys package_to_targets)).
    { eapply Permutation_in; [apply sorted_perm |].
      eapply Permutation_in; [apply build_package_forest_keys |].
      apply in_map. exact Hn. }
    rewrite Forall_forall in Hne. apply Hne. apply getdefault_key. exact Hk.
  - apply Forall_forall. intros t Ht. apply contains_In.
    eapply Permutation_in; [exact Hperm |].
    eapply getdefault_in_values. exact Ht.
Qed.

(** On every non-empty outcome map whose labels are distinct and all have
    a package, the report runs to its end: it prints the opening blank
    line, the lines of the forest, a blank line and the summary line. *)
Lemma report_completes (outcome_of : dict outcome)
  (package_to_targets : dict (list string)) (expand : bool) :
  NoDup (keys outcome_of) ->
  outcome_of <> [] ->
  group_targets outcome_of = Ok package_to_targets ->
  exists lines percentage,
    overall_percentage outcome_of = Ok percentage /\
    report outcome_of expand
    = (Blank :: lines ++ [Blank; OverallLine percentage], Ok tt).
Proof.
  intros Hnd Hne Hg.
  destruct (report_aggregation _ _ Hnd Hg) as (all_roots & E & _ & _).
  assert (Hp : exists percentage,
             overall_percentage outcome_of = Ok percentage).
  { unfold overall_percentage.
    destruct (truediv_defined (count is_success (values outcome_of))
                (List.length outcome_of)) as [q ->].
    - destruct outcome_of; [congruence | discriminate].
    - eexists. reflexivity. }
  destruct Hp as [percentage Hp].
  set (roots := build_package_forest
                  (sorted (fun k => k) (keys package_to_targets))) in *.
  assert (Hpos := counted_positive roots all_roots package_to_targets
                    outcome_of
                    (fun n Hn => proj1 (report_forest_targets _ _ n Hg Hn))
                    E).
  destruct (forest_counted _ _ _ _ E) as (_ & Hpk & _).
  assert (Hall : Forall (fun n => has_targets n /\
                                  targets_known package_to_targets
                                    outcome_of n)
                   (forest_nodes all_roots)).
  { apply Forall_forall. intros n Hn. split.
    - rewrite Forall_forall in Hpos.
      destruct (Hpos n Hn) as (H1 & H2 & _). unfold has_targets. lia.
    - assert (Hk : In (package n) (map package (forest_nodes roots)))
        by (rewrite <- Hpk; apply in_map; exact Hn).
      apply in_map_iff in Hk. destruct Hk as (n0 & Hpn & Hn0).
      unfold targets_known. rewrite <- Hpn.
      apply (report_forest_targets _ _ n0 Hg Hn0). }
  destruct (for_each_completes
              (fun r => print_forest r package_to_targets outcome_of
                          (List.length (keys package_to_targets) <=? 1)
                          expand)
              (sorted package all_roots)) as [lines Hlines].
  { apply Forall_forall. intros r Hr. unfold print_forest.
    apply print_queue_completes.
    apply Forall_forall. intros n Hn. rewrite Forall_forall in Hall.
    apply Hall. unfold forest_nodes in *. simpl in Hn.
    rewrite app_nil_r in Hn. apply in_flat_map. exists r. split; [| exact Hn].
    eapply Permutation_in; [apply sorted_perm | exact Hr]. }
  exists lines, percentage. split; [exact Hp |].
  unfold report. rewrite Hg. unfold lift at 1, io_bind at 1.
  fold roots. rewrite E. unfold lift at 1, io_bind at 1.
  unfold print at 1, io_bind at 1. unfold io_bind at 1.
  rewrite Hlines, Hp. reflexivity.
Qed.



(** The outcome map read from an event file has distinct labels. *)
Lemma read_keys_distinct events outcomes :
  read_build_event_protocol events = Ok outcomes -> NoDup (keys outcomes).
Proof.
  unfold read_build_event_protocol. rewrite read_from_steps.
  assert (G : forall l o o',
             foldM handle_step l o = Ok o' -> NoDup (keys o) ->
             NoDup (keys o')).
  { induction l as [|[bep k] l IH]; intros o o' H Hnd; simpl in H.
    - injection H as <-. exact Hnd.
    - apply bind_Ok in H. destruct H as (o1 & H1 & H).
      apply (IH _ _ H). unfold handle_step, handle_key in H1. simpl in H1.
      destruct (String.eqb k "targetConfigured").
      + apply bind_Ok in H1. destruct H1 as (l1 & _ & H1).
        injection H1 as <-. apply NoDup_keys_setitem. exact Hnd.
      + destruct (String.eqb k "targetCompleted").
        * apply bind_Ok in H1. destruct H1 as (l1 & _ & H1).
          destruct (contains o l1); simpl in H1; [| discriminate].
          apply bind_Ok in H1. destruct H1 as (o2 & _ & H1).
          injection H1 as <-. apply NoDup_keys_setitem. exact Hnd.
        * injection H1 as <-. exact Hnd. }
  intros H. apply (G _ _ _ H). constructor.
Qed.

(** The whole program runs to its end on every event file that yields at
    least one target and only labels that have a package. *)
Lemma main_completes (events : list build_event)
  (outcome_of : dict outcome) (package_to_targets : dict (list string))
  (expand : bool) :
  read_build_event_protocol events = Ok outcome_of ->
  outcome_of <> [] ->
  group_targets outcome_of = Ok package_to_targets ->
  exists lines percentage,
    overall_percentage outcome_of = Ok percentage /\
    main events expand
    = (Blank :: lines ++ [Blank; OverallLine percentage], Ok tt).
Proof.
  intros Hr Hne Hg.
  destruct (report_completes outcome_of package_to_targets expand
              (read_keys_distinct _ _ Hr) Hne Hg)
    as (lines & percentage & Hp & E).
  exists lines, percentage. split; [exact Hp |].
  unfold main. rewrite Hr. unfold lift, io_bind. rewrite E. reflexivity.
Qed.

(** C10.  With an empty outcome map the program prints the blank line
    that opens the report and then raises [ZeroDivisionError]: no package
    line and no summary line is printed.  An event file without any
    "target configured" turn either fails while it is read or yields the
    empty outcome map, so the program never completes on it. *)
Theorem empty_outcomes_divide_by_zero (expand : bool) :
  report [] expand = ([Blank], Error ZeroDivisionError) /\
  (forall events,
      (forall s, In s (steps events) -> snd s <> "targetConfigured") ->
      (read_build_event_protocol events = Ok [] /\
       main events expand = ([Blank], Error ZeroDivisionError))
      \/
      (exists e,
          read_build_event_protocol events = Error e /\
          main events expand = ([], Error e))).
Proof.
  split; [reflexivity |].
  intros events Hno. unfold main.
  destruct (read_build_event_protocol events) as [o|e] eqn:E.
  - left. rewrite (no_configured_no_outcomes _ _ Hno E).
    split; reflexivity.
  - right. exists e. split; reflexivity.
Qed.

Lemma empty_outcomes_divide_by_zero_witness :
  main [mkEvent [("progress", None)] false None "{progress}"] false
  = ([Blank], Error ZeroDivisionError).
Proof.
  destruct (proj2 (empty_outcomes_divide_by_zero false)
              [mkEvent [("progress", None)] false None "{progress}"])
    as [[_ H] | (e & H & _)].
  - intros s [<- | []]. discriminate.
  - exact H.
  - discriminate H.
Defined.

(** ** Further properties of get_package and of the grouping *)

Lemma re_search_package_sound target group1 :
  re_search_package target = Some group1 ->
  exists rest,
    target = (group1 ++ String colon rest)%string /\
    occurs colon group1 = false /\ occurs newline group1 = false.
Proof.
  revert group1. induction target as [|c target IH]; intros g; simpl.
  - discriminate.
  - destruct (Ascii.eqb_spec c colon) as [-> | Hc].
    + intros H. injection H as <-. exists target. repeat split.
    + destruct (Ascii.eqb_spec c newline) as [-> | Hn]; [discriminate |].
      destruct (re_search_package target) as [g'|]; [| discriminate].
      intros H. injection H as <-.
      destruct (IH g' eq_refl) as (rest & -> & H1 & H2).
      exists rest. simpl.
      apply Ascii.eqb_neq in Hc, Hn. rewrite Hc, Hn. auto.
Qed.

(** X1.  Whatever the label, a package returned by [get_package] is the
    text of the label up to its first colon, and it holds neither a colon
    nor a line feed. *)
Theorem get_package_sound (label package : string) :
  get_package label = Ok package ->
  exists rest,
    label = (package ++ String colon rest)%string /\
    occurs colon package = false /\
    occurs newline package = false /\
    startswith label package = true.
Proof.
  unfold get_package.
  destruct (re_search_package label) as [g|] eqn:E; [| discriminate].
  intros H. injection H as <-.
  destruct (re_search_package_sound _ _ E) as (rest & Hl & H1 & H2).
  exists rest. repeat split; try assumption.
  rewrite Hl. unfold startswith. clear.
  induction g as [|c g IH]; simpl; [reflexivity |].
  destruct (ascii_dec c c); [exact IH | congruence].
Qed.

Lemma get_package_sound_witness :
  exists rest,
    "//a/b:z:w" = ("//a/b" ++ String colon rest)%string /\
    startswith "//a/b:z:w" "//a/b" = true.
Proof.
  destruct (get_package_sound "//a/b:z:w" "//a/b" eq_refl)
    as (rest & H1 & _ & _ & H2).
  exists rest. split; assumption.
Defined.

Lemma getdefault_setitem_same {V} (d : dict (list V)) k v :
  getdefault (setitem d k v) k = v.
Proof. unfold getdefault. rewrite get_setitem_same. reflexivity. Qed.

Lemma getdefault_setitem_other {V} (d : dict (list V)) k k' v :
  k' <> k -> getdefault (setitem d k v) k' = getdefault d k'.
Proof.
  intros H. unfold getdefault. rewrite get_setitem_other by exact H.
  reflexivity.
Qed.

(** Every target is filed under its own package. *)
Lemma group_targets_own_package outcome_of package_to_targets :
  group_targets outcome_of = Ok package_to_targets ->
  forall package target,
    In target (getdefault package_to_targets package) ->
    get_package target = Ok package.
Proof.
  unfold group_targets.
  assert (G : forall l d d',
             foldM (fun ptt target =>
                      package <- get_package target ;;
                      Ok (append_target ptt package target)) l d = Ok d' ->
             (forall k t, In t (getdefault d k) -> get_package t = Ok k) ->
             forall k t, In t (getdefault d' k) -> get_package t = Ok k).
  { induction l as [|x l IH]; intros d d' H Hd; simpl in H.
    - injection H as <-. exact Hd.
    - apply bind_Ok in H. destruct H as (d1 & H1 & H).
      apply bind_Ok in H1. destruct H1 as (pkg & Hpkg & H1).
      injection H1 as <-. apply (IH _ _ H).
      intros k t. unfold append_target.
      destruct (string_dec k pkg) as [-> | Hne].
      + rewrite getdefault_setitem_same. intros Hin.
        apply in_app_or in Hin. destruct Hin as [Hin | [<- | []]]; auto.
      + rewrite getdefault_setitem_other by exact Hne. apply Hd. }
  intros H. apply (G _ _ _ H). intros k t [].
Qed.

(** X2.  The grouping loop of the main program files every label of the
    outcome map exactly once: the package keys are distinct, no package
    has an empty list, the lists together hold each label once, and a
    label is filed under the package [get_package] gives for it. *)
Theorem group_targets_files_each_label_once (outcome_of : dict outcome)
  (package_to_targets : dict (list string)) :
  group_targets outcome_of = Ok package_to_targets ->
  NoDup (keys package_to_targets) /\
  Forall (fun targets => targets <> []) (values package_to_targets) /\
  Permutation (List.concat (values package_to_targets)) (keys outcome_of) /\
  (forall package target,
      In target (getdefault package_to_targets package) ->
      get_package target = Ok package).
Proof.
  intros H. destruct (group_targets_partition _ _ H) as [H1 H2].
  repeat split; try assumption.
  - apply (group_targets_nonempty _ _ H).
  - apply (group_targets_own_package _ _ H).
Qed.

Lemma group_targets_files_each_label_once_witness :
  Permutation
    (List.concat (values [("//a", ["//a:x"; "//a:y"]); ("//b", ["//b:z"])]))
    ["//a:x"; "//b:z"; "//a:y"].
Proof.
  refine (proj1 (proj2 (proj2
            (group_targets_files_each_label_once
               [("//a:x", None); ("//b:z", None); ("//a:y", None)]
               [("//a", ["//a:x"; "//a:y"]); ("//b", ["//b:z"])] _)))).
  reflexivity.
Defined.

(** X3.  When a label of the outcome map has no package, the main program
    raises the parse error of the first such label before anything is
    printed. *)
Theorem report_parse_error_prints_nothing (outcome_of : dict outcome)
  (before after : list string) (label : string) (e : exn) (expand : bool) :
  keys outcome_of = before ++ label :: after ->
  Forall (fun t => exists package, get_package t = Ok package) before ->
  get_package label = Error e ->
  group_targets outcome_of = Error e /\
  report outcome_of expand = ([], Error e).
Proof.
  intros Hk Hb He.
  assert (G : group_targets outcome_of = Error e).
  { unfold group_targets. rewrite Hk, foldM_app.
    assert (Hpre : forall d, exists d',
               foldM (fun ptt target =>
                        package <- get_package target ;;
                        Ok (append_target ptt package target)) before d
               = Ok d').
    { clear Hk. induction Hb as [|t l [p Hp] _ IH]; intros d; simpl.
      - eexists. reflexivity.
      - rewrite Hp. simpl. apply IH. }
    destruct (Hpre []) as [d' ->]. simpl. rewrite He. reflexivity. }
  split; [exact G |]. unfold report. rewrite G. reflexivity.
Qed.

Lemma report_parse_error_prints_nothing_witness :
  report [("//a:x", Some "success"); ("foo", None)] true
  = ([], Error (RuntimeError "Error parsing package for: foo.")).
Proof.
  refine (proj2 (report_parse_error_prints_nothing
                   [("//a:x", Some "success"); ("foo", None)]
                   ["//a:x"] [] "foo" _ true _ _ _)).
  - reflexivity.
  - constructor; [eexists; reflexivity | constructor].
  - reflexivity.
Defined.

(** ** Further properties of read_build_event_protocol *)

(** X4.  The labels of the outcome map read from an event file are
    exactly the labels for which the file has a "target configured"
    turn. *)
Theorem outcome_labels_are_configured_labels (events : list build_event)
  (outcomes : dict outcome) (label : string) :
  read_build_event_protocol events = Ok outcomes ->
  (In label (keys outcomes) <-> Exists (configures label) (steps events)).
Proof.
  unfold read_build_event_protocol. rewrite read_from_steps. intros H.
  rewrite <- contains_In. split.
  - intros Hc.
    destruct (registered_by_configured _ _ _ _ H Hc) as [Habs | Hex];
      [discriminate | exact Hex].
  - apply (configured_registers _ _ _ _ H).
Qed.

Lemma outcome_labels_are_configured_labels_witness :
  In "//a:x"
    (keys [("//a:x", Some "success"); ("//a:y", None)]) <->
  Exists (configures "//a:x")
    (steps [configured_event "//a:x"; configured_event "//a:y";
            succeeded_event "//a:x"]).
Proof.
  apply (outcome_labels_are_configured_labels
           [configured_event "//a:x"; configured_event "//a:y";
            succeeded_event "//a:x"]).
  reflexivity.
Defined.

Lemma untouched_step label outcomes s outcomes' :
  handle_step outcomes s = Ok outcomes' ->
  ~ touches label s ->
  get outcomes' label = get outcomes label.
Proof.
  destruct s as [bep k]. intros H Hno.
  destruct (handle_step_cases _ _ _ _ H)
    as [(-> & lb & Hl & ->) | [(-> & lb & ob & Hl & _ & _ & ->) | (_ & ->)]].
  - apply get_setitem_other. intros ->. apply Hno. left. split; auto.
  - apply get_setitem_other. intros ->. apply Hno. right. split; auto.
  - reflexivity.
Qed.

Lemma untouched_steps label l :
  forall outcomes outcomes',
    foldM handle_step l outcomes = Ok outcomes' ->
    Forall (fun s => ~ touches label s) l ->
    get outcomes' label = get outcomes label.
Proof.
  induction l as [|s l IH]; intros o o' H Hall; simpl in H.
  - injection H as <-. reflexivity.
  - apply bind_Ok in H. destruct H as (o1 & H1 & H).
    inversion Hall; subst.
    rewrite (IH _ _ H); [| assumption].
    eapply untouched_step; eassumption.
Qed.

(** X5.  The outcome of a label is decided by the last turn on it: when
    no later turn registers or completes the label, a "target completed"
    turn leaves the outcome resolved from its record, and a "target
    configured" turn leaves the label pending. *)
Theorem last_turn_decides_outcome (events : list build_event)
  (pre post : list (build_event * string)) (s : build_event * string)
  (outcomes : dict outcome) (label : string) :
  steps events = pre ++ s :: post ->
  read_build_event_protocol events = Ok outcomes ->
  Forall (fun later => ~ touches label later) post ->
  (completes label s ->
   exists o, completed_outcome (fst s) = Ok o /\
             get outcomes label = Some o) /\
  (configures label s -> get outcomes label = Some None).
Proof.
  unfold read_build_event_protocol. rewrite read_from_steps.
  intros -> H Hpost. rewrite foldM_app in H.
  apply bind_Ok in H. destruct H as (o1 & _ & H). simpl in H.
  apply bind_Ok in H. destruct H as (o2 & H2 & H).
  rewrite (untouched_steps _ _ _ _ H Hpost).
  destruct s as [bep k]. unfold handle_step in H2. simpl in *.
  split; intros [Hk Hl]; simpl in Hk, Hl; subst k.
  - rewrite (handle_key_completed _ _ _ Hl) in H2.
    destruct (contains o1 label); [| discriminate].
    apply bind_Ok in H2. destruct H2 as (ob & Hob & H2).
    injection H2 as <-. exists ob. split; [exact Hob | apply get_setitem_same].
  - rewrite (handle_key_configured _ _ _ Hl) in H2.
    injection H2 as <-. apply get_setitem_same.
Qed.

Lemma last_turn_decides_outcome_witness :
  get [("//a:x", Some "boom"); ("//a:y", None)] "//a:x" = Some (Some "boom").
Proof.
  assert (Hpost : Forall (fun later => ~ touches "//a:x" later)
                    [(configured_event "//a:y", "targetConfigured")]).
  { constructor; [| constructor].
    intros [[_ H] | [H _]]; discriminate H. }
  destruct (proj1 (last_turn_decides_outcome
                     [configured_event "//a:x"; succeeded_event "//a:x";
                      failed_event "//a:x" "boom"; configured_event "//a:y"]
                     [(configured_event "//a:x", "targetConfigured");
                      (succeeded_event "//a:x", "targetCompleted")]
                     [(configured_event "//a:y", "targetConfigured")]
                     (failed_event "//a:x" "boom", "targetCompleted")
                     [("//a:x", Some "boom"); ("//a:y", None)]
                     "//a:x" eq_refl eq_refl Hpost)
              (conj eq_refl eq_refl)) as (o & Ho & Hg).
  injection Ho as <-. exact Hg.
Defined.

Lemma handle_event_other outcomes bep :
  target_event bep = false -> handle_event outcomes bep = Ok outcomes.
Proof.
  unfold target_event, handle_event.
  induction (keys (bep_id bep)) as [|k ks IH]; simpl; [reflexivity |].
  intros H. apply orb_false_iff in H. destruct H as [Hk Hks].
  unfold handle_key at 1. unfold target_kind in Hk.
  apply orb_false_iff in Hk. destruct Hk as [-> ->]. simpl. apply IH, Hks.
Qed.

(** X6.  Records whose [id] object has neither a [targetConfigured] nor a
    [targetCompleted] key are ignored: reading the file gives the same
    result, outcomes or exception, as reading it with those records
    removed. *)
Theorem other_records_are_ignored (events : list build_event)
  (outcomes : dict outcome) :
  read_from outcomes (filter target_event events) = read_from outcomes events.
Proof.
  unfold read_from. revert outcomes.
  induction events as [|bep events IH]; intros o; simpl; [reflexivity |].
  destruct (target_event bep) eqn:E; simpl.
  - destruct (handle_event o bep); simpl; [apply IH | reflexivity].
  - rewrite (handle_event_other _ _ E). simpl. apply IH.
Qed.

(** ** Further properties of the package forest *)

Lemma insert_node_into_tree_nested k root :
  forall above,
    nested_tree above root ->
    startswith k (package root) = true ->
    Forall (fun a => startswith k a = true) above ->
    nested_tree above (insert_node_into_tree root (new_node k 0)).
Proof.
  induction root as [root IH] using PackageTreeNode_ind.
  intros above Hv Hs Hpre.
  inversion Hv as [? ? Hd Hp Hcs]; subst.
  rewrite insert_node_into_tree_eq. simpl (package (new_node k 0)).
  destruct (first_match_cases
              (fun child => startswith k (package child))
              (fun child => insert_node_into_tree child (new_node k 0))
              (children root))
    as [(pre & x & post & Hch & _ & Hx & ->) | [_ ->]].
  - constructor; simpl; try assumption.
    rewrite Hch in Hcs, IH.
    apply Forall_app in Hcs. destruct Hcs as [Hcs1 Hcs2].
    apply Forall_app in IH. destruct IH as [_ IH2].
    inversion Hcs2; inversion IH2; subst.
    apply Forall_app. split; [assumption |].
    constructor; [| assumption].
    match goal with H : forall above, _ |- _ => apply H end;
      try assumption; constructor; assumption.
  - constructor; simpl; try assumption.
    apply Forall_app. split; [assumption |].
    constructor; [| constructor].
    constructor; simpl; [lia | constructor; assumption | constructor].
Qed.

Lemma insert_node_into_forest_nested k roots :
  Forall (nested_tree []) roots ->
  Forall (nested_tree []) (insert_node_into_forest roots (new_node k 0)).
Proof.
  intros Hv. unfold insert_node_into_forest.
  simpl (package (new_node k 0)).
  destruct (first_match_cases
              (fun root => startswith k (package root))
              (fun root => insert_node_into_tree root (new_node k 0))
              roots)
    as [(pre & x & post & -> & _ & Hx & ->) | [_ ->]].
  - apply Forall_app in Hv. destruct Hv as [Hv1 Hv2].
    inversion Hv2; subst.
    apply Forall_app. split; [assumption |].
    constructor; [| assumption].
    apply insert_node_into_tree_nested; try assumption; constructor.
  - apply Forall_app. split; [assumption |].
    constructor; [| constructor].
    constructor; simpl; [reflexivity | constructor | constructor].
Qed.

Lemma build_package_forest_nested package_lst :
  Forall (nested_tree []) (build_package_forest package_lst).
Proof.
  unfold build_package_forest.
  assert (G : forall roots,
             Forall (nested_tree []) roots ->
             Forall (nested_tree [])
               (fold_left
                  (fun result package =>
                     insert_node_into_forest result (new_node package 0))
                  package_lst roots)).
  { induction package_lst as [|k l IH]; intros roots H; simpl; [exact H |].
    apply IH. apply insert_node_into_forest_nested. exact H. }
  apply G. constructor.
Qed.

Lemma nested_with_ancestors n :
  forall above,
    nested_tree (map package above) n ->
    forall ancestors m,
      In (ancestors, m) (with_ancestors above n) ->
      depth m = List.length ancestors /\
      Forall (fun a => startswith (package m) (package a) = true) ancestors.
Proof.
  induction n as [n IH] using PackageTreeNode_ind.
  intros above Hv ancestors m Hin.
  inversion Hv as [? ? Hd Hp Hcs]; subst.
  rewrite with_ancestors_eq in Hin. destruct Hin as [Heq | Hin].
  - injection Heq as <- <-. rewrite length_map in Hd.
    rewrite Forall_map in Hp. auto.
  - apply in_flat_map in Hin. destruct Hin as (c & Hc & Hin).
    rewrite Forall_forall in IH, Hcs.
    apply (IH c Hc (n :: above)); [apply (Hcs c Hc) | exact Hin].
Qed.

(** X7.  Whatever the order of the keys, and even with repeated keys, the
    forest built has exactly one node per element of the list, the depth
    of every node is the length of its chain of ancestors, and the key of
    every node starts with the key of each of its ancestors. *)
Theorem build_package_forest_any_order (package_lst : list string) :
  let forest := build_package_forest package_lst in
  Permutation (map package (forest_nodes forest)) package_lst /\
  List.length (forest_nodes forest) = List.length package_lst /\
  (forall ancestors n,
      In (ancestors, n) (forest_with_ancestors forest) ->
      depth n = List.length ancestors /\
      Forall (fun a => startswith (package n) (package a) = true) ancestors).
Proof.
  intros forest. pose proof (build_package_forest_keys package_lst) as Hk.
  fold forest in Hk. split; [exact Hk |]. split.
  - rewrite <- (Permutation_length Hk). symmetry. apply length_map.
  - intros ancestors n Hin. unfold forest_with_ancestors in Hin.
    apply in_flat_map in Hin. destruct Hin as (r & Hr & Hin).
    pose proof (build_package_forest_nested package_lst) as Hn.
    fold forest in Hn. rewrite Forall_forall in Hn.
    apply (nested_with_ancestors r [] (Hn r Hr) _ _ Hin).
Qed.

Lemma build_package_forest_any_order_witness :
  let n := mkNode "//a" 1 [] 0 0 0 0 in
  let parent := mkNode "//a" 0 [n] 0 0 0 0 in
  depth n = List.length [parent] /\
  Forall (fun a => startswith (package n) (package a) = true) [parent].
Proof.
  intros n parent.
  apply (proj2 (proj2 (build_package_forest_any_order
                         ["//a/b"; "//a"; "//a"])) [parent] n).
  simpl. auto.
Defined.

(** *** Ancestors are exactly the proper prefixes *)

Lemma startswith_refl s : startswith s s = true.
Proof.
  unfold startswith. induction s as [|c s IH]; simpl; [reflexivity |].
  destruct (ascii_dec c c); [exact IH | congruence].
Qed.

Lemma startswith_antisym a :
  forall b, startswith a b = true -> startswith b a = true -> a = b.
Proof.
  unfold startswith.
  induction a as [|c a IH]; intros [|d b]; simpl; try reflexivity;
    try discriminate.
  destruct (ascii_dec d c) as [-> | _]; [| discriminate].
  destruct (ascii_dec c c); [| congruence].
  intros H1 H2. f_equal. apply IH; assumption.
Qed.

Lemma startswith_trans a :
  forall b c,
    startswith a b = true -> startswith b c = true -> startswith a c = true.
Proof.
  unfold startswith.
  induction a as [|x a IH]; intros [|y b] [|z c]; simpl; try reflexivity;
    try discriminate.
  destruct (ascii_dec y x) as [-> | _]; [| discriminate].
  destruct (ascii_dec z x) as [-> | _]; [| discriminate].
  destruct (ascii_dec x x); [| congruence].
  apply IH.
Qed.

(** Two prefixes of one key are prefixes of one another. *)
Lemma startswith_comparable s :
  forall a b,
    startswith s a = true -> startswith s b = true ->
    startswith a b = true \/ startswith b a = true.
Proof.
  unfold startswith.
  induction s as [|x s IH]; intros [|y a] [|z b]; simpl; auto;
    try discriminate.
  destruct (ascii_dec y x) as [-> | _]; [| discriminate].
  destruct (ascii_dec z x) as [-> | _]; [| discriminate].
  destruct (ascii_dec x x); [| congruence].
  apply IH.
Qed.

(** In a valid tree every key extends the key of the root. *)
Lemma valid_tree_keys_extend n :
  forall above,
    valid_tree above n ->
    forall m, In m (nodes n) ->
              startswith (package m) (package n) = true.
Proof.
  induction n as [n IH] using PackageTreeNode_ind.
  intros above Hv m Hm. inversion Hv as [? ? _ _ _ _ Hcs]; subst.
  rewrite nodes_eq in Hm. destruct Hm as [<- | Hm].
  - apply startswith_refl.
  - apply in_flat_map in Hm. destruct Hm as (c & Hc & Hm).
    rewrite Forall_forall in IH, Hcs.
    pose proof (IH c Hc _ (Hcs c Hc) m Hm) as H1.
    pose proof (Hcs c Hc) as Hvc.
    inversion Hvc as [? ? _ Hp _ _ _]; subst. inversion Hp; subst.
    eapply startswith_trans; eassumption.
Qed.

(** The chains of a subtree end with the chain of its root. *)
Lemma with_ancestors_above n :
  forall above ancestors m,
    In (ancestors, m) (with_ancestors above n) ->
    exists nearer, ancestors = nearer ++ above.
Proof.
  induction n as [n IH] using PackageTreeNode_ind.
  intros above ancestors m Hin. rewrite with_ancestors_eq in Hin.
  destruct Hin as [Heq | Hin].
  - injection Heq as <- _. exists []. reflexivity.
  - apply in_flat_map in Hin. destruct Hin as (c & Hc & Hin).
    rewrite Forall_forall in IH.
    destruct (IH c Hc _ _ _ Hin) as [nearer ->].
    exists (nearer ++ [n]). rewrite <- app_assoc. reflexivity.
Qed.

Lemma with_ancestors_In above n ancestors m :
  In (ancestors, m) (with_ancestors above n) -> In m (nodes n).
Proof.
  intros H. rewrite <- (with_ancestors_nodes n above).
  apply (in_map snd) in H. exact H.
Qed.

(** Unrelated siblings with the same key are the same sibling. *)
Lemma unrelated_same_key siblings :
  siblings_unrelated siblings ->
  forall c c', In c siblings -> In c' siblings ->
               package c = package c' -> c = c'.
Proof.
  unfold siblings_unrelated.
  induction siblings as [|s siblings IH]; intros H c c' Hc Hc' Hk.
  - destruct Hc.
  - simpl in H. inversion H as [|? ? Hs Hrest]; subst.
    rewrite Forall_map, Forall_forall in Hs.
    destruct Hc as [<- | Hc], Hc' as [<- | Hc'].
    + reflexivity.
    + destruct (Hs c' Hc') as [H1 _]. rewrite Hk, startswith_refl in H1.
      discriminate.
    + destruct (Hs c Hc) as [H1 _]. rewrite <- Hk, startswith_refl in H1.
      discriminate.
    + apply (IH Hrest); assumption.
Qed.

Lemma unrelated_siblings_In siblings :
  siblings_unrelated siblings ->
  forall c c', In c siblings -> In c' siblings ->
               package c = package c' \/
               unrelated (package c) (package c').
Proof.
  unfold siblings_unrelated. intros H c c' Hc Hc'.
  destruct (ForallOrdPairs_In H (package c) (package c')
              (in_map package _ _ Hc) (in_map package _ _ Hc'))
    as [Heq | [Hr | [H1 H2]]]; auto.
  right. split; assumption.
Qed.

(** Two nodes below two siblings, the key of one extending the key of the
    other, are below the same sibling. *)
Lemma related_same_sibling siblings c c' n m :
  siblings_unrelated siblings ->
  In c siblings -> In c' siblings ->
  startswith (package n) (package c) = true ->
  startswith (package m) (package c') = true ->
  startswith (package n) (package m) = true ->
  c = c'.
Proof.
  intros Hun Hc Hc' Hn Hm Hnm.
  destruct (unrelated_siblings_In _ Hun c c' Hc Hc') as [Heq | [H1 H2]].
  - apply (unrelated_same_key _ Hun); assumption.
  - pose proof (startswith_trans _ _ _ Hnm Hm) as Hnc'.
    destruct (startswith_comparable _ _ _ Hn Hnc') as [H | H]; congruence.
Qed.

Lemma prefix_is_ancestor_tree root :
  forall above,
    valid_tree (map package above) root ->
    forall ancestors n m,
      In (ancestors, n) (with_ancestors above root) ->
      In m (nodes root) ->
      startswith (package n) (package m) = true ->
      package m <> package n ->
      In (package m) (map package ancestors).
Proof.
  induction root as [root IH] using PackageTreeNode_ind.
  intros above Hv ancestors n m Hin Hm Hnm Hne.
  pose proof (valid_tree_keys_extend _ _ Hv m Hm) as Hmroot.
  inversion Hv as [? ? _ _ _ Hun Hcs]; subst.
  rewrite with_ancestors_eq in Hin. destruct Hin as [Heq | Hin].
  - injection Heq as <- <-. exfalso. apply Hne.
    apply startswith_antisym; assumption.
  - apply in_flat_map in Hin. destruct Hin as (c & Hc & Hin).
    rewrite nodes_eq in Hm. destruct Hm as [<- | Hm].
    + destruct (with_ancestors_above _ _ _ _ Hin) as [nearer ->].
      rewrite map_app. apply in_or_app. right. left. reflexivity.
    + apply in_flat_map in Hm. destruct Hm as (c' & Hc' & Hm).
      rewrite Forall_forall in IH, Hcs.
      assert (c = c').
      { apply (related_same_sibling (children root) c c' n m);
          try assumption.
        - apply (valid_tree_keys_extend _ _ (Hcs c Hc)).
          apply (with_ancestors_In _ _ _ _ Hin).
        - apply (valid_tree_keys_extend _ _ (Hcs c' Hc')). exact Hm. }
      subst c'.
      apply (IH c Hc (root :: above) (Hcs c Hc) ancestors n m);
        assumption.
Qed.

Lemma prefix_is_ancestor_forest roots :
  valid_forest roots ->
  forall ancestors n m,
    In (ancestors, n) (forest_with_ancestors roots) ->
    In m (forest_nodes roots) ->
    startswith (package n) (package m) = true ->
    package m <> package n ->
    In (package m) (map package ancestors).
Proof.
  intros [Hv Hun] ancestors n m Hin Hm Hnm Hne.
  unfold forest_with_ancestors, forest_nodes in *.
  apply in_flat_map in Hin. destruct Hin as (r & Hr & Hin).
  apply in_flat_map in Hm. destruct Hm as (r' & Hr' & Hm).
  rewrite Forall_forall in Hv.
  assert (r = r').
  { apply (related_same_sibling roots r r' n m); try assumption.
    - apply (valid_tree_keys_extend _ _ (Hv r Hr)).
      apply (with_ancestors_In _ _ _ _ Hin).
    - apply (valid_tree_keys_extend _ _ (Hv r' Hr')). exact Hm. }
  subst r'.
  apply (prefix_is_ancestor_tree r [] (Hv r Hr) ancestors n m); assumption.
Qed.

(** X8.  In the forest built from keys in ascending order without
    repetition, a node is an ancestor of another exactly when its key is
    a proper prefix of the other key: containment in the forest is the
    prefix order of the keys. *)
Theorem ancestors_are_the_proper_prefixes (package_lst : list string) :
  ascending package_lst ->
  let forest := build_package_forest package_lst in
  forall ancestors n m,
    In (ancestors, n) (forest_with_ancestors forest) ->
    In m (forest_nodes forest) ->
    (In (package m) (map package ancestors) <->
     startswith (package n) (package m) = true /\ package m <> package n).
Proof.
  intros Hasc forest ancestors n m Hin Hm.
  assert (G : valid_forest forest).
  { apply (build_from_valid package_lst []).
    - apply ascending_strongly. exact Hasc.
    - constructor.
    - split; constructor. }
  clearbody forest. split.
  - intros Hanc. destruct G as [Hv _].
    unfold forest_with_ancestors in Hin.
    apply in_flat_map in Hin. destruct Hin as (r & Hr & Hin).
    rewrite Forall_forall in Hv.
    destruct (valid_with_ancestors r [] (Hv r Hr) _ _ Hin)
      as (_ & Hp & Hni & _).
    split.
    + apply in_map_iff in Hanc. destruct Hanc as (a & <- & Ha).
      rewrite Forall_forall in Hp. apply (Hp a Ha).
    + intros Heq. apply Hni. rewrite <- Heq. exact Hanc.
  - intros [Hnm Hne].
    apply (prefix_is_ancestor_forest forest G ancestors n m); assumption.
Qed.

Lemma ancestors_are_the_proper_prefixes_witness :
  let c := mkNode "//a/b/c" 2 [] 0 0 0 0 in
  let b := mkNode "//a/b" 1 [c] 0 0 0 0 in
  let a := mkNode "//a" 0 [b; mkNode "//ab" 1 [] 0 0 0 0] 0 0 0 0 in
  In (package a) (map package [b; a]) <->
  startswith (package c) (package a) = true /\ package a <> package c.
Proof.
  intros c b a.
  apply (ancestors_are_the_proper_prefixes
           ["//a"; "//a/b"; "//a/b/c"; "//ab"]
           ltac:(repeat constructor) [b; a] c a).
  - simpl. auto.
  - simpl. auto.
Defined.

(** ** Further properties of compute_counts *)

Lemma mapM_Error {A B} (f : A -> result B) xs e :
  mapM f xs = Error e -> exists x, In x xs /\ f x = Error e.
Proof.
  induction xs as [|x xs IH]; simpl; [discriminate |].
  destruct (f x) as [y|e1] eqn:E; simpl.
  - destruct (mapM f xs) as [ys|e2]; simpl; [discriminate |].
    intros H. injection H as <-.
    destruct (IH eq_refl) as (x' & Hx' & Hf). eauto.
  - intros H. injection H as <-. eauto.
Qed.

Lemma mapM_fixed {A} (f : A -> result A) xs :
  Forall (fun x => f x = Ok x) xs -> mapM f xs = Ok xs.
Proof.
  induction 1 as [|x xs Hx _ IH]; simpl; [reflexivity |].
  rewrite Hx, IH. reflexivity.
Qed.

(** An exception of [compute_counts] is the [KeyError] of a target that
    is listed for a package of the tree and has no outcome. *)
Lemma compute_counts_error ttp oo node :
  forall e,
    compute_counts node ttp oo = Error e ->
    exists n t,
      In n (nodes node) /\ In t (getdefault ttp (package n)) /\
      contains oo t = false /\ e = KeyError t.
Proof.
  induction node as [node IH] using PackageTreeNode_ind.
  intros e. rewrite compute_counts_eq.
  destruct (mapM (fun n => compute_counts n ttp oo) (children node))
    as [cs|e1] eqn:Ecs; simpl.
  - destruct (mapM (fun t => o <- getitem oo t ;; Ok (is_success o))
                (getdefault ttp (package node))) as [flags|e2] eqn:Ef;
      simpl; [discriminate |].
    intros H. injection H as <-.
    apply mapM_Error in Ef. destruct Ef as (t & Ht & Hf).
    exists node, t. rewrite nodes_eq. split; [left; reflexivity |].
    split; [exact Ht |].
    unfold getitem, contains in *. destruct (get oo t); [discriminate |].
    injection Hf as <-. auto.
  - intros H. injection H as <-.
    apply mapM_Error in Ecs. destruct Ecs as (c & Hc & Hf).
    rewrite Forall_forall in IH.
    destruct (IH c Hc _ Hf) as (n & t & Hn & Ht & Hno & He).
    exists n, t. repeat split; try assumption.
    rewrite nodes_eq. right. apply in_flat_map. eauto.
Qed.

Lemma Forall2_In_left {A B} (R : A -> B -> Prop) xs ys x :
  Forall2 R xs ys -> In x xs -> exists y, In y ys /\ R x y.
Proof.
  induction 1 as [|a b xs ys Hab _ IH]; intros Hin; [destruct Hin |].
  destruct Hin as [<- | Hin].
  - exists b. split; [left; reflexivity | exact Hab].
  - destruct (IH Hin) as (y & Hy & Hr). exists y. split; [right |]; assumption.
Qed.

(** When [compute_counts] returns, every listed target has an outcome. *)
Lemma compute_counts_known ttp oo node :
  forall node',
    compute_counts node ttp oo = Ok node' ->
    forall n t,
      In n (nodes node) -> In t (getdefault ttp (package n)) ->
      contains oo t = true.
Proof.
  induction node as [node IH] using PackageTreeNode_ind.
  intros node' H n t Hn Ht.
  apply compute_counts_node in H. destruct H as (_ & _ & Hcs & Hk & _).
  rewrite nodes_eq in Hn. destruct Hn as [<- | Hn].
  - rewrite Forall_forall in Hk. apply (Hk t Ht).
  - apply in_flat_map in Hn. destruct Hn as (c & Hc & Hn).
    apply mapM_Forall2 in Hcs.
    destruct (Forall2_In_left _ _ _ _ Hcs Hc) as (c' & _ & Hc').
    rewrite Forall_forall in IH. apply (IH c Hc c' Hc' n t Hn Ht).
Qed.

(** X9.  [compute_counts] returns exactly when every target listed for a
    package of the tree has an outcome; otherwise it raises the
    [KeyError] of a listed target that has none. *)
Theorem compute_counts_returns_iff_targets_known (node : PackageTreeNode)
  (targets_from_package : dict (list string)) (outcomes : dict outcome) :
  ((exists node', compute_counts node targets_from_package outcomes = Ok node')
   <->
   (forall n t,
       In n (nodes node) ->
       In t (getdefault targets_from_package (package n)) ->
       contains outcomes t = true)) /\
  (forall e,
      compute_counts node targets_from_package outcomes = Error e ->
      exists n t,
        In n (nodes node) /\
        In t (getdefault targets_from_package (package n)) /\
        contains outcomes t = false /\ e = KeyError t).
Proof.
  split; [split |].
  - intros [node' H]. apply (compute_counts_known _ _ _ _ H).
  - apply compute_counts_total.
  - apply compute_counts_error.
Qed.

Lemma compute_counts_returns_iff_targets_known_witness :
  exists n t,
    In n (nodes (new_node "//a" 0)) /\
    In t (getdefault [("//a", ["//a:x"; "//a:y"])] (package n)) /\
    contains [("//a:x", Some "success")] t = false /\
    KeyError "//a:y" = KeyError t.
Proof.
  apply (proj2 (compute_counts_returns_iff_targets_known
                  (new_node "//a" 0) [("//a", ["//a:x"; "//a:y"])]
                  [("//a:x", Some "success")])).
  reflexivity.
Defined.

Lemma success_flags_value oo targets :
  Forall (fun t => contains oo t = true) targets ->
  mapM (fun t => o <- getitem oo t ;; Ok (is_success o)) targets
  = Ok (map (success_of oo) targets).
Proof.
  intros H. destruct (success_flags_total oo targets H) as [flags Hf].
  rewrite Hf. f_equal. apply (success_flags _ _ _ Hf).
Qed.

(** The tree returned has the depths of the tree given, in the same
    places. *)
Lemma compute_counts_depths ttp oo node :
  forall node',
    compute_counts node ttp oo = Ok node' ->
    map depth (nodes node') = map depth (nodes node).
Proof.
  induction node as [node IH] using PackageTreeNode_ind.
  intros node' H. apply compute_counts_node in H.
  destruct H as (_ & Hd & Hcs & _).
  rewrite (nodes_eq node'), (nodes_eq node). simpl. rewrite Hd. f_equal.
  apply mapM_Forall2 in Hcs.
  induction Hcs as [|c c' cs cs' Hc _ IHcs]; [reflexivity |].
  inversion IH as [|? ? IHc IHrest]; subst.
  simpl. rewrite !map_app, (IHc _ Hc), (IHcs IHrest). reflexivity.
Qed.

Lemma compute_counts_again ttp oo node :
  forall node',
    compute_counts node ttp oo = Ok node' ->
    compute_counts node' ttp oo = Ok node'.
Proof.
  induction node as [node IH] using PackageTreeNode_ind.
  intros node' H. rewrite compute_counts_eq in H.
  apply bind_Ok in H. destruct H as (cs & Hcs & H).
  apply bind_Ok in H. destruct H as (flags & Hflags & H).
  injection H as <-.
  rewrite compute_counts_eq. simpl.
  assert (Hfix : mapM (fun n => compute_counts n ttp oo) cs = Ok cs).
  { apply mapM_fixed. apply mapM_Forall2 in Hcs.
    induction Hcs as [|c c' l l' Hc _ IHcs]; [constructor |].
    inversion IH as [|? ? IHc IHrest]; subst.
    constructor; [apply (IHc _ Hc) | apply (IHcs IHrest)]. }
  rewrite Hfix, Hflags. reflexivity.
Qed.

(** X10.  [compute_counts] only fills in the counters: the tree returned
    has the packages and depths of the tree given, node for node, and
    running [compute_counts] on it again returns it unchanged, so
    counters are overwritten and never accumulated. *)
Theorem compute_counts_idempotent (node node' : PackageTreeNode)
  (targets_from_package : dict (list string)) (outcomes : dict outcome) :
  compute_counts node targets_from_package outcomes = Ok node' ->
  map package (nodes node') = map package (nodes node) /\
  map depth (nodes node') = map depth (nodes node) /\
  compute_counts node' targets_from_package outcomes = Ok node'.
Proof.
  intros H. split; [apply (compute_counts_nodes _ _ _ _ H) |].
  split; [apply (compute_counts_depths _ _ _ _ H) |].
  apply (compute_counts_again _ _ _ _ H).
Qed.

Lemma compute_counts_idempotent_witness :
  compute_counts (mkNode "//a" 0 [mkNode "//a/b" 1 [] 0 1 0 1] 1 1 1 2)
    [("//a", ["//a:x"]); ("//a/b", ["//a/b:z"])]
    [("//a:x", Some "success"); ("//a/b:z", None)]
  = Ok (mkNode "//a" 0 [mkNode "//a/b" 1 [] 0 1 0 1] 1 1 1 2).
Proof.
  refine (proj2 (proj2 (compute_counts_idempotent
                          (mkNode "//a" 0 [new_node "//a/b" 1] 0 0 0 0)
                          _ _ _ _))).
  reflexivity.
Defined.

Lemma nodes_subtree n :
  forall m, In m (nodes n) -> incl (nodes m) (nodes n).
Proof.
  induction n as [n IH] using PackageTreeNode_ind.
  intros m Hm. rewrite (nodes_eq n) in Hm. destruct Hm as [<- | Hm].
  - apply incl_refl.
  - apply in_flat_map in Hm. destruct Hm as (c & Hc & Hm).
    rewrite Forall_forall in IH.
    intros x Hx. rewrite (nodes_eq n). right.
    apply in_flat_map. exists c. split; [exact Hc |].
    apply (IH c Hc m Hm x Hx).
Qed.

(** X11.  After [compute_counts], at every node of the tree, the subtree
    target count is the number of targets listed for all the packages of
    the subtree, the subtree success count is the number of those whose
    outcome is [success], and the direct success count is at most the
    direct target count. *)
Theorem subtree_counts_total_the_subtree (node node' : PackageTreeNode)
  (targets_from_package : dict (list string)) (outcomes : dict outcome) :
  compute_counts node targets_from_package outcomes = Ok node' ->
  forall m,
    In m (nodes node') ->
    subtree_num_targets m
    = sum (map (fun x => List.length
                           (getdefault targets_from_package (package x)))
             (nodes m)) /\
    subtree_num_successes m
    = sum (map (fun x => count (success_of outcomes)
                           (getdefault targets_from_package (package x)))
             (nodes m)) /\
    package_num_successes m <= package_num_targets m.
Proof.
  intros H m Hm.
  destruct (compute_counts_nodes _ _ _ _ H) as [Hc _].
  assert (Hsub : Forall (node_counted targets_from_package outcomes)
                   (nodes m)).
  { rewrite Forall_forall in *. intros x Hx. apply Hc.
    apply (nodes_subtree _ _ Hm x Hx). }
  split; [| split].
  - rewrite (subtree_sum package_num_targets subtree_num_targets).
    + f_equal. apply map_ext_in. intros x Hx.
      rewrite Forall_forall in Hsub. apply (Hsub x Hx).
    + eapply Forall_impl; [| exact Hsub]. intros x Hx. apply Hx.
  - rewrite (subtree_sum package_num_successes subtree_num_successes).
    + f_equal. apply map_ext_in. intros x Hx.
      rewrite Forall_forall in Hsub. apply (Hsub x Hx).
    + eapply Forall_impl; [| exact Hsub]. intros x Hx. apply Hx.
  - rewrite Forall_forall in Hc. destruct (Hc m Hm) as (-> & -> & _).
    apply count_le.
Qed.

Lemma subtree_counts_total_the_subtree_witness :
  subtree_num_targets
    (mkNode "//a" 0 [mkNode "//a/b" 1 [] 0 1 0 1] 1 2 1 3)
  = sum (map (fun x => List.length
                         (getdefault
                            [("//a", ["//a:x"; "//a:y"]);
                             ("//a/b", ["//a/b:z"])] (package x)))
           (nodes (mkNode "//a" 0 [mkNode "//a/b" 1 [] 0 1 0 1] 1 2 1 3))).
Proof.
  refine (proj1 (subtree_counts_total_the_subtree
                   (mkNode "//a" 0 [new_node "//a/b" 1] 0 0 0 0)
                   (mkNode "//a" 0 [mkNode "//a/b" 1 [] 0 1 0 1] 1 2 1 3)
                   [("//a", ["//a:x"; "//a:y"]); ("//a/b", ["//a/b:z"])]
                   [("//a:x", Some "success"); ("//a:y", None);
                    ("//a/b:z", None)] _ _ _)).
  - reflexivity.
  - left. reflexivity.
Defined.

(** ** Further properties of print_forest *)

Lemma io_bind_ext {A B} (m : io A) (k1 k2 : A -> io B) :
  (forall a, k1 a = k2 a) -> io_bind m k1 = io_bind m k2.
Proof.
  intros H. unfold io_bind. destruct m as [o [a|e]]; [| reflexivity].
  rewrite H. reflexivity.
Qed.

Lemma io_bind_post {A B C} (m : io A) (k : A -> io B)
  (h : result B -> result C) :
  (forall e, h (Error e) = Error e) ->
  (let (out, r) := io_bind m k in (out, h r))
  = io_bind m (fun a => let (out, r) := k a in (out, h r)).
Proof.
  intros Hh. unfold io_bind. destruct m as [o [a|e]].
  - destruct (k a) as [o1 r1]. reflexivity.
  - rewrite Hh. reflexivity.
Qed.

(** The queue a turn leaves is made of what the turn puts in front of it
    and of the queue it was given. *)
Lemma visit_frame node ptt oo pit e queue :
  visit node ptt oo pit e queue =
  let (out, r) := visit node ptt oo pit e [] in
  (out, match r with
        | Ok to_visit => Ok (to_visit ++ queue)
        | Error err => Error err
        end).
Proof.
  unfold visit.
  symmetry. etransitivity; [apply io_bind_post; reflexivity |].
  apply io_bind_ext. intros f.
  destruct (lt_one f || e); [| reflexivity].
  etransitivity; [apply io_bind_post; reflexivity |].
  apply io_bind_ext. intros g.
  etransitivity; [apply io_bind_post; reflexivity |].
  apply io_bind_ext. intros _.
  etransitivity; [apply io_bind_post; reflexivity |].
  apply io_bind_ext. intros _.
  unfold io_ret. rewrite app_nil_r. reflexivity.
Qed.

Lemma io_bind_ret_l {A B} (a : A) (k : A -> io B) : io_bind (io_ret a) k = k a.
Proof. unfold io_bind, io_ret. destruct (k a). reflexivity. Qed.

Lemma io_bind_assoc {A B C} (m : io A) (k : A -> io B) (h : B -> io C) :
  io_bind (io_bind m k) h = io_bind m (fun a => io_bind (k a) h).
Proof.
  unfold io_bind. destruct m as [o [a|e]]; [| reflexivity].
  destruct (k a) as [o1 [b|e1]]; [| reflexivity].
  destruct (h b) as [o2 r]. rewrite app_assoc. reflexivity.
Qed.

Lemma print_queue_as_bind ptt oo pit e node queue :
  print_queue ptt oo pit e (node :: queue) =
  io_bind (visit node ptt oo pit e queue) (print_queue ptt oo pit e).
Proof.
  rewrite print_queue_cons. unfold io_bind.
  destruct (visit node ptt oo pit e queue) as [out [q|err]]; reflexivity.
Qed.

(** Printing a queue is printing its front part, then the rest. *)
Lemma print_queue_app ptt oo pit e q1 :
  forall q2,
    print_queue ptt oo pit e (q1 ++ q2) =
    io_bind (print_queue ptt oo pit e q1)
      (fun _ => print_queue ptt oo pit e q2).
Proof.
  remember (queue_size q1) as m eqn:Hm.
  revert q1 Hm. induction m as [m IH] using lt_wf_ind. intros q1 Hm q2.
  destruct q1 as [|node q].
  - simp print_queue. rewrite io_bind_ret_l. reflexivity.
  - simpl app. rewrite !print_queue_as_bind.
    rewrite (visit_frame node ptt oo pit e (q ++ q2)).
    rewrite (visit_frame node ptt oo pit e q).
    destruct (visit node ptt oo pit e []) as [out [cs|err]] eqn:E;
      [| reflexivity].
    assert (Hlt : queue_size (cs ++ q) < m).
    { subst m. apply (visit_decreases node ptt oo pit e q out).
      rewrite visit_frame, E. reflexivity. }
    rewrite app_assoc, io_bind_assoc.
    unfold io_bind at 1 3.
    rewrite (IH _ Hlt (cs ++ q) eq_refl q2). reflexivity.
Qed.

Lemma print_queue_for_each ptt oo pit e queue :
  print_queue ptt oo pit e queue
  = for_each (fun r => print_forest r ptt oo pit e) queue.
Proof.
  induction queue as [|r queue IH]; simpl.
  - simp print_queue. reflexivity.
  - change (r :: queue) with ([r] ++ queue).
    rewrite print_queue_app, IH. reflexivity.
Qed.

(** X12.  The loop of [print_forest] walks depth first: what it prints
    for a queue is what it prints for each tree of the queue in turn, and
    what it prints for a tree is the output of the turn on the root,
    followed by what it prints for each tree the turn put on the queue
    (the children in ascending key order, or none when the root is
    skipped).  An exception ends the output where it is raised. *)
Theorem print_forest_is_depth_first
  (package_to_target : dict (list string)) (outcome_of : dict outcome)
  (print_individual_targets expand : bool) :
  (forall queue,
      print_queue package_to_target outcome_of print_individual_targets
        expand queue
      = for_each (fun r => print_forest r package_to_target outcome_of
                             print_individual_targets expand) queue) /\
  (forall r,
      print_forest r package_to_target outcome_of print_individual_targets
        expand
      = (to_visit <~ visit r package_to_target outcome_of
                       print_individual_targets expand [] ;;
         for_each (fun c => print_forest c package_to_target outcome_of
                              print_individual_targets expand) to_visit)) /\
  (forall r out to_visit,
      visit r package_to_target outcome_of print_individual_targets expand []
      = (out, Ok to_visit) ->
      to_visit = sorted package (children r) \/
      (to_visit = [] /\ out = [] /\ expand = false)).
Proof.
  split; [| split].
  - intros queue. apply print_queue_for_each.
  - intros r. unfold print_forest at 1. rewrite print_queue_as_bind.
    unfold io_bind.
    destruct (visit r package_to_target outcome_of print_individual_targets
                expand []) as [out [cs|err]]; [| reflexivity].
    rewrite print_queue_for_each. reflexivity.
  - intros r out to_visit H. unfold visit in H.
    apply io_bind_Ok in H. destruct H as (o & f & o' & Hm & H & ->).
    unfold lift in Hm. injection Hm as <- _.
    destruct (lt_one f || expand) eqn:Hshown.
    + left.
      apply io_bind_Ok in H. destruct H as (o1 & g & o2 & _ & H & _).
      apply io_bind_Ok in H. destruct H as (o3 & u & o4 & _ & H & _).
      apply io_bind_Ok in H. destruct H as (o5 & u' & o6 & _ & H & _).
      injection H as _ <-. apply app_nil_r.
    + right. injection H as <- <-.
      apply orb_false_iff in Hshown. destruct Hshown as [_ ->]. auto.
Qed.

Lemma print_forest_is_depth_first_witness :
  [mkNode "//a/b" 1 [] 1 1 1 1]
  = sorted package (children (mkNode "//a" 0 [mkNode "//a/b" 1 [] 1 1 1 1]
                                1 1 2 2)) \/
  ([mkNode "//a/b" 1 [] 1 1 1 1] = [] /\
   [PackageLine tee "//a" (1 # 1) 1 1] = [] /\ true = false).
Proof.
  apply (proj2 (proj2 (print_forest_is_depth_first
                         [("//a", ["//a:x"]); ("//a/b", ["//a/b:z"])]
                         [("//a:x", Some "success");
                          ("//a/b:z", Some "success")] false true))
           (mkNode "//a" 0 [mkNode "//a/b" 1 [] 1 1 1 1] 1 1 2 2)).
  reflexivity.
Defined.

Lemma lt_one_truediv a b f :
  truediv a b = Ok f -> lt_one f = (a <? b).
Proof.
  destruct b as [|b]; [discriminate |]. intros H.
  assert (E : f = Z.of_nat a # Pos.of_nat (S b))
    by (unfold truediv in H; congruence).
  subst f. unfold lt_one, Qle_bool. cbn [Qnum Qden].
  rewrite Z.mul_1_l, Z.mul_1_r.
  rewrite <- Pos.of_nat_succ, Zpos_P_of_succ_nat, <- Nat2Z.inj_succ.
  destruct (Nat.ltb_spec a (S b)); destruct (Z.leb_spec (Z.of_nat (S b))
                                              (Z.of_nat a)); simpl; lia.
Qed.

(** The skip test of [print_forest] compares the float held for the
    quotient with 1; below 2^53 targets the exact quotient compares with
    1 the same way. *)
Lemma binary64_lt_one a b f :
  (Z.of_nat b < 2 ^ 53)%Z ->
  truediv a b = Ok f -> lt_one (binary64 f) = lt_one f.
Proof.
  intros Hb H. rewrite (lt_one_truediv _ _ _ H).
  destruct b as [|b]; [discriminate |].
  assert (E : f = Z.of_nat a # Pos.of_nat (S b))
    by (unfold truediv in H; congruence).
  assert (Ed : Zpos (Pos.of_nat (S b)) = Z.of_nat (S b)).
  { rewrite <- Pos.of_nat_succ, Zpos_P_of_succ_nat, <- Nat2Z.inj_succ.
    reflexivity. }
  unfold lt_one.
  destruct (Nat.ltb_spec a (S b)) as [Hlt | Hge].
  - (* below 1 *)
    assert (G : ~ (1 <= binary64 f)%Q); [| destruct (Qle_bool 1 (binary64 f))
      eqn:T; [apply Qle_bool_iff in T; contradiction | reflexivity]].
    destruct (Qlt_le_dec 0 f) as [Hpos | Hnp].
    + destruct (binary64_spec f Hpos)
        as (m & e & -> & Hlo & _ & _ & E1 & _). cbv zeta in *.
      set (c := (1 # Pos.of_nat (S b))%Q).
      assert (Hq : (f + c <= 1)%Q).
      { subst f. unfold c, Qle, Qplus. cbn [Qnum Qden].
        rewrite Pos2Z.inj_mul, Ed. nia. }
      assert (Hc : ((1 # 2 ^ 53) < c)%Q).
      { unfold c, Qlt. cbn [Qnum Qden]. rewrite Ed.
        change (Zpos (2 ^ 53)) with (2 ^ 53)%Z. lia. }
      assert (He : (e < 0)%Z).
      { destruct (Z.lt_ge_cases e 0) as [He | He]; [exact He | exfalso].
        pose proof (Qpower_1_le 2 e ltac:(discriminate) He) as H1.
        assert (Hc0 : (0 < c)%Q) by reflexivity. lra. }
      assert (Hu : (2 ^ (e - 52) <= 2 ^ (- 53))%Q)
        by (apply Qpower_le_compat_l; [lia | discriminate]).
      change (2 ^ (- 53))%Q with (1 # 9007199254740992)%Q in Hu.
      change (1 # 2 ^ 53)%Q with (1 # 9007199254740992)%Q in Hc.
      set (ulp := (2 ^ (e - 52))%Q) in *.
      assert (Hu0 : (0 < ulp)%Q) by (apply Qpower_0_lt; reflexivity).
      set (x := (inject_Z m * ulp)%Q) in *.
      intros Hx. lra.
    + rewrite (binary64_nonpos f Hnp). intros Hx.
      apply (Qlt_not_le 0 1); [reflexivity | exact Hx].
  - (* at least 1 *)
    assert (Hf : (1 <= f)%Q).
    { subst f. unfold Qle. cbn [Qnum Qden]. rewrite Ed. lia. }
    assert (Hpos : (0 < f)%Q) by lra.
    destruct (binary64_spec f Hpos)
      as (m & e & -> & _ & Hhi & [Hm _] & _). cbv zeta in *.
    assert (He : (0 <= e)%Z).
    { assert (H1 : (2 ^ 0 < 2 ^ (e + 1))%Q)
        by (change (2 ^ 0)%Q with 1%Q; lra).
      apply (Qpower_lt_compat_l_inv 2 0 (e + 1)) in H1; [lia | reflexivity]. }
    assert (G : (1 <= inject_Z m * 2 ^ (e - 52))%Q).
    { assert (H52 : (inject_Z (2 ^ 52) * 2 ^ (e - 52) == 2 ^ e)%Q).
      { rewrite <- (pow2_inject 52) by lia.
        rewrite <- (Qpower_plus 2 _ _ two_nonzero). f_equiv. lia. }
      pose proof (Qpower_1_le 2 e ltac:(discriminate) He) as H1.
      assert (Hmq : (inject_Z (2 ^ 52) <= inject_Z m)%Q)
        by (unfold Qle, inject_Z; cbn [Qnum Qden]; lia).
      assert (Hu0 : (0 <= 2 ^ (e - 52))%Q)
        by (apply Qpower_0_le; discriminate).
      pose proof (Qmult_le_compat_r _ _ _ Hmq Hu0) as Hmul.
      rewrite H52 in Hmul. lra. }
    apply Qle_bool_iff in G. rewrite G. reflexivity.
Qed.

Lemma printed_packages_app o1 o2 :
  printed_packages (o1 ++ o2) = printed_packages o1 ++ printed_packages o2.
Proof. unfold printed_packages. apply flat_map_app. Qed.

Lemma for_each_print_target_lines indentation oo e ts out r :
  for_each (print_target indentation oo e) ts = (out, r) ->
  printed_packages out = [].
Proof.
  revert out r. induction ts as [|t ts IH]; intros out r; simpl.
  - intros H. injection H as <- _. reflexivity.
  - unfold io_bind at 1.
    destruct (print_target indentation oo e t) as [o1 [[]|e1]] eqn:E1.
    + destruct (for_each (print_target indentation oo e) ts) as [o2 r2] eqn:E2.
      intros H. injection H as <- _. rewrite printed_packages_app.
      rewrite (IH _ _ eq_refl), app_nil_r.
      unfold print_target, io_bind, lift, getitem in E1.
      destruct (get oo t) as [o|]; [| discriminate].
      destruct (is_success o && e || negb (is_success o));
        injection E1 as <-; reflexivity.
    + intros H. injection H as <- _.
      unfold print_target, io_bind, lift, getitem in E1.
      destruct (get oo t) as [o|].
      * destruct (is_success o && e || negb (is_success o)); discriminate.
      * injection E1 as <- _. reflexivity.
Qed.

(** The turn on a node with non-zero divisors and known targets: the
    line of the node when the rule shows it, nothing otherwise. *)
Lemma visit_shown node ptt oo pit e :
  has_targets node -> targets_known ptt oo node ->
  exists out,
    visit node ptt oo pit e []
    = (out, Ok (if shown e node then sorted package (children node) else []))
    /\ printed_packages out = if shown e node then [package node] else [].
Proof.
  intros [Hp Hs] Hk. unfold visit.
  destruct (truediv_defined (subtree_num_successes node) _ Hs) as [f Hf].
  destruct (truediv_defined (package_num_successes node) _ Hp) as [g Hg].
  rewrite Hf, Hg. unfold shown. rewrite <- (lt_one_truediv _ _ _ Hf).
  unfold lift, io_bind at 1.
  destruct (lt_one f || e); [| eexists; split; reflexivity].
  assert (G : exists o,
             (if e && pit
              then for_each (print_target (bars (depth node) ++ tee) oo e)
                     (getdefault ptt (package node))
              else io_ret tt) = (o, Ok tt) /\ printed_packages o = []).
  { destruct (e && pit); [| eexists; split; reflexivity].
    destruct (for_each_completes
                (print_target (bars (depth node) ++ tee) oo e)
                (getdefault ptt (package node))) as [o Ho].
    - eapply Forall_impl; [| exact Hk].
      intros t Ht. apply print_target_completes. exact Ht.
    - exists o. split; [exact Ho |].
      eapply for_each_print_target_lines. exact Ho. }
  destruct G as (o & -> & Ho).
  exists (PackageLine (bars (depth node) ++ tee) (package node) g
            (package_num_successes node) (package_num_targets node) :: o).
  split; [unfold io_bind, print, io_ret; rewrite !app_nil_r; reflexivity |].
  simpl. fold (printed_packages o). rewrite Ho. reflexivity.
Qed.

Lemma for_each_printed {A} (body : A -> io unit) (g : A -> list string) xs :
  Forall (fun x => exists out,
              body x = (out, Ok tt) /\
              Permutation (printed_packages out) (g x)) xs ->
  exists out,
    for_each body xs = (out, Ok tt) /\
    Permutation (printed_packages out) (flat_map g xs).
Proof.
  induction 1 as [|x xs (o & Hx & Hp) _ (os & Hxs & Hps)]; simpl.
  - exists []. split; [reflexivity | constructor].
  - unfold io_bind. rewrite Hx, Hxs. eexists. split; [reflexivity |].
    rewrite printed_packages_app. apply Permutation_app; assumption.
Qed.

Lemma map_filter_flat_map {A B C} (f : B -> C) (p : B -> bool)
  (g : A -> list B) l :
  map f (filter p (flat_map g l))
  = flat_map (fun x => map f (filter p (g x))) l.
Proof.
  induction l as [|x l IH]; simpl; [reflexivity |].
  rewrite filter_app, map_app, IH. reflexivity.
Qed.

(** What [print_forest] prints for a tree, when the nodes the rule hides
    only have hidden nodes below them: one package line for each node
    the rule shows. *)
Lemma print_forest_shown ptt oo pit e r :
  Forall (fun n => has_targets n /\ targets_known ptt oo n) (nodes r) ->
  Forall (fun n => shown e n = false ->
                   Forall (fun m => shown e m = false) (nodes n)) (nodes r) ->
  exists out,
    print_forest r ptt oo pit e = (out, Ok tt) /\
    Permutation (printed_packages out)
      (map package (filter (shown e) (nodes r))).
Proof.
  induction r as [r IH] using PackageTreeNode_ind.
  intros Hall Hclosed.
  rewrite nodes_eq in Hall, Hclosed.
  inversion Hall as [|? ? [Ht Hk] Hall']; subst.
  inversion Hclosed as [|? ? Hr Hclosed']; subst.
  apply Forall_flat_map in Hall', Hclosed'.
  destruct (visit_shown r ptt oo pit e Ht Hk) as (o & Hv & Hpo).
  unfold print_forest. rewrite print_queue_as_bind, Hv.
  destruct (shown e r) eqn:Hs.
  - destruct (for_each_printed
                (fun c => print_forest c ptt oo pit e)
                (fun c => map package (filter (shown e) (nodes c)))
                (sorted package (children r))) as (os & Hos & Hpos).
    { eapply Permutation_Forall; [symmetry; apply sorted_perm |].
      rewrite Forall_forall in *. intros c Hc.
      apply (IH c Hc); [apply (Hall' c Hc) | apply (Hclosed' c Hc)]. }
    unfold io_bind. rewrite print_queue_for_each, Hos.
    eexists. split; [reflexivity |].
    rewrite printed_packages_app, Hpo, Hpos.
    rewrite nodes_eq. simpl. rewrite Hs. simpl. apply perm_skip.
    rewrite map_filter_flat_map.
    apply Permutation_flat_map. apply sorted_perm.
  - simp print_queue. unfold io_bind, io_ret.
    eexists. split; [reflexivity |].
    rewrite app_nil_r, Hpo.
    specialize (Hr eq_refl).
    assert (G : filter (shown e) (nodes r) = []).
    { clear -Hr. induction Hr as [|x l Hx _ IHl]; simpl; [reflexivity |].
      rewrite Hx. exact IHl. }
    rewrite G. constructor.
Qed.

(** X13.  With [expand] set, on a tree whose divisors are non-zero and
    whose targets all have an outcome, [print_forest] runs to its end and
    prints exactly one package line for every node of the tree. *)
Theorem expand_prints_every_package (r : PackageTreeNode)
  (package_to_target : dict (list string)) (outcome_of : dict outcome)
  (print_individual_targets : bool) :
  Forall (fun n => has_targets n /\
                   targets_known package_to_target outcome_of n) (nodes r) ->
  exists out,
    print_forest r package_to_target outcome_of print_individual_targets true
    = (out, Ok tt) /\
    Permutation (printed_packages out) (map package (nodes r)).
Proof.
  intros Hall.
  destruct (print_forest_shown package_to_target outcome_of
              print_individual_targets true r Hall) as (out & Ho & Hp).
  - apply Forall_forall. intros n _ Habs. unfold shown in Habs.
    rewrite orb_true_r in Habs. discriminate.
  - exists out. split; [exact Ho |].
    rewrite Hp. apply Permutation_map.
    assert (G : forall l, filter (shown true) l = l).
    { induction l as [|x l IHl]; simpl; [reflexivity |].
      unfold shown at 1. rewrite orb_true_r, IHl. reflexivity. }
    rewrite G. reflexivity.
Qed.

Lemma expand_prints_every_package_witness :
  exists out,
    print_forest (mkNode "//a" 0 [mkNode "//a/b" 1 [] 1 1 1 1] 1 1 2 2)
      [("//a", ["//a:x"]); ("//a/b", ["//a/b:z"])]
      [("//a:x", Some "success"); ("//a/b:z", Some "success")] false true
    = (out, Ok tt) /\
    Permutation (printed_packages out) ["//a"; "//a/b"].
Proof.
  apply (expand_prints_every_package
           (mkNode "//a" 0 [mkNode "//a/b" 1 [] 1 1 1 1] 1 1 2 2)).
  repeat constructor; simpl; discriminate.
Defined.

(** X14.  With [expand] unset, on an aggregated tree each of whose
    packages owns a target, [print_forest] runs to its end and prints
    exactly one package line for every node whose subtree success count
    is below its subtree target count, and none for any other node. *)
Theorem collapsed_report_lists_incomplete_packages
  (r0 r : PackageTreeNode) (package_to_target : dict (list string))
  (outcome_of : dict outcome) (print_individual_targets : bool) :
  (forall n, In n (nodes r0) ->
             getdefault package_to_target (package n) <> []) ->
  compute_counts r0 package_to_target outcome_of = Ok r ->
  exists out,
    print_forest r package_to_target outcome_of print_individual_targets false
    = (out, Ok tt) /\
    Permutation (printed_packages out)
      (map package
         (filter (fun n => subtree_num_successes n <? subtree_num_targets n)
            (nodes r))).
Proof.
  intros Hown H.
  destruct (compute_counts_nodes _ _ _ _ H) as [Hc Hpk].
  assert (Hpos : Forall (fun n =>
                           1 <= package_num_targets n /\
                           package_num_targets n <= subtree_num_targets n /\
                           package_num_successes n <= subtree_num_successes n)
                   (forest_nodes [r])).
  { apply (counted_positive [r0] [r] package_to_target outcome_of).
    - intros n Hn. apply Hown. unfold forest_nodes in Hn. simpl in Hn.
      rewrite app_nil_r in Hn. exact Hn.
    - simpl. rewrite H. reflexivity. }
  unfold forest_nodes in Hpos. simpl in Hpos. rewrite app_nil_r in Hpos.
  destruct (print_forest_shown package_to_target outcome_of
              print_individual_targets false r) as (out & Ho & Hp).
  - apply Forall_forall. intros n Hn. split.
    + rewrite Forall_forall in Hpos.
      destruct (Hpos n Hn) as (H1 & H2 & _). unfold has_targets. lia.
    + assert (Hk : In (package n) (map package (nodes r0)))
        by (rewrite <- Hpk; apply in_map; exact Hn).
      apply in_map_iff in Hk. destruct Hk as (n0 & Hpn & Hn0).
      unfold targets_known. rewrite <- Hpn. apply Forall_forall.
      intros t Ht. apply (compute_counts_known _ _ _ _ H n0 t Hn0 Ht).
  - apply Forall_forall. intros n Hn Hs.
    assert (Hsub : Forall (node_counted package_to_target outcome_of)
                     (nodes n)).
    { rewrite Forall_forall in *. intros x Hx. apply Hc.
      apply (nodes_subtree _ _ Hn x Hx). }
    pose proof (counted_success_le _ _ _ Hsub) as Hle.
    unfold shown in Hs. rewrite orb_false_r in Hs.
    apply Nat.ltb_ge in Hs.
    eapply Forall_impl;
      [| apply (fully_successful_subtree _ _ _ Hsub); lia].
    intros m Hm. simpl in Hm. unfold shown. rewrite orb_false_r.
    apply Nat.ltb_ge. rewrite Hm. apply Nat.le_refl.
  - exists out. split; [exact Ho |]. rewrite Hp.
    apply Permutation_map.
    assert (G : forall l,
               filter (shown false) l
               = filter (fun n => subtree_num_successes n
                                  <? subtree_num_targets n) l).
    { intros l. apply filter_ext. intros x. unfold shown.
      apply orb_false_r. }
    rewrite G. reflexivity.
Qed.

Lemma collapsed_report_lists_incomplete_packages_witness :
  exists out,
    print_forest
      (mkNode "//a" 0 [mkNode "//a/b" 1 [] 0 1 0 1;
                       mkNode "//a/c" 1 [] 1 1 1 1] 1 1 2 3)
      [("//a", ["//a:x"]); ("//a/b", ["//a/b:z"]); ("//a/c", ["//a/c:w"])]
      [("//a:x", Some "success"); ("//a/b:z", None);
       ("//a/c:w", Some "success")] false false
    = (out, Ok tt) /\
    Permutation (printed_packages out) ["//a"; "//a/b"].
Proof.
  apply (collapsed_report_lists_incomplete_packages
           (mkNode "//a" 0 [new_node "//a/b" 1; new_node "//a/c" 1] 0 0 0 0)).
  - intros n [<- | [<- | [<- | []]]]; discriminate.
  - reflexivity.
Defined.

(** X15.  In single-package mode with [expand] set, the turn on a node
    prints the package line and then one line for every target of the
    package, successful or not, in the order of the grouping, each with
    its outcome.  If a target has no outcome, the lines of the targets
    before it are printed and the [KeyError] of that target is raised. *)
Theorem expand_lists_every_target (node : PackageTreeNode)
  (package_to_target : dict (list string)) (outcome_of : dict outcome)
  (queue : list PackageTreeNode) :
  has_targets node ->
  let indentation := (bars (depth node) ++ tee)%string in
  let target_line t := TargetLine indentation t (outcome_at outcome_of t) in
  exists fraction,
    truediv (package_num_successes node) (package_num_targets node)
    = Ok fraction /\
    (targets_known package_to_target outcome_of node ->
     visit node package_to_target outcome_of true true queue
     = (PackageLine indentation (package node) fraction
          (package_num_successes node) (package_num_targets node)
        :: map target_line (getdefault package_to_target (package node)),
        Ok (sorted package (children node) ++ queue))) /\
    (forall known t rest,
        getdefault package_to_target (package node) = known ++ t :: rest ->
        Forall (fun t => contains outcome_of t = true) known ->
        contains outcome_of t = false ->
        visit node package_to_target outcome_of true true queue
        = (PackageLine indentation (package node) fraction
             (package_num_successes node) (package_num_targets node)
           :: map target_line known,
           Error (KeyError t))).
Proof.
  intros [Hp Hs] indentation target_line.
  destruct (truediv_defined (subtree_num_successes node) _ Hs) as [f Hf].
  destruct (truediv_defined (package_num_successes node) _ Hp) as [g Hg].
  exists g. split; [exact Hg |]. split.
  - intros Hk. unfold visit. rewrite Hf, Hg.
    unfold lift, io_bind at 1. rewrite orb_true_r.
    fold indentation. simpl andb. cbv iota.
    rewrite (for_each_print_target_expand indentation _ _ Hk).
    unfold io_bind, print, io_ret. simpl. rewrite ?app_nil_r. reflexivity.
  - intros known t rest Hts Hknown Hmiss. unfold visit. rewrite Hf, Hg.
    unfold lift, io_bind at 1. rewrite orb_true_r.
    fold indentation. simpl andb. cbv iota. rewrite Hts.
    assert (G : for_each (print_target indentation outcome_of true)
                  (known ++ t :: rest)
                = (map target_line known, Error (KeyError t))).
    { clear -Hknown Hmiss.
      induction Hknown as [|x l Hx _ IH]; simpl.
      - unfold io_bind. rewrite (print_target_missing _ _ _ _ Hmiss).
        reflexivity.
      - unfold io_bind. rewrite (print_target_expand _ _ _ Hx).
        unfold io_bind in IH. rewrite IH. reflexivity. }
    rewrite G. unfold io_bind, print, io_ret. simpl.
    rewrite ?app_nil_r. reflexivity.
Qed.

Lemma expand_lists_every_target_witness :
  visit (mkNode "//a" 0 [] 1 2 1 2) [("//a", ["//a:x"; "//a:y"])]
    [("//a:x", Some "success"); ("//a:y", Some "boom")] true true []
  = ([PackageLine tee "//a" (1 # 2) 1 2;
      TargetLine tee "//a:x" (Some "success");
      TargetLine tee "//a:y" (Some "boom")], Ok []).
Proof.
  destruct (expand_lists_every_target (mkNode "//a" 0 [] 1 2 1 2)
              [("//a", ["//a:x"; "//a:y"])]
              [("//a:x", Some "success"); ("//a:y", Some "boom")] [])
    as (fraction & Hfr & H & _).
  - split; discriminate.
  - injection Hfr as <-. apply H. repeat constructor.
Defined.

(** *** Before the counts are computed *)

Lemma insert_node_into_tree_zero k root :
  Forall counters_zero (nodes root) ->
  Forall counters_zero (nodes (insert_node_into_tree root (new_node k 0))).
Proof.
  induction root as [root IH] using PackageTreeNode_ind.
  rewrite insert_node_into_tree_eq. simpl (package (new_node k 0)).
  rewrite (nodes_eq root). intros H. inversion H as [|? ? Hr Hcs]; subst.
  destruct (first_match_cases
              (fun child => startswith k (package child))
              (fun child => insert_node_into_tree child (new_node k 0))
              (children root))
    as [(pre & x & post & Hch & _ & _ & ->) | [_ ->]].
  - rewrite nodes_eq. simpl. constructor; [exact Hr |].
    rewrite Hch in Hcs, IH. rewrite flat_map_app in *. simpl in *.
    apply Forall_app in Hcs. destruct Hcs as [H1 H2].
    apply Forall_app in H2. destruct H2 as [H2 H3].
    apply Forall_app in IH. destruct IH as [_ IH]. inversion IH; subst.
    apply Forall_app. split; [exact H1 |].
    apply Forall_app. split; [auto | exact H3].
  - rewrite nodes_eq. simpl. constructor; [exact Hr |].
    rewrite flat_map_app. apply Forall_app. split; [exact Hcs |].
    simpl. repeat constructor.
Qed.

Lemma build_package_forest_zero package_lst :
  Forall counters_zero (forest_nodes (build_package_forest package_lst)).
Proof.
  unfold build_package_forest.
  assert (G : forall roots,
             Forall counters_zero (forest_nodes roots) ->
             Forall counters_zero
               (forest_nodes
                  (fold_left
                     (fun result package =>
                        insert_node_into_forest result (new_node package 0))
                     package_lst roots))).
  { induction package_lst as [|k l IH]; intros roots H; simpl; [exact H |].
    apply IH. unfold insert_node_into_forest, forest_nodes in *.
    simpl (package (new_node k 0)).
    destruct (first_match_cases
                (fun root => startswith k (package root))
                (fun root => insert_node_into_tree root (new_node k 0))
                roots)
      as [(pre & x & post & -> & _ & _ & ->) | [_ ->]].
    - rewrite flat_map_app in *. simpl in *.
      apply Forall_app in H. destruct H as [H1 H2].
      apply Forall_app in H2. destruct H2 as [H2 H3].
      apply Forall_app. split; [exact H1 |].
      apply Forall_app. split; [| exact H3].
      apply insert_node_into_tree_zero. exact H2.
    - rewrite flat_map_app. apply Forall_app. split; [exact H |].
      simpl. repeat constructor. }
  apply G. constructor.
Qed.

(** X16.  Every node of a forest just built has its four counters at
    zero, so [print_forest] called on one of its roots before
    [compute_counts] raises [ZeroDivisionError] without printing. *)
Theorem print_forest_before_compute_counts (package_lst : list string)
  (package_to_target : dict (list string)) (outcome_of : dict outcome)
  (print_individual_targets expand : bool) :
  Forall counters_zero (forest_nodes (build_package_forest package_lst)) /\
  (forall r,
      In r (build_package_forest package_lst) ->
      print_forest r package_to_target outcome_of print_individual_targets
        expand
      = ([], Error ZeroDivisionError)).
Proof.
  pose proof (build_package_forest_zero package_lst) as Hz.
  split; [exact Hz |]. intros r Hr.
  assert (Hr0 : counters_zero r).
  { rewrite Forall_forall in Hz. apply Hz. unfold forest_nodes.
    apply in_flat_map. exists r. split; [exact Hr |].
    rewrite nodes_eq. left. reflexivity. }
  destruct Hr0 as (_ & _ & _ & Hst).
  unfold print_forest. rewrite print_queue_cons. unfold visit.
  rewrite Hst. reflexivity.
Qed.

Lemma print_forest_before_compute_counts_witness :
  print_forest (new_node "//a" 0) [] [] true true
  = ([], Error ZeroDivisionError).
Proof.
  apply (proj2 (print_forest_before_compute_counts ["//a"]
                  [] [] true true)).
  left. reflexivity.
Defined.

(** ** Further properties of the main program *)

Lemma group_targets_total outcome_of :
  Forall (fun t => exists package, get_package t = Ok package)
    (keys outcome_of) ->
  exists package_to_targets, group_targets outcome_of = Ok package_to_targets.
Proof.
  unfold group_targets. intros H.
  assert (G : forall d : dict (list string), exists d',
             foldM (fun ptt target =>
                      package <- get_package target ;;
                      Ok (append_target ptt package target))
               (keys outcome_of) d = Ok d').
  { induction H as [|t ts [p Hp] _ IH]; intros d; simpl.
    - eexists. reflexivity.
    - rewrite Hp. simpl. apply IH. }
  apply G.
Qed.



Lemma count_all {A} (p : A -> bool) xs :
  count p xs = List.length xs <-> Forall (fun x => p x = true) xs.
Proof.
  unfold count. induction xs as [|x xs IH]; simpl.
  - split; [constructor | reflexivity].
  - pose proof (filter_length_le p xs) as Hle.
    destruct (p x) eqn:E; simpl; split.
    + intros H. constructor; [exact E | apply IH; lia].
    + intros H. inversion H; subst. f_equal. apply IH. assumption.
    + intros H. lia.
    + intros H. inversion H; subst. congruence.
Qed.

(** X18.  The overall percentage is undefined exactly on the empty
    outcome map, where its computation raises [ZeroDivisionError];
    otherwise it lies between 0 and 100, and it is 100 exactly when the
    outcome of every target is [success]. *)
Theorem overall_percentage_range (outcome_of : dict outcome) :
  (outcome_of = [] ->
   overall_percentage outcome_of = Error ZeroDivisionError) /\
  (outcome_of <> [] ->
   exists percentage,
     overall_percentage outcome_of = Ok percentage /\
     (0 <= percentage)%Q /\ (percentage <= 100)%Q /\
     ((percentage == 100)%Q <->
      Forall (fun o => is_success o = true) (values outcome_of))).
Proof.
  split; [intros ->; reflexivity |].
  intros Hne. unfold overall_percentage.
  set (s := count is_success (values outcome_of)).
  assert (Hlen : List.length outcome_of
                 = List.length (values outcome_of))
    by (unfold values; symmetry; apply length_map).
  assert (Hs : s <= List.length outcome_of)
    by (rewrite Hlen; apply count_le).
  destruct (List.length outcome_of) as [|n] eqn:En;
    [destruct outcome_of; [congruence | discriminate] |].
  exists ((Z.of_nat s # Pos.of_nat (S n)) * 100)%Q.
  split; [reflexivity |].
  assert (Hn : Z.pos (Pos.of_nat (S n)) = Z.of_nat (S n)).
  { rewrite <- Pos.of_nat_succ, Zpos_P_of_succ_nat, <- Nat2Z.inj_succ.
    reflexivity. }
  split; [| split; [| split]].
  - unfold Qle. cbn [Qnum Qden Qmult]. lia.
  - unfold Qle. cbn [Qnum Qden Qmult]. rewrite Pos2Z.inj_mul, Hn. lia.
  - unfold Qeq. cbn [Qnum Qden Qmult]. rewrite Pos2Z.inj_mul, Hn.
    intros H. apply count_all. fold s. rewrite <- Hlen. lia.
  - intros H. apply count_all in H. fold s in H. rewrite <- Hlen in H.
    unfold Qeq. cbn [Qnum Qden Qmult]. rewrite Pos2Z.inj_mul, Hn. lia.
Qed.

Lemma overall_percentage_range_witness :
  exists percentage,
    overall_percentage [("//a:x", Some "success"); ("//a:y", None)]
    = Ok percentage /\
    (0 <= percentage)%Q /\ (percentage <= 100)%Q.
Proof.
  destruct (proj2 (overall_percentage_range
                     [("//a:x", Some "success"); ("//a:y", None)]))
    as (p & H1 & H2 & H3 & _).
  - discriminate.
  - exists p. repeat split; assumption.
Defined.

(** X19.  The list the main program hands to [build_package_forest] is
    the arrangement of the distinct package keys in ascending order. *)
Theorem main_passes_ascending_keys (outcome_of : dict outcome)
  (package_to_targets : dict (list string)) :
  group_targets outcome_of = Ok package_to_targets ->
  ascending (sorted (fun k => k) (keys package_to_targets)) /\
  Permutation (sorted (fun k => k) (keys package_to_targets))
    (keys package_to_targets) /\
  NoDup (sorted (fun k => k) (keys package_to_targets)).
Proof.
  intros H. destruct (group_targets_partition _ _ H) as [Hnd _].
  split; [apply sorted_ascending; exact Hnd |].
  split; [apply sorted_perm |].
  eapply Permutation_NoDup; [symmetry; apply sorted_perm | exact Hnd].
Qed.

Lemma main_passes_ascending_keys_witness :
  ascending
    (sorted (fun k => k) (keys [("//b", ["//b:y"]); ("//a", ["//a:x"])])).
Proof.
  apply (main_passes_ascending_keys [("//b:y", None); ("//a:x", None)]
           [("//b", ["//b:y"]); ("//a", ["//a:x"])]).
  reflexivity.
Defined.

Lemma NoDup_all_equal {A} (l : list A) :
  NoDup l -> (forall x y, In x l -> In y l -> x = y) -> List.length l <= 1.
Proof.
  intros Hnd Heq. destruct l as [|a [|b l]]; simpl; try lia.
  exfalso. inversion Hnd as [|? ? Ha _]; subst. apply Ha.
  rewrite (Heq a b); simpl; auto.
Qed.

Lemma short_all_equal {A} (l : list A) x y :
  List.length l <= 1 -> In x l -> In y l -> x = y.
Proof.
  destruct l as [|a [|b l]]; simpl; intros Hlen Hx Hy.
  - destruct Hx.
  - destruct Hx as [Hx | []], Hy as [Hy | []]. congruence.
  - lia.
Qed.

(** Every label is filed under the key its package names. *)
Lemma label_filed outcome_of package_to_targets t :
  group_targets outcome_of = Ok package_to_targets ->
  In t (keys outcome_of) ->
  exists k, In k (keys package_to_targets) /\ get_package t = Ok k.
Proof.
  intros Hg Ht.
  destruct (group_targets_partition _ _ Hg) as [Hnd Hperm].
  apply (Permutation_in _ (Permutation_sym Hperm)) in Ht.
  apply in_concat in Ht. destruct Ht as (v & Hv & Ht).
  rewrite <- (values_by_key _ Hnd) in Hv.
  apply in_map_iff in Hv. destruct Hv as (k & <- & Hk).
  exists k. split; [exact Hk |].
  apply (group_targets_own_package _ _ Hg k t Ht).
Qed.

(** Every key of the grouping is the package of some label. *)
Lemma key_has_label outcome_of package_to_targets k :
  group_targets outcome_of = Ok package_to_targets ->
  In k (keys package_to_targets) ->
  exists t, In t (keys outcome_of) /\ get_package t = Ok k.
Proof.
  intros Hg Hk.
  destruct (group_targets_partition _ _ Hg) as [Hnd Hperm].
  pose proof (group_targets_nonempty _ _ Hg) as Hne.
  pose proof (getdefault_key _ _ Hk) as Hv.
  rewrite Forall_forall in Hne. specialize (Hne _ Hv).
  destruct (getdefault package_to_targets k) as [|t ts] eqn:E;
    [congruence |].
  exists t. split.
  - apply (Permutation_in _ Hperm). apply in_concat.
    exists (t :: ts). split; [exact Hv | left; reflexivity].
  - apply (group_targets_own_package _ _ Hg k t).
    rewrite E. left. reflexivity.
Qed.

(** X20.  The main program lists individual targets (single-package
    mode) exactly when all the labels of the outcome map have the same
    package. *)
Theorem single_package_mode_iff_one_package (outcome_of : dict outcome)
  (package_to_targets : dict (list string)) :
  group_targets outcome_of = Ok package_to_targets ->
  ((List.length (keys package_to_targets) <=? 1) = true <->
   (forall t t',
       In t (keys outcome_of) -> In t' (keys outcome_of) ->
       get_package t = get_package t')).
Proof.
  intros Hg. rewrite Nat.leb_le. split.
  - intros Hlen t t' Ht Ht'.
    destruct (label_filed _ _ _ Hg Ht) as (k & Hk & ->).
    destruct (label_filed _ _ _ Hg Ht') as (k' & Hk' & ->).
    f_equal. apply (short_all_equal _ _ _ Hlen Hk Hk').
  - intros Hsame. apply NoDup_all_equal.
    + apply (group_targets_partition _ _ Hg).
    + intros k k' Hk Hk'.
      destruct (key_has_label _ _ _ Hg Hk) as (t & Ht & Hp).
      destruct (key_has_label _ _ _ Hg Hk') as (t' & Ht' & Hp').
      specialize (Hsame t t' Ht Ht'). congruence.
Qed.

Lemma single_package_mode_iff_one_package_witness :
  (List.length (keys [("//a", ["//a:x"; "//a:y"])]) <=? 1) = true.
Proof.
  apply (single_package_mode_iff_one_package
           [("//a:x", Some "success"); ("//a:y", Some "boom")]
           [("//a", ["//a:x"; "//a:y"])] eq_refl).
  intros t t' [<- | [<- | []]] [<- | [<- | []]]; reflexivity.
Defined.

(** The report, once the grouping, the aggregation and the percentage are
    known to return. *)
Lemma report_unfold outcome_of package_to_targets all_roots percentage
  expand :
  group_targets outcome_of = Ok package_to_targets ->
  mapM (fun r => compute_counts r package_to_targets outcome_of)
    (build_package_forest (sorted (fun k => k) (keys package_to_targets)))
  = Ok all_roots ->
  overall_percentage outcome_of = Ok percentage ->
  report outcome_of expand =
  let (lines, r) :=
    for_each (fun r => print_forest r package_to_targets outcome_of
                         (List.length (keys package_to_targets) <=? 1)
                         expand)
      (sorted package all_roots) in
  match r with
  | Ok _ => (Blank :: lines ++ [Blank; OverallLine percentage], Ok tt)
  | Error err => (Blank :: lines, Error err)
  end.
Proof.
  intros Hg E Hp. unfold report. rewrite Hg.
  unfold lift at 1, io_bind at 1. rewrite E.
  unfold lift at 1, io_bind at 1. unfold print at 1, io_bind at 1.
  unfold io_bind at 1.
  destruct (for_each _ (sorted package all_roots)) as [lines [[]|err]].
  - rewrite Hp. reflexivity.
  - reflexivity.
Qed.

(** Every node of the aggregated forest of the report has non-zero
    divisors and targets with an outcome. *)
Lemma report_nodes_printable outcome_of package_to_targets all_roots :
  group_targets outcome_of = Ok package_to_targets ->
  mapM (fun r => compute_counts r package_to_targets outcome_of)
    (build_package_forest (sorted (fun k => k) (keys package_to_targets)))
  = Ok all_roots ->
  Forall (fun n => has_targets n /\
                   targets_known package_to_targets outcome_of n)
    (forest_nodes all_roots).
Proof.
  intros Hg E.
  set (roots := build_package_forest
                  (sorted (fun k => k) (keys package_to_targets))) in *.
  assert (Hpos := counted_positive roots all_roots package_to_targets
                    outcome_of
                    (fun n Hn => proj1 (report_forest_targets _ _ n Hg Hn))
                    E).
  destruct (forest_counted _ _ _ _ E) as (_ & Hpk & _).
  apply Forall_forall. intros n Hn. split.
  - rewrite Forall_forall in Hpos.
    destruct (Hpos n Hn) as (H1 & H2 & _). unfold has_targets. lia.
  - assert (Hk : In (package n) (map package (forest_nodes roots)))
      by (rewrite <- Hpk; apply in_map; exact Hn).
    apply in_map_iff in Hk. destruct Hk as (n0 & Hpn & Hn0).
    unfold targets_known. rewrite <- Hpn.
    apply (report_forest_targets _ _ n0 Hg Hn0).
Qed.

Lemma overall_percentage_defined outcome_of :
  outcome_of <> [] ->
  exists percentage, overall_percentage outcome_of = Ok percentage.
Proof.
  intros Hne. unfold overall_percentage.
  destruct (truediv_defined (count is_success (values outcome_of))
              (List.length outcome_of)) as [q ->].
  - destruct outcome_of; [congruence | discriminate].
  - eexists. reflexivity.
Qed.

Lemma map_flat_map {A B C} (f : B -> C) (g : A -> list B) l :
  map f (flat_map g l) = flat_map (fun x => map f (g x)) l.
Proof.
  induction l as [|x l IH]; simpl; [reflexivity |].
  rewrite map_app, IH. reflexivity.
Qed.

Lemma filter_all {A} (p : A -> bool) l :
  (forall x, p x = true) -> filter p l = l.
Proof.
  intros H. induction l as [|x l IH]; simpl; [reflexivity |].
  rewrite H, IH. reflexivity.
Qed.

(** The expanded report has one package line for every package key. *)
Lemma report_expand_packages (outcome_of : dict outcome)
  (package_to_targets : dict (list string)) :
  NoDup (keys outcome_of) ->
  outcome_of <> [] ->
  group_targets outcome_of = Ok package_to_targets ->
  exists out,
    report outcome_of true = (out, Ok tt) /\
    Permutation (printed_packages out) (keys package_to_targets).
Proof.
  intros Hnd Hne Hg.
  destruct (report_aggregation _ _ Hnd Hg) as (all_roots & E & _ & _).
  destruct (overall_percentage_defined _ Hne) as [percentage Hp].
  pose proof (report_nodes_printable _ _ _ Hg E) as Hall.
  destruct (forest_counted _ _ _ _ E) as (_ & Hpk & _).
  destruct (for_each_printed
              (fun r => print_forest r package_to_targets outcome_of
                          (List.length (keys package_to_targets) <=? 1)
                          true)
              (fun r => map package (nodes r))
              (sorted package all_roots)) as (lines & Hl & Hperm).
  { apply Forall_forall. intros r Hr.
    destruct (print_forest_shown package_to_targets outcome_of
                (List.length (keys package_to_targets) <=? 1) true r)
      as (out & Ho & Hpo).
    - apply Forall_forall. intros n Hn. rewrite Forall_forall in Hall.
      apply Hall. unfold forest_nodes. apply in_flat_map. exists r.
      split; [| exact Hn].
      eapply Permutation_in; [apply sorted_perm | exact Hr].
    - apply Forall_forall. intros n _ Habs. unfold shown in Habs.
      rewrite orb_true_r in Habs. discriminate.
    - exists out. split; [exact Ho |].
      rewrite filter_all in Hpo; [exact Hpo |].
      intros x. unfold shown. apply orb_true_r. }
  rewrite (report_unfold _ _ _ _ true Hg E Hp), Hl.
  eexists. split; [reflexivity |].
  change (Blank :: lines ++ [Blank; OverallLine percentage])
    with ([Blank] ++ lines ++ [Blank; OverallLine percentage]).
  rewrite !printed_packages_app. simpl. rewrite app_nil_r, Hperm.
  rewrite <- map_flat_map.
  fold (forest_nodes (sorted package all_roots)).
  rewrite (forest_nodes_perm _ _ (sorted_perm package all_roots)).
  rewrite Hpk, build_package_forest_keys. apply sorted_perm.
Qed.

Lemma visit_skipped node ptt oo pit queue :
  subtree_num_targets node <> 0 ->
  subtree_num_targets node <= subtree_num_successes node ->
  visit node ptt oo pit false queue = ([], Ok queue).
Proof.
  intros Hs Hle. unfold visit.
  destruct (truediv_defined (subtree_num_successes node) _ Hs) as [f Hf].
  rewrite Hf. unfold lift, io_bind at 1.
  rewrite (lt_one_truediv _ _ _ Hf).
  apply Nat.ltb_ge in Hle. rewrite Hle. reflexivity.
Qed.

(** X21.  On a non-empty outcome map with distinct labels that all have
    a package, when the outcome of every target is [success] and [expand]
    is unset, the report has no package line: it is a blank line, a blank
    line and the summary line, whose percentage is 100. *)
Theorem successful_build_prints_only_the_summary (outcome_of : dict outcome)
  (package_to_targets : dict (list string)) :
  NoDup (keys outcome_of) ->
  outcome_of <> [] ->
  group_targets outcome_of = Ok package_to_targets ->
  Forall (fun o => is_success o = true) (values outcome_of) ->
  exists percentage,
    report outcome_of false
    = ([Blank; Blank; OverallLine percentage], Ok tt) /\
    (percentage == 100)%Q.
Proof.
  intros Hnd Hne Hg Hall.
  destruct (report_aggregation _ _ Hnd Hg) as (all_roots & E & Hs & Ht).
  destruct (overall_percentage_defined _ Hne) as [percentage Hp].
  pose proof (report_nodes_printable _ _ _ Hg E) as Hpr.
  destruct (forest_counted _ _ _ _ E) as (Hc & _ & _).
  apply count_all in Hall.
  assert (Hlen : List.length (values outcome_of) = List.length outcome_of)
    by (unfold values; apply length_map).
  assert (Hroots : Forall (fun r => subtree_num_successes r
                                    = subtree_num_targets r) all_roots).
  { apply sum_map_eq; [| lia].
    apply Forall_forall. intros r Hr.
    apply (counted_success_le package_to_targets outcome_of).
    rewrite Forall_forall in *. intros n Hn. apply Hc.
    unfold forest_nodes. apply in_flat_map. eauto. }
  assert (Hl : for_each
                 (fun r => print_forest r package_to_targets outcome_of
                             (List.length (keys package_to_targets) <=? 1)
                             false)
                 (sorted package all_roots) = ([], Ok tt)).
  { assert (G : Forall (fun r => print_forest r package_to_targets outcome_of
                                   (List.length (keys package_to_targets)
                                    <=? 1) false = ([], Ok tt))
                  (sorted package all_roots)).
    { eapply Permutation_Forall; [symmetry; apply sorted_perm |].
      apply Forall_forall. intros r Hr.
      unfold print_forest. rewrite print_queue_cons, visit_skipped.
      - simp print_queue. reflexivity.
      - rewrite Forall_forall in Hpr.
        destruct (Hpr r) as [[_ H] _]; [| exact H].
        unfold forest_nodes. apply in_flat_map. exists r.
        split; [exact Hr | rewrite nodes_eq; left; reflexivity].
      - rewrite Forall_forall in Hroots. rewrite (Hroots r Hr).
        apply Nat.le_refl. }
    induction G as [|r rs Hr _ IH]; simpl; [reflexivity |].
    unfold io_bind. rewrite Hr, IH. reflexivity. }
  exists percentage. split.
  - rewrite (report_unfold _ _ _ _ false Hg E Hp), Hl. reflexivity.
  - unfold overall_percentage in Hp.
    destruct (truediv_value (count is_success (values outcome_of))
                (List.length outcome_of)) as (q & Hq & Hval).
    { destruct outcome_of; [congruence | discriminate]. }
    rewrite Hq in Hp. injection Hp as <-.
    rewrite Hval, Hall, Hlen. field.
    destruct outcome_of; [congruence |]. simpl List.length.
    intros H. unfold Qeq in H. cbn [Qnum Qden inject_Z] in H. lia.
Qed.

Lemma successful_build_prints_only_the_summary_witness :
  exists percentage,
    report [("//a:x", Some "success"); ("//a/b:y", Some "success")] false
    = ([Blank; Blank; OverallLine percentage], Ok tt) /\
    (percentage == 100)%Q.
Proof.
  apply (successful_build_prints_only_the_summary
           [("//a:x", Some "success"); ("//a/b:y", Some "success")]
           [("//a", ["//a:x"]); ("//a/b", ["//a/b:y"])]).
  - repeat constructor; simpl; intuition discriminate.
  - discriminate.
  - reflexivity.
  - repeat constructor.
Defined.

(** *** The order of the package lines *)

Lemma insert_sorted_by_key {A} (key : A -> string) x l :
  Sorted (fun a b => String.ltb (key a) (key b) = true) l ->
  ~ In (key x) (map key l) ->
  Sorted (fun a b => String.ltb (key a) (key b) = true)
    (insert_sorted key x l).
Proof.
  induction l as [|y l IH]; intros Hs Hx; simpl.
  - repeat constructor.
  - destruct (String.ltb (key x) (key y)) eqn:E.
    + constructor; [exact Hs | constructor; exact E].
    + inversion Hs as [|? ? Hs' Hhd]; subst.
      assert (Hyx : String.ltb (key y) (key x) = true).
      { apply not_ltb_neq_ltb; [exact E |]. intros Heq. apply Hx. left.
        exact Heq. }
      constructor.
      * apply IH; [exact Hs' | intros H; apply Hx; right; exact H].
      * destruct l as [|z l]; simpl.
        -- constructor. exact Hyx.
        -- inversion Hhd; subst.
           destruct (String.ltb (key x) (key z)); constructor; assumption.
Qed.

(** Sorting elements with distinct keys puts the keys in ascending
    order. *)
Lemma sorted_by_key {A} (key : A -> string) l :
  NoDup (map key l) ->
  Sorted (fun a b => String.ltb (key a) (key b) = true) (sorted key l).
Proof.
  unfold sorted.
  assert (G : forall acc,
             Sorted (fun a b => String.ltb (key a) (key b) = true) acc ->
             NoDup (map key (acc ++ l)) ->
             Sorted (fun a b => String.ltb (key a) (key b) = true)
               (fold_left (fun a x => insert_sorted key x a) l acc)).
  { induction l as [|x l IH]; intros acc Ha Hnd; simpl; [exact Ha |].
    apply IH.
    - apply insert_sorted_by_key; [exact Ha |].
      rewrite map_app in Hnd. simpl in Hnd.
      apply NoDup_remove_2 in Hnd. intros H. apply Hnd.
      apply in_or_app. left. exact H.
    - eapply Permutation_NoDup; [| exact Hnd].
      apply Permutation_map.
      rewrite insert_sorted_perm. symmetry. apply Permutation_middle. }
  intros H. apply G; [constructor | exact H].
Qed.

Lemma siblings_unrelated_distinct siblings :
  siblings_unrelated siblings -> NoDup (map package siblings).
Proof.
  unfold siblings_unrelated.
  induction 1 as [|k ks Hk _ IH]; constructor; [| exact IH].
  intros Hin. rewrite Forall_forall in Hk. destruct (Hk k Hin) as [H _].
  rewrite startswith_refl in H. discriminate.
Qed.

(** A proper prefix of a key is below the key. *)
Lemma proper_prefix_below k a :
  startswith k a = true -> k <> a -> String.ltb a k = true.
Proof.
  intros H Hne. apply not_ltb_neq_ltb; [| congruence].
  apply startswith_not_ltb. exact H.
Qed.

(** Keys that extend two keys in order, the first not a prefix of the
    second, are in the same order. *)
Lemma extensions_in_order a :
  forall b x y,
    String.ltb a b = true -> startswith b a = false ->
    startswith x a = true -> startswith y b = true ->
    String.ltb x y = true.
Proof.
  unfold startswith, String.ltb.
  induction a as [|c a IH]; intros b x y; simpl.
  - destruct b; discriminate.
  - destruct b as [|d b]; [discriminate |].
    destruct x as [|c' x]; [discriminate |].
    destruct y as [|d' y]; simpl; [discriminate |].
    destruct (ascii_dec c c') as [<- |]; [| discriminate].
    destruct (ascii_dec d d') as [<- |]; [| intros; discriminate].
    destruct (ascii_dec c d) as [<- | Hne].
    + rewrite ascii_compare_refl. apply IH.
    + intros Hlt _ _ _.
      destruct (Ascii.compare c d) eqn:E; try discriminate Hlt.
      * apply Ascii.compare_eq_iff in E. contradiction.
      * reflexivity.
Qed.

Lemma StronglySorted_app {A} (R : A -> A -> Prop) l1 l2 :
  StronglySorted R l1 -> StronglySorted R l2 ->
  (forall x y, In x l1 -> In y l2 -> R x y) ->
  StronglySorted R (l1 ++ l2).
Proof.
  induction 1 as [|a l1 Hs IH Ha]; intros H2 Hx; simpl; [exact H2 |].
  constructor.
  - apply IH; [exact H2 |]. intros x y Hx1 Hy. apply Hx; [right |]; auto.
  - apply Forall_app. split; [exact Ha |].
    apply Forall_forall. intros y Hy. apply Hx; [left; reflexivity | exact Hy].
Qed.

(** The outputs of sibling subtrees, taken in ascending order of the
    sibling keys, are in ascending order together. *)
Lemma siblings_parts_in_order (cs : list PackageTreeNode)
  (parts : list (list string)) :
  StronglySorted (fun a b => String.ltb (package a) (package b) = true) cs ->
  (forall c c', In c cs -> In c' cs ->
                package c = package c' \/
                unrelated (package c) (package c')) ->
  Forall2 (fun c part =>
             StronglySorted (fun a b => String.ltb a b = true) part /\
             Forall (fun k => startswith k (package c) = true) part)
    cs parts ->
  StronglySorted (fun a b => String.ltb a b = true) (List.concat parts) /\
  Forall (fun k => exists c, In c cs /\ startswith k (package c) = true)
    (List.concat parts).
Proof.
  intros Hs Hun H. revert Hs Hun.
  induction H as [|c part cs parts [Hp1 Hp2] _ IH]; intros Hs Hun; simpl.
  - split; constructor.
  - inversion Hs as [|? ? Hs' Hc]; subst.
    destruct (IH Hs') as [IH1 IH2].
    { intros x y Hx Hy. apply Hun; right; assumption. }
    split.
    + apply StronglySorted_app; try assumption.
      intros x y Hx Hy. rewrite Forall_forall in Hp2, IH2, Hc.
      destruct (IH2 y Hy) as (c' & Hc' & Hy').
      pose proof (Hc c' Hc') as Hlt.
      apply (extensions_in_order (package c) (package c')); auto.
      destruct (Hun c c') as [Heq | [_ H2]];
        [left; reflexivity | right; exact Hc' | | exact H2].
      rewrite Heq, ltb_irrefl in Hlt. discriminate.
    + apply Forall_app. split.
      * eapply Forall_impl; [| exact Hp2]. intros k Hk.
        exists c. split; [left; reflexivity | exact Hk].
      * eapply Forall_impl; [| exact IH2]. intros k (c' & Hc' & Hk).
        exists c'. split; [right; exact Hc' | exact Hk].
Qed.

(** [compute_counts] keeps a valid tree valid. *)
Lemma compute_counts_valid ttp oo node :
  forall above node',
    valid_tree above node ->
    compute_counts node ttp oo = Ok node' ->
    valid_tree above node'.
Proof.
  induction node as [node IH] using PackageTreeNode_ind.
  intros above node' Hv H.
  apply compute_counts_node in H. destruct H as (Hp & Hd & Hcs & _).
  inversion Hv as [? ? H1 H2 H3 H4 H5]; subst.
  apply mapM_Forall2 in Hcs.
  assert (Hk : map package (children node') = map package (children node)).
  { clear -Hcs. induction Hcs as [|c c' cs cs' Hc _ IHc]; [reflexivity |].
    simpl. rewrite IHc. f_equal.
    apply compute_counts_node in Hc. apply Hc. }
  constructor.
  - rewrite Hd. exact H1.
  - rewrite Hp. exact H2.
  - rewrite Hp. exact H3.
  - unfold siblings_unrelated in *. rewrite Hk. exact H4.
  - rewrite Hp. clear Hk H4.
    induction Hcs as [|c c' cs cs' Hc _ IHc]; [constructor |].
    inversion IH; inversion H5; subst.
    constructor; [eauto | apply IHc; assumption].
Qed.

Lemma for_each_parts {A} (body : A -> io unit)
  (Q : A -> list string -> Prop) xs :
  Forall (fun x => exists out,
              body x = (out, Ok tt) /\ Q x (printed_packages out)) xs ->
  exists out parts,
    for_each body xs = (out, Ok tt) /\
    printed_packages out = List.concat parts /\
    Forall2 Q xs parts.
Proof.
  induction 1 as [|x xs (o & Hx & Hq) _ (os & parts & Hxs & Hp & Hf)]; simpl.
  - exists [], []. repeat split. constructor.
  - unfold io_bind. rewrite Hx, Hxs.
    exists (o ++ os), (printed_packages o :: parts).
    split; [reflexivity |]. split.
    + rewrite printed_packages_app, Hp. reflexivity.
    + constructor; assumption.
Qed.

Lemma key_order_strongly {A} (key : A -> string) l :
  NoDup (map key l) ->
  StronglySorted (fun a b => String.ltb (key a) (key b) = true)
    (sorted key l).
Proof.
  intros H. apply Sorted_StronglySorted.
  - intros a b c. apply ltb_trans.
  - apply sorted_by_key. exact H.
Qed.

Lemma sorted_siblings_related siblings :
  siblings_unrelated siblings ->
  forall c c',
    In c (sorted package siblings) -> In c' (sorted package siblings) ->
    package c = package c' \/ unrelated (package c) (package c').
Proof.
  intros Hun c c' Hc Hc'.
  apply (unrelated_siblings_In _ Hun).
  - apply (Permutation_in _ (sorted_perm package siblings) Hc).
  - apply (Permutation_in _ (sorted_perm package siblings) Hc').
Qed.

(** With [expand] set, the package lines of a valid tree come out in
    ascending order of their keys, all of which extend the key of the
    root. *)
Lemma print_forest_ascending ptt oo pit r :
  forall above,
    valid_tree above r ->
    Forall (fun n => has_targets n /\ targets_known ptt oo n) (nodes r) ->
    exists out,
      print_forest r ptt oo pit true = (out, Ok tt) /\
      StronglySorted (fun a b => String.ltb a b = true)
        (printed_packages out) /\
      Forall (fun k => startswith k (package r) = true)
        (printed_packages out).
Proof.
  induction r as [r IH] using PackageTreeNode_ind.
  intros above Hv Hall.
  inversion Hv as [? ? _ _ _ Hun Hcs]; subst.
  rewrite nodes_eq in Hall. inversion Hall as [|? ? [Ht Hk] Hall']; subst.
  apply Forall_flat_map in Hall'.
  destruct (visit_shown r ptt oo pit true Ht Hk) as (o & Hvis & Hpo).
  assert (Hsh : shown true r = true) by (unfold shown; apply orb_true_r).
  rewrite Hsh in Hvis, Hpo.
  destruct (for_each_parts
              (fun c => print_forest c ptt oo pit true)
              (fun c part =>
                 StronglySorted (fun a b => String.ltb a b = true) part /\
                 Forall (fun k => startswith k (package c) = true) part)
              (sorted package (children r)))
    as (os & parts & Hos & Hparts & Hf).
  { eapply Permutation_Forall; [symmetry; apply sorted_perm |].
    rewrite Forall_forall in *. intros c Hc.
    destruct (IH c Hc _ (Hcs c Hc) (Hall' c Hc)) as (out & H1 & H2 & H3).
    eauto. }
  destruct (siblings_parts_in_order _ _
              (key_order_strongly package _
                 (siblings_unrelated_distinct _ Hun))
              (sorted_siblings_related _ Hun) Hf) as [Hss Hext].
  assert (Hbelow : Forall (fun k => startswith k (package r) = true /\
                                    String.ltb (package r) k = true)
                     (List.concat parts)).
  { eapply Forall_impl; [| exact Hext]. intros k (c & Hc & Hkc).
    apply (Permutation_in _ (sorted_perm package (children r))) in Hc.
    rewrite Forall_forall in Hcs. pose proof (Hcs c Hc) as Hvc.
    inversion Hvc as [? ? _ Hp Hni _ _]; subst.
    inversion Hp as [|? ? Hcr _]; subst.
    assert (Hkr : startswith k (package r) = true)
      by (eapply startswith_trans; eassumption).
    split; [exact Hkr |].
    apply proper_prefix_below; [exact Hkr |].
    intros ->. apply Hni. left.
    apply startswith_antisym; assumption. }
  unfold print_forest. rewrite print_queue_as_bind, Hvis.
  unfold io_bind. rewrite print_queue_for_each, Hos.
  eexists. split; [reflexivity |].
  rewrite printed_packages_app, Hpo, Hparts. simpl. split.
  - constructor; [exact Hss |].
    eapply Forall_impl; [| exact Hbelow]. intros k [_ H]. exact H.
  - constructor; [apply startswith_refl |].
    eapply Forall_impl; [| exact Hbelow]. intros k [H _]. exact H.
Qed.

(** Two ascending lists with the same elements are the same list. *)
Lemma ascending_perm_unique l1 :
  forall l2,
    StronglySorted (fun a b => String.ltb a b = true) l1 ->
    StronglySorted (fun a b => String.ltb a b = true) l2 ->
    Permutation l1 l2 -> l1 = l2.
Proof.
  induction l1 as [|a l1 IH]; intros l2 H1 H2 Hp.
  - apply Permutation_nil in Hp. congruence.
  - destruct l2 as [|b l2];
      [apply Permutation_sym, Permutation_nil in Hp; discriminate |].
    inversion H1 as [|? ? H1' Ha]; inversion H2 as [|? ? H2' Hb]; subst.
    assert (a = b).
    { destruct (string_dec a b) as [| Hne]; [assumption | exfalso].
      assert (Hab : In a l2).
      { destruct (Permutation_in _ Hp (or_introl eq_refl)) as [|];
          [congruence | assumption]. }
      assert (Hba : In b l1).
      { destruct (Permutation_in _ (Permutation_sym Hp) (or_introl eq_refl))
          as [|]; [congruence | assumption]. }
      rewrite Forall_forall in Ha, Hb.
      pose proof (ltb_trans _ _ _ (Ha b Hba) (Hb a Hab)) as H.
      rewrite ltb_irrefl in H. discriminate. }
    subst b. f_equal. apply IH; try assumption.
    apply (Permutation_cons_inv Hp).
Qed.

(** The aggregated forest of the report is a valid forest. *)
Lemma report_forest_valid outcome_of package_to_targets all_roots :
  group_targets outcome_of = Ok package_to_targets ->
  mapM (fun r => compute_counts r package_to_targets outcome_of)
    (build_package_forest (sorted (fun k => k) (keys package_to_targets)))
  = Ok all_roots ->
  valid_forest all_roots.
Proof.
  intros Hg E.
  destruct (build_from_valid
              (sorted (fun k => k) (keys package_to_targets)) [])
    as [[Hv Hun] _].
  - apply ascending_strongly. apply (report_keys_ascending _ _ Hg).
  - constructor.
  - split; constructor.
  - fold (build_package_forest
            (sorted (fun k => k) (keys package_to_targets))) in Hv, Hun.
    destruct (forest_counted _ _ _ _ E) as (_ & _ & Hpk).
    split.
    + apply mapM_Forall2 in E. clear -E Hv.
      induction E as [|r r' rs rs' Hr _ IH]; [constructor |].
      inversion Hv; subst. constructor; [| auto].
      eapply compute_counts_valid; eassumption.
    + unfold siblings_unrelated in *. rewrite Hpk. exact Hun.
Qed.

(** X22.  With [expand] set, the package lines of the report are those of
    the package keys in ascending order, one line for each key. *)
Theorem expanded_report_is_in_key_order (outcome_of : dict outcome)
  (package_to_targets : dict (list string)) :
  NoDup (keys outcome_of) ->
  outcome_of <> [] ->
  group_targets outcome_of = Ok package_to_targets ->
  exists out,
    report outcome_of true = (out, Ok tt) /\
    printed_packages out = sorted (fun k => k) (keys package_to_targets).
Proof.
  intros Hnd Hne Hg.
  destruct (report_expand_packages _ _ Hnd Hne Hg) as (out & Hout & Hperm).
  exists out. split; [exact Hout |].
  destruct (report_aggregation _ _ Hnd Hg) as (all_roots & E & _ & _).
  destruct (overall_percentage_defined _ Hne) as [percentage Hp].
  pose proof (report_nodes_printable _ _ _ Hg E) as Hall.
  destruct (report_forest_valid _ _ _ Hg E) as [Hv Hun].
  destruct (for_each_parts
              (fun r => print_forest r package_to_targets outcome_of
                          (List.length (keys package_to_targets) <=? 1)
                          true)
              (fun c part =>
                 StronglySorted (fun a b => String.ltb a b = true) part /\
                 Forall (fun k => startswith k (package c) = true) part)
              (sorted package all_roots))
    as (lines & parts & Hl & Hparts & Hf).
  { eapply Permutation_Forall; [symmetry; apply sorted_perm |].
    rewrite Forall_forall in *. intros r Hr.
    destruct (print_forest_ascending package_to_targets outcome_of
                (List.length (keys package_to_targets) <=? 1) r []
                (Hv r Hr)) as (o & H1 & H2 & H3).
    - apply Forall_forall. intros n Hn. apply Hall.
      unfold forest_nodes. apply in_flat_map. eauto.
    - eauto. }
  destruct (siblings_parts_in_order _ _
              (key_order_strongly package _
                 (siblings_unrelated_distinct _ Hun))
              (sorted_siblings_related _ Hun) Hf) as [Hss _].
  rewrite (report_unfold _ _ _ _ true Hg E Hp), Hl in Hout.
  injection Hout as <-.
  apply ascending_perm_unique.
  - change (Blank :: lines ++ [Blank; OverallLine percentage])
      with ([Blank] ++ lines ++ [Blank; OverallLine percentage]).
    rewrite !printed_packages_app. simpl. rewrite app_nil_r, Hparts.
    exact Hss.
  - apply ascending_strongly. apply (report_keys_ascending _ _ Hg).
  - rewrite Hperm. symmetry. apply sorted_perm.
Qed.

Lemma expanded_report_is_in_key_order_witness :
  exists out,
    report [("//b:y", None); ("//a/c:z", Some "success");
            ("//a:x", Some "success")] true = (out, Ok tt) /\
    printed_packages out = ["//a"; "//a/c"; "//b"].
Proof.
  apply (expanded_report_is_in_key_order
           [("//b:y", None); ("//a/c:z", Some "success");
            ("//a:x", Some "success")]
           [("//b", ["//b:y"]); ("//a/c", ["//a/c:z"]); ("//a", ["//a:x"])]).
  - repeat constructor; simpl; intuition discriminate.
  - discriminate.
  - reflexivity.
Defined.
